(** * Template Analyzer of resumemaker: a shallow embedding

    The class [TemplateAnalyzer] of the repository infers design
    properties of a resume template from the pixels of its raster image:
    a colour palette, text regions, sections, a grid, margins and
    horizontal divider lines.  This file embeds its methods as Rocq
    functions and proves (or refutes) the properties the specification
    states about them, and further properties the code has.  Two places
    of the application around the analyzer are embedded with it:
    [isValidTemplateFile] of the upload handler, which decides what
    reaches [analyzeTemplate], and [applyTemplateStyles] of the preview,
    which reads the palette, the fonts and the margins of the result.

    Conventions of the embedding.
    - JavaScript integers (pixel coordinates, counts, byte values) are [Z].
    - JavaScript numbers that need not be integers (luminance, ratios,
      averages, scores) are exact rationals [Q]: the rounding of IEEE
      doubles is not modelled, so a comparison agrees with the source
      unless the exact value sits on the threshold itself.  The tests
      [n > width * 0.1] and [n > height * 0.05] on integers always
      agree; among the byte colours the luminance tests [< 240] and
      [< 200] disagree only where the exact luminance is the threshold
      (for instance (251, 241, 206): exactly 240, which the doubles of
      the source make 239.99999999999997).  [NaN] is made explicit
      where the source can produce it.
    - [imageData.data] is a [list Z] of bytes, four per pixel, row major.
    - A [for] loop over an index is the list of the indices it visits
      ([for_range]), folded over or mapped over in that order.
    - [this.analysisResults] is threaded explicitly as a state record. *)

From Stdlib Require Import ZArith List Bool String Ascii Lia.
From Stdlib Require Import QArith Qminmax Qabs Lqa.
From Stdlib Require Import Sorting.Sorted Sorting.Permutation.
From Stdlib Require DecimalString HexadecimalString DecimalZ DecimalPos.
From Stdlib Require HexadecimalN.
Import ListNotations.

Local Open Scope Z_scope.

(* ================================================================= *)
(** * JavaScript primitives used by the analyzer *)

Module JS.

(** [for (let i = start; i < stop; i += step)]: the indices visited, in
    order.  The recursion follows the loop (test, body, increment);
    [stop - start] iterations always suffice when [step >= 1]. *)
Fixpoint for_loop (fuel : nat) (i stop step : Z) : list Z :=
  match fuel with
  | O => []
  | S fuel' =>
      if i <? stop then i :: for_loop fuel' (i + step) stop step else []
  end.

Definition for_range (start stop step : Z) : list Z :=
  for_loop (Z.to_nat (stop - start)) start stop step.

(** [Array.prototype.sort(cmp)] for a consistent comparator: the sort is
    stable (ECMAScript 2019), so the result is the unique ordered
    arrangement in which elements that compare equal keep their original
    order.  [insert_by] places [x], which stood before every element of
    the already sorted tail, in front of the first element it does not
    have to follow. *)
Section Sort.
Context {A : Type} (cmp : A -> A -> Z).

Fixpoint insert_by (x : A) (l : list A) : list A :=
  match l with
  | [] => [x]
  | y :: t => if cmp x y <=? 0 then x :: y :: t else y :: insert_by x t
  end.

Fixpoint sort_by (l : list A) : list A :=
  match l with
  | [] => []
  | x :: t => insert_by x (sort_by t)
  end.
End Sort.

(** [[...new Set(l)]]: the distinct elements of [l], in order of first
    occurrence. *)
Fixpoint set_of_list (seen l : list Z) : list Z :=
  match l with
  | [] => []
  | x :: t =>
      if existsb (Z.eqb x) seen then set_of_list seen t
      else x :: set_of_list (x :: seen) t
  end.

Definition unique (l : list Z) : list Z := set_of_list [] l.

(** A [Map] with string keys: insertion ordered, [set] on a present key
    keeps the key's position. *)
Definition Map := list (string * Z).

Fixpoint map_get (m : Map) (k : string) : option Z :=
  match m with
  | [] => None
  | (k', v) :: t => if String.eqb k' k then Some v else map_get t k
  end.

Fixpoint map_set (m : Map) (k : string) (v : Z) : Map :=
  match m with
  | [] => [(k, v)]
  | (k', v') :: t =>
      if String.eqb k' k then (k', v) :: t else (k', v') :: map_set t k v
  end.

(** [x || 0] for [x] the result of [Map.get]. *)
Definition or_zero (x : option Z) : Z :=
  match x with Some v => v | None => 0 end.

(** Template-literal rendering [`${n}`] of an integer. *)
Definition to_string (n : Z) : string :=
  DecimalString.NilZero.string_of_int (Z.to_int n).

(** [Number(s)] on the strings the analyzer feeds it, decimal integers;
    [None] stands for [NaN]. *)
Definition Number (s : string) : option Z :=
  option_map Z.of_int (DecimalString.NilZero.int_of_string s).

(** [s.split(',')]. *)
Fixpoint split_on (sep : ascii) (cur s : string) : list string :=
  match s with
  | EmptyString => [cur]
  | String c s' =>
      if Ascii.eqb c sep then cur :: split_on sep EmptyString s'
      else split_on sep (cur ++ String c EmptyString)%string s'
  end.

Definition split_comma (s : string) : list string :=
  split_on ","%char EmptyString s.

(** [ToInt32] and the 32-bit left shift [a << n]. *)
Definition toInt32 (z : Z) : Z := (z + 2 ^ 31) mod 2 ^ 32 - 2 ^ 31.

Definition shl (a n : Z) : Z := toInt32 (Z.shiftl (toInt32 a) (Z.land n 31)).

(** [n.toString(16)] for an integer [n]: lowercase digits, a leading
    minus sign for negative numbers. *)
Definition toString16 (n : Z) : string :=
  if n <? 0
  then ("-" ++ HexadecimalString.NilZero.string_of_uint
                 (N.to_hex_uint (Z.to_N (- n))))%string
  else HexadecimalString.NilZero.string_of_uint (N.to_hex_uint (Z.to_N n)).

(** [s.slice(1)]. *)
Definition slice1 (s : string) : string :=
  match s with
  | EmptyString => EmptyString
  | String _ s' => s'
  end.

(** [a > b] on numbers. *)
Definition gt (a b : Q) : bool :=
  match (a ?= b)%Q with Gt => true | _ => false end.

Definition lt (a b : Q) : bool := gt b a.

End JS.

(* ================================================================= *)
(** * Data model *)

(** [ImageData]: [data] holds [4 * width * height] bytes, RGBA. *)
Record ImageData : Type := mkImageData {
  width : Z;
  height : Z;
  data : list Z
}.

(** [data[i]]; every access the analyzer makes on a well-formed image is
    in range, so the default is never returned there. *)
Definition data_at (d : list Z) (i : Z) : Z := nth (Z.to_nat i) d 0.

Definition data_length (d : list Z) : Z := Z.of_nat (List.length d).

(** What the canvas guarantees of the [ImageData] it hands out. *)
Definition wf_image (img : ImageData) : Prop :=
  0 < width img /\ 0 < height img /\
  data_length (data img) = 4 * (width img * height img) /\
  Forall (fun v => 0 <= v <= 255) (data img).

Record ColorSwatch : Type := mkSwatch {
  rgb : string;
  hex : string;
  frequency : Z
}.

(* ================================================================= *)
(** * Colour palette *)

(** [rgbToHex(r, g, b)]. *)
Definition rgbToHex (r g b : Z) : string :=
  ("#" ++ JS.slice1
            (JS.toString16
               (JS.shl 1 24 + JS.shl r 16 + JS.shl g 8 + b)))%string.

(** [Math.floor(c / 20) * 20]. *)
Definition quantize (c : Z) : Z := c / 20 * 20.

(** The bucket key [`${..},${..},${..}`]. *)
Definition colorKey (r g b : Z) : string :=
  (JS.to_string (quantize r) ++ "," ++ JS.to_string (quantize g) ++ ","
     ++ JS.to_string (quantize b))%string.

Definition sampleRate : Z := 10.

(** One iteration of the sampling loop of [extractColorPalette]. *)
Definition palette_step (d : list Z) (colorMap : JS.Map) (i : Z) : JS.Map :=
  let r := data_at d i in
  let g := data_at d (i + 1) in
  let b := data_at d (i + 2) in
  let a := data_at d (i + 3) in
  if a <? 128 then colorMap
  else
    let key := colorKey r g b in
    JS.map_set colorMap key (JS.or_zero (JS.map_get colorMap key) + 1).

Definition colorCounts (d : list Z) : JS.Map :=
  fold_left (palette_step d)
    (JS.for_range 0 (data_length d) (4 * sampleRate)) [].

(** [color.split(',').map(Number)] destructured into [[r, g, b]]. *)
Definition decodeKey (color : string) : option (Z * Z * Z) :=
  match map JS.Number (JS.split_comma color) with
  | Some r :: Some g :: Some b :: _ => Some (r, g, b)
  | _ => None
  end.

(** The swatch built from one entry of the map.  Every key of the map
    comes from [colorKey] and decodes ([decodeKey_colorKey]); the other
    branch is never taken. *)
Definition swatch_of_entry (e : string * Z) : ColorSwatch :=
  match decodeKey (fst e) with
  | Some (r, g, b) =>
      mkSwatch ("rgb(" ++ JS.to_string r ++ ", " ++ JS.to_string g ++ ", "
                  ++ JS.to_string b ++ ")")%string
               (rgbToHex r g b) (snd e)
  | None => mkSwatch "rgb(NaN, NaN, NaN)"%string "#aN"%string (snd e)
  end.

(** [extractColorPalette(imageData)]: the value stored in
    [analysisResults.colorPalette]. *)
Definition extractColorPalette (img : ImageData) : list ColorSwatch :=
  map swatch_of_entry
    (firstn 8 (JS.sort_by (fun a b => snd b - snd a) (colorCounts (data img)))).

(* ================================================================= *)
(** * Text regions *)

Module Region.
(** A text block, raw (one 20x20 cell) or merged (a bounding box). *)
Record t : Type := mk {
  x : Z;
  y : Z;
  width : Z;
  height : Z;
  confidence : Q
}.
End Region.

(** [getGrayscale(data, idx)]. *)
Definition getGrayscale (d : list Z) (idx : Z) : Q :=
  (0.299 * inject_Z (data_at d idx) + 0.587 * inject_Z (data_at d (idx + 1))
   + 0.114 * inject_Z (data_at d (idx + 2)))%Q.

(** The three counters of [calculateTextScore]. *)
Record ScoreAcc : Type := mkAcc {
  edgeCount : Z;
  totalPixels : Z;
  contrastSum : Q
}.

(** The body of the inner loop of [calculateTextScore] at offset
    [(dx, dy)] of the cell at [(x, y)]. *)
Definition score_step (d : list Z) (x y width : Z) (dy : Z)
    (acc : ScoreAcc) (dx : Z) : ScoreAcc :=
  let idx := ((y + dy) * width + (x + dx)) * 4 in
  let nextIdx := ((y + dy) * width + (x + dx + 1)) * 4 in
  let belowIdx := ((y + dy + 1) * width + (x + dx)) * 4 in
  if (idx >=? data_length d) || (nextIdx >=? data_length d)
     || (belowIdx >=? data_length d)
  then acc
  else
    let current := getGrayscale d idx in
    let right := getGrayscale d nextIdx in
    let below := getGrayscale d belowIdx in
    let horizontalEdge := Qabs (current - right) in
    let verticalEdge := Qabs (current - below) in
    mkAcc
      (if JS.gt horizontalEdge 30 || JS.gt verticalEdge 30
       then edgeCount acc + 1 else edgeCount acc)
      (totalPixels acc + 1)
      (contrastSum acc + Qmax horizontalEdge verticalEdge)%Q.

Definition score_row (d : list Z) (x y size width : Z)
    (acc : ScoreAcc) (dy : Z) : ScoreAcc :=
  fold_left (score_step d x y width dy) (JS.for_range 0 (size - 1) 1) acc.

Definition score_counters (d : list Z) (x y size width : Z) : ScoreAcc :=
  fold_left (score_row d x y size width) (JS.for_range 0 (size - 1) 1)
    (mkAcc 0 0 0).

(** [calculateTextScore(data, x, y, size, width)].  [None] is the [NaN]
    that [0 / 0] gives when no pixel of the cell was sampled. *)
Definition calculateTextScore (d : list Z) (x y size width : Z) : option Q :=
  let acc := score_counters d x y size width in
  if totalPixels acc =? 0 then None
  else
    let edgeRatio :=
      (inject_Z (edgeCount acc) / inject_Z (totalPixels acc))%Q in
    let avgContrast := (contrastSum acc / inject_Z (totalPixels acc))%Q in
    Some (Qmin (edgeRatio * 2) 1 * Qmin (avgContrast / 100) 1)%Q.

(** [areRegionsAdjacent(region1, region2)]. *)
Definition areRegionsAdjacent (region1 region2 : Region.t) : bool :=
  let threshold := 30 in
  let horizontalOverlap :=
    negb ((Region.x region1 + Region.width region1
             <? Region.x region2 - threshold)
          || (Region.x region2 + Region.width region2
                <? Region.x region1 - threshold)) in
  let verticalOverlap :=
    negb ((Region.y region1 + Region.height region1
             <? Region.y region2 - threshold)
          || (Region.y region2 + Region.height region2
                <? Region.y region1 - threshold)) in
  horizontalOverlap && verticalOverlap.

(** [calculateBoundingBox(regions)] for the group [seed :: rest]: a
    group always holds its seed, so the [Math.min] and [Math.max] of the
    source never range over an empty array. *)
Definition calculateBoundingBox (seed : Region.t) (rest : list Region.t)
    : Region.t :=
  let minX := fold_left Z.min (map Region.x rest) (Region.x seed) in
  let minY := fold_left Z.min (map Region.y rest) (Region.y seed) in
  let maxX :=
    fold_left Z.max (map (fun r => Region.x r + Region.width r) rest)
      (Region.x seed + Region.width seed) in
  let maxY :=
    fold_left Z.max (map (fun r => Region.y r + Region.height r) rest)
      (Region.y seed + Region.height seed) in
  Region.mk minX minY (maxX - minX) (maxY - minY)
    (fold_left Qmax (map Region.confidence rest) (Region.confidence seed)).

(** The inner loop of [mergeTextRegions]: block [j] joins the group of
    the seed when it is unused and adjacent to the seed itself. *)
Definition absorb (regions : list Region.t) (seed : Region.t)
    (st : list Region.t * list nat) (j : nat) : list Region.t * list nat :=
  let '(rest, used) := st in
  if existsb (Nat.eqb j) used then st
  else
    match nth_error regions j with
    | Some rj =>
        if areRegionsAdjacent seed rj then (rest ++ [rj], j :: used) else st
    | None => st
    end.

(** The outer loop of [mergeTextRegions]; [used] is the [Set] of indices
    already placed in a group. *)
Definition merge_step (regions : list Region.t)
    (st : list Region.t * list nat) (i : nat) : list Region.t * list nat :=
  let '(merged, used) := st in
  if existsb (Nat.eqb i) used then st
  else
    match nth_error regions i with
    | Some ri =>
        let '(rest, used') :=
          fold_left (absorb regions ri)
            (seq (S i) (List.length regions - S i)) ([], i :: used) in
        (merged ++ [calculateBoundingBox ri rest], used')
    | None => st
    end.

(** [mergeTextRegions(regions)]. *)
Definition mergeTextRegions (regions : list Region.t) : list Region.t :=
  fst (fold_left (merge_step regions) (seq 0 (List.length regions)) ([], [])).

Definition blockSize : Z := 20.

(** The cells visited by the two loops of [detectTextRegions], as
    [(x, y)] origins in visiting order. *)
Definition candidateCells (width height : Z) : list (Z * Z) :=
  flat_map
    (fun y =>
       map (fun x => (x, y)) (JS.for_range 0 (width - blockSize) blockSize))
    (JS.for_range 0 (height - blockSize) blockSize).

(** The body of the loops: the raw block pushed for a cell whose score
    is [textScore], if any. *)
Definition keepRegion (x y : Z) (textScore : option Q) : list Region.t :=
  match textScore with
  | Some s =>
      if JS.gt s 0.3 then [Region.mk x y blockSize blockSize s] else []
  | None => []
  end.

Definition rawRegion (img : ImageData) (c : Z * Z) : list Region.t :=
  keepRegion (fst c) (snd c)
    (calculateTextScore (data img) (fst c) (snd c) blockSize (width img)).

Definition rawTextRegions (img : ImageData) : list Region.t :=
  flat_map (rawRegion img) (candidateCells (width img) (height img)).

(** [detectTextRegions(imageData)]: the value stored in
    [analysisResults.layout.textBlocks]. *)
Definition detectTextRegions (img : ImageData) : list Region.t :=
  mergeTextRegions (rawTextRegions img).

(* ================================================================= *)
(** * Layout: sections, grid, margins *)

Module Sec.
Record t : Type := mk {
  type : string;
  x : Z;
  y : Z;
  width : Z;
  height : Z
}.
End Sec.

(** The luminance of the pixel at column [x] of row [y]. *)
Definition brightness (img : ImageData) (x y : Z) : Q :=
  getGrayscale (data img) ((y * width img + x) * 4).

(** [horizontalProfile[y]] once the counting loops of [detectSections]
    are over: the number of pixels of row [y] darker than 240. *)
Definition horizontalProfile (img : ImageData) (y : Z) : Z :=
  fold_left
    (fun n x => if JS.lt (brightness img x y) 240 then n + 1 else n)
    (JS.for_range 0 (width img) 1) 0.

(** The state of the boundary loop of [detectSections]. *)
Record SectionScan : Type := mkScan {
  sections : list Sec.t;
  sectionStart : Z;
  inSection : bool
}.

(** [hasContent] for row [y]: the profile exceeds 10% of the width. *)
Definition hasContent (img : ImageData) (y : Z) : bool :=
  JS.gt (inject_Z (horizontalProfile img y)) (inject_Z (width img) * 0.1)%Q.

Definition section_step (img : ImageData) (st : SectionScan) (y : Z)
    : SectionScan :=
  let minSectionHeight := (inject_Z (height img) * 0.05)%Q in
  if hasContent img y && negb (inSection st) then
    mkScan (sections st) y true
  else if negb (hasContent img y) && inSection st then
    let sectionHeight := y - sectionStart st in
    mkScan
      (if JS.gt (inject_Z sectionHeight) minSectionHeight
       then sections st
              ++ [Sec.mk "content" 0 (sectionStart st) (width img)
                    sectionHeight]
       else sections st)
      (sectionStart st) false
  else st.

(** [detectSections(imageData)]. *)
Definition detectSections (img : ImageData) : list Sec.t :=
  let st :=
    fold_left (section_step img) (JS.for_range 0 (height img) 1)
      (mkScan [] 0 false) in
  if inSection st
  then sections st
         ++ [Sec.mk "content" 0 (sectionStart st) (width img)
               (height img - sectionStart st)]
  else sections st.

Record Gutters : Type := mkGutters {
  horizontal : Q;
  vertical : Z
}.

Record GridInfo : Type := mkGrid {
  columns : Z;
  rows : Z;
  gutters : Gutters
}.

(** [Math.round(x / 10) * 10] for an integer [x]: halves round up. *)
Definition round10 (x : Z) : Z := (x + 5) / 10 * 10.

(** The array [verticalGaps] built from the sorted top edges. *)
Fixpoint gaps (l : list Z) : list Z :=
  match l with
  | a :: (b :: _) as t => (b - a) :: gaps t
  | _ => []
  end.

(** [a.reduce((a, b) => a + b, 0)]. *)
Definition sum (l : list Z) : Z := fold_left Z.add l 0.

(** [detectGridStructure(imageData)]: it reads the merged text blocks of
    the state and nothing of the image. *)
Definition detectGridStructure (textBlocks : list Region.t) : GridInfo :=
  if Z.of_nat (List.length textBlocks) <? 2 then mkGrid 1 1 (mkGutters 0 0)
  else
    let leftAlignments :=
      JS.sort_by (fun a b => a - b) (map Region.x textBlocks) in
    let uniqueLefts := JS.unique (map round10 leftAlignments) in
    let topAlignments :=
      JS.sort_by (fun a b => a - b) (map Region.y textBlocks) in
    let verticalGaps := gaps topAlignments in
    let avgVerticalGap :=
      if 0 <? Z.of_nat (List.length verticalGaps)
      then (inject_Z (sum verticalGaps)
            / inject_Z (Z.of_nat (List.length verticalGaps)))%Q
      else 0%Q in
    let n := Z.of_nat (List.length uniqueLefts) in
    mkGrid n
      (* Math.ceil(textBlocks.length / uniqueLefts.length) *)
      ((Z.of_nat (List.length textBlocks) + n - 1) / n)
      (mkGutters avgVerticalGap
         (if 1 <? n then nth 1 uniqueLefts 0 - nth 0 uniqueLefts 0 else 0)).

Record Margins : Type := mkMargins {
  top : Z;
  bottom : Z;
  left : Z;
  right : Z
}.

(** The inner loops of [detectMargins]: does the row (the column) hold a
    pixel darker than 240? *)
Definition rowHasContent (img : ImageData) (y : Z) : bool :=
  existsb (fun x => JS.lt (brightness img x y) 240)
    (JS.for_range 0 (width img) 1).

Definition colHasContent (img : ImageData) (x : Z) : bool :=
  existsb (fun y => JS.lt (brightness img x y) 240)
    (JS.for_range 0 (height img) 1).

(** [detectMargins(imageData)]: each outer loop stops at its first hit
    and leaves the initial 0 when there is none. *)
Definition detectMargins (img : ImageData) : Margins :=
  let w := width img in
  let h := height img in
  mkMargins
    (match find (rowHasContent img) (JS.for_range 0 h 1) with
     | Some y => y | None => 0 end)
    (match find (rowHasContent img) (rev (JS.for_range 0 h 1)) with
     | Some y => h - 1 - y | None => 0 end)
    (match find (colHasContent img) (JS.for_range 0 w 1) with
     | Some x => x | None => 0 end)
    (match find (colHasContent img) (rev (JS.for_range 0 w 1)) with
     | Some x => w - 1 - x | None => 0 end).

(* ================================================================= *)
(** * Design elements *)

Module Line.
Record t : Type := mk {
  x : Z;
  y : Z;
  length : Z;
  thickness : Z
}.
End Line.

(** The state of the row scan of [detectDesignElements]: the entries
    of [elements.horizontalLines] so far, [lineStart], [lineLength]. *)
Record LineScan : Type := mkLineScan {
  found : list Line.t;
  lineStart : Z;
  lineLength : Z
}.

(** The test [brightness < 200]: pixel [x] of row [y] is dark. *)
Definition dark (img : ImageData) (x y : Z) : bool :=
  JS.lt (brightness img x y) 200.

Definition line_step (img : ImageData) (y : Z) (st : LineScan) (x : Z)
    : LineScan :=
  if dark img x y then
    mkLineScan (found st)
      (if lineStart st =? -1 then x else lineStart st)
      (lineLength st + 1)
  else
    mkLineScan
      (if JS.gt (inject_Z (lineLength st)) (inject_Z (width img) * 0.1)%Q
       then found st ++ [Line.mk (lineStart st) y (lineLength st) 1]
       else found st)
      (-1) 0.

(** One scanned row: [lineStart] and [lineLength] start afresh, the
    lines found so far are kept. *)
Definition line_row (img : ImageData) (lines : list Line.t) (y : Z)
    : list Line.t :=
  found
    (fold_left (line_step img y) (JS.for_range 0 (width img) 1)
       (mkLineScan lines (-1) 0)).

(** The three collections of the object [elements]. *)
Record Elements : Type := mkElements {
  horizontalLines : list Line.t;
  verticalLines : list Line.t;
  shapes : list Line.t
}.

(** [detectDesignElements(imageData)]: the value stored in
    [analysisResults.designElements]. *)
Definition detectDesignElements (img : ImageData) : Elements :=
  mkElements
    (fold_left (line_row img) (JS.for_range 0 (height img) 5) [])
    [] [].

(* ================================================================= *)
(** * PDF text content *)

(** [textContent.items]: only [fontName] is read; [None] is a missing
    name. *)
Record TextItem : Type := mkItem { fontName : option string }.

(** [new Set()] of strings filled by [add] in order. *)
Definition fonts_add (fonts : list string) (name : string) : list string :=
  if existsb (String.eqb name) fonts then fonts else fonts ++ [name].

(** [analyzeTextContent(textContent)]: the value stored in
    [analysisResults.fonts].  An empty name is falsy and skipped. *)
Definition analyzeTextContent (items : list TextItem) : list string :=
  fold_left
    (fun fonts item =>
       match fontName item with
       | Some name =>
           if String.eqb name EmptyString then fonts else fonts_add fonts name
       | None => fonts
       end)
    items [].

(* ================================================================= *)
(** * The analyzer object and its entry points *)

(** [analysisResults.dimensions].  The source renders the quotient with
    [toFixed(2)]; it is kept here as the exact ratio. *)
Record Dimensions : Type := mkDimensions {
  dimWidth : Z;
  dimHeight : Z;
  aspectRatio : Q
}.

Module Layout.
(** [analysisResults.layout]: [grid] and [margins] are absent until
    the first analysis assigns them. *)
Record t : Type := mk {
  sections : list Sec.t;
  textBlocks : list Region.t;
  imageAreas : list Region.t;
  grid : option GridInfo;
  margins : option Margins
}.
End Layout.

(** [analysisResults.designElements]: the literal of the constructor and
    of [reset], or the object [detectDesignElements] stores. *)
Inductive DesignElements : Type :=
  | NoElements            (* {icons: [], dividers: [], borders: []} *)
  | Detected (elements : Elements).

Module Results.
(** [this.analysisResults]. *)
Record t : Type := mk {
  dimensions : option Dimensions;
  colorPalette : list ColorSwatch;
  fonts : list string;
  layout : Layout.t;
  designElements : DesignElements
}.
End Results.

(** The object literal of the constructor and of [reset()]. *)
Definition initialResults : Results.t :=
  Results.mk None [] [] (Layout.mk [] [] [] None None) NoElements.

Definition reset (st : Results.t) : Results.t := initialResults.

(** The uploaded file as the analyzer sees it: its declared MIME type,
    what the browser (for a PDF, pdf.js at scale 2.0) decodes it to, or
    the error of the decoder, and the items of the text layer of page 1
    of a PDF. *)
Record File : Type := mkFile {
  type : string;
  decoded : ImageData + string;
  textItems : list TextItem
}.

(** How an [async] entry point settles.  A resolved promise carries the
    object [this.analysisResults] itself, which is the state returned
    next to the outcome. *)
Inductive Outcome : Type :=
  | Resolved
  | Rejected (message : string).

(** The assignments shared by [analyzeImage] and [analyzePDF], in source
    order: [dimensions], [extractColorPalette], [detectTextRegions],
    [analyzeLayout] (sections, grid from the text blocks just stored,
    margins), [detectDesignElements]. *)
Definition setDimensions (img : ImageData) (st : Results.t) : Results.t :=
  Results.mk
    (Some (mkDimensions (width img) (height img)
             (inject_Z (width img) / inject_Z (height img))%Q))
    (Results.colorPalette st) (Results.fonts st) (Results.layout st)
    (Results.designElements st).

Definition storeColorPalette (img : ImageData) (st : Results.t) : Results.t :=
  Results.mk (Results.dimensions st) (extractColorPalette img)
    (Results.fonts st) (Results.layout st) (Results.designElements st).

Definition storeTextRegions (img : ImageData) (st : Results.t) : Results.t :=
  let l := Results.layout st in
  Results.mk (Results.dimensions st) (Results.colorPalette st)
    (Results.fonts st)
    (Layout.mk (Layout.sections l) (detectTextRegions img)
       (Layout.imageAreas l) (Layout.grid l) (Layout.margins l))
    (Results.designElements st).

Definition analyzeLayout (img : ImageData) (st : Results.t) : Results.t :=
  let l := Results.layout st in
  Results.mk (Results.dimensions st) (Results.colorPalette st)
    (Results.fonts st)
    (Layout.mk (detectSections img) (Layout.textBlocks l)
       (Layout.imageAreas l)
       (Some (detectGridStructure (Layout.textBlocks l)))
       (Some (detectMargins img)))
    (Results.designElements st).

Definition storeDesignElements (img : ImageData) (st : Results.t)
    : Results.t :=
  Results.mk (Results.dimensions st) (Results.colorPalette st)
    (Results.fonts st) (Results.layout st)
    (Detected (detectDesignElements img)).

Definition storeFonts (items : list TextItem) (st : Results.t) : Results.t :=
  Results.mk (Results.dimensions st) (Results.colorPalette st)
    (analyzeTextContent items) (Results.layout st)
    (Results.designElements st).

Definition pixelAnalyses (img : ImageData) (st : Results.t) : Results.t :=
  storeDesignElements img
    (analyzeLayout img
       (storeTextRegions img (storeColorPalette img (setDimensions img st)))).

(** [analyzeImage(imageFile)]. *)
Definition analyzeImage (file : File) (st : Results.t) : Outcome * Results.t :=
  match decoded file with
  | inl img => (Resolved, pixelAnalyses img st)
  | inr _ => (Rejected "Failed to load image", st)
  end.

(** [analyzePDF(pdfFile)]. *)
Definition analyzePDF (file : File) (st : Results.t) : Outcome * Results.t :=
  match decoded file with
  | inl img => (Resolved, storeFonts (textItems file) (pixelAnalyses img st))
  | inr error => (Rejected error, st)
  end.

(** [analyzeTemplate(file)]. *)
Definition analyzeTemplate (file : File) (st : Results.t)
    : Outcome * Results.t :=
  if String.prefix "image/" (type file) then analyzeImage file st
  else if String.eqb (type file) "application/pdf" then analyzePDF file st
  else (Rejected "Unsupported file type", st).

(** The types [isValidTemplateFile] of the upload handler lets through
    to the analyzer. *)
Definition validTypes : list string :=
  ["image/jpeg"; "image/jpg"; "image/png"; "application/pdf"]%string.

(* ================================================================= *)
(** * The preview: [applyTemplateStyles] *)

(** What [applyTemplateStyles] of the preview engine writes: the custom
    properties of the page element, which outlive a render, and the
    padding of the content element [renderResume] has just created.
    [None] is a property that is not set. *)
Record Styles : Type := mkStyles {
  primaryColor : option string;    (* --resume-primary-color *)
  secondaryColor : option string;  (* --resume-secondary-color *)
  primaryFont : option string;     (* --resume-primary-font *)
  padding : option string          (* content.style.padding *)
}.

(** [`${top}px ${right}px ${bottom}px ${left}px`]. *)
Definition paddingOf (m : Margins) : string :=
  (JS.to_string (top m) ++ "px " ++ JS.to_string (right m) ++ "px "
   ++ JS.to_string (bottom m) ++ "px " ++ JS.to_string (left m) ++ "px")%string.

(** [colorPalette[1]?.hex || '#666666']. *)
Definition secondaryOf (rest : list ColorSwatch) : string :=
  match rest with
  | c1 :: _ => if String.eqb (hex c1) EmptyString then "#666666" else hex c1
  | [] => "#666666"
  end%string.

Section Preview.

(** [this.fontMatcher.matchFont], of which the colours and the padding
    are independent. *)
Variable matchFont : string -> string.

(** [style.setProperty(name, value)]: an empty value removes the
    property. *)
Definition setProperty (value : string) : option string :=
  if String.eqb value EmptyString then None else Some value.

(** [applyTemplateStyles(resumePage, template)] for a template that is
    the object of the analyzer: each of the three blocks writes only
    when its guard holds.  The padding is the one of margins that are
    not negative, as those of [detectMargins] are. *)
Definition applyTemplateStyles (template : Results.t) (st : Styles)
    : Styles :=
  let st1 :=
    match Results.colorPalette template with
    | c0 :: rest =>
        mkStyles (setProperty (hex c0)) (setProperty (secondaryOf rest))
          (primaryFont st) (padding st)
    | [] => st
    end in
  let st2 :=
    match Results.fonts template with
    | f :: _ =>
        mkStyles (primaryColor st1) (secondaryColor st1)
          (setProperty (matchFont f)) (padding st1)
    | [] => st1
    end in
  match Layout.margins (Results.layout template) with
  | Some m =>
      mkStyles (primaryColor st2) (secondaryColor st2) (primaryFont st2)
        (Some (paddingOf m))
  | None => st2
  end.

End Preview.

(* ================================================================= *)
(** * Predicates and inputs of the statements *)

(** The bytes of one pixel. *)
Definition px (r g b a : Z) : list Z := [r; g; b; a].

(** The image of [w * h] pixels, all of one colour. *)
Definition solid (w h r g b a : Z) : ImageData :=
  mkImageData w h (List.concat (repeat (px r g b a) (Z.to_nat (w * h)))).

(** A decision procedure for [wf_image]. *)
Definition wf_imageb (img : ImageData) : bool :=
  (0 <? width img) && (0 <? height img)
  && (data_length (data img) =? 4 * (width img * height img))
  && forallb (fun v => (0 <=? v) && (v <=? 255)) (data img).

(** Pixel [p] (row major) is the colour [(r, g, b, a)]. *)
Definition pixel_is (img : ImageData) (p r g b a : Z) : Prop :=
  data_at (data img) (4 * p) = r /\ data_at (data img) (4 * p + 1) = g /\
  data_at (data img) (4 * p + 2) = b /\ data_at (data img) (4 * p + 3) = a.

(** Every pixel of the image is the colour [(r, g, b, a)]. *)
Definition uniform (img : ImageData) (r g b a : Z) : Prop :=
  forall p, 0 <= p < width img * height img -> pixel_is img p r g b a.

(** Every pixel has alpha at least 128. *)
Definition all_opaque (img : ImageData) : Prop :=
  forall p, 0 <= p < width img * height img ->
            128 <= data_at (data img) (4 * p + 3).

Definition all_opaqueb (img : ImageData) : bool :=
  forallb (fun p => 128 <=? data_at (data img) (4 * p + 3))
    (JS.for_range 0 (width img * height img) 1).

(** No comma among the characters of a string. *)
Fixpoint comma_free (s : string) : bool :=
  match s with
  | EmptyString => true
  | String c s' => negb (Ascii.eqb c ",") && comma_free s'
  end.

(** Eleven opaque pixels in a row: the two the palette samples, the
    first and the eleventh, are red and blue. *)
Definition tieImage : ImageData :=
  mkImageData 11 1
    (px 255 0 0 255 ++ List.concat (repeat (px 255 255 255 255) 9)
     ++ px 0 0 255 255).

(** One pure red opaque pixel. *)
Definition redPixel : ImageData := solid 1 1 255 0 0 255.


(** The 20x20 cell at [(x, y)] lies within the image. *)
Definition in_bounds (img : ImageData) (x y : Z) : Prop :=
  0 <= x /\ x + blockSize <= width img /\
  0 <= y /\ y + blockSize <= height img.

(** The luminance of the colour [(r, g, b)]. *)
Definition luminance (r g b : Z) : Q :=
  (0.299 * inject_Z r + 0.587 * inject_Z g + 0.114 * inject_Z b)%Q.

(** Black and white opaque pixels alternating in both directions. *)
Definition checkerboard (w h : Z) : ImageData :=
  mkImageData w h
    (flat_map
       (fun y =>
          flat_map
            (fun x =>
               if Z.even (x + y) then px 0 0 0 255 else px 255 255 255 255)
            (JS.for_range 0 w 1))
       (JS.for_range 0 h 1)).



(** The counters of a cell without edges. *)
Definition acc_flat (acc : ScoreAcc) : Prop :=
  edgeCount acc = 0 /\ (contrastSum acc == 0)%Q.

(** [b] is the bounding box of a group of raw regions: a seed and the
    regions absorbed with it. *)
Definition group_box (regions : list Region.t) (b : Region.t) : Prop :=
  exists seed rest,
    b = calculateBoundingBox seed rest /\ incl (seed :: rest) regions.


(** A GIF whose four white pixels decode. *)
Definition gifFile : File :=
  mkFile "image/gif" (inl (solid 2 2 255 255 255 255)) [].

Definition textFile : File := mkFile "text/plain" (inr "not decoded"%string) [].

(** A PDF whose page renders to four white pixels and whose text layer
    names one font. *)
Definition pdfFile : File :=
  mkFile "application/pdf" (inl (solid 2 2 255 255 255 255))
    [mkItem (Some "Helvetica"%string)].

(** A PNG of four black pixels. *)
Definition pngFile : File := mkFile "image/png" (inl (solid 2 2 0 0 0 255)) [].

(** What an analysis of the raster [img] writes, whatever the state was:
    every field but [fonts] and [layout.imageAreas]. *)
Definition freshResults (img : ImageData) (fonts : list string)
    (imageAreas : list Region.t) : Results.t :=
  Results.mk
    (Some (mkDimensions (width img) (height img)
             (inject_Z (width img) / inject_Z (height img))%Q))
    (extractColorPalette img)
    fonts
    (Layout.mk (detectSections img) (detectTextRegions img) imageAreas
       (Some (detectGridStructure (detectTextRegions img)))
       (Some (detectMargins img)))
    (Detected (detectDesignElements img)).


(** The mean of a list of integers. *)
Definition average (l : list Z) : Q :=
  (inject_Z (sum l) / inject_Z (Z.of_nat (List.length l)))%Q.

(** The left edges of the blocks, each rounded to the nearest 10. *)
Definition roundedLefts (textBlocks : list Region.t) : list Z :=
  map (fun b => round10 (Region.x b)) textBlocks.

(** The top edges of the blocks in ascending order. *)
Definition sortedTops (textBlocks : list Region.t) : list Z :=
  JS.sort_by (fun a b => a - b) (map Region.y textBlocks).

(** Two merged blocks, the cells at (0,0) and (40,100): 70 pixels apart
    vertically, so not adjacent and never merged. *)
Definition twoBlocks : list Region.t :=
  [Region.mk 0 0 20 20 1; Region.mk 40 100 20 20 1].


(** [start, start + len) is a maximal run of dark pixels of row [y]. *)
Definition dark_run (img : ImageData) (y start len : Z) : Prop :=
  0 <= start /\ 0 < len /\ start + len <= width img /\
  (forall x, start <= x < start + len -> dark img x y = true) /\
  (start = 0 \/ dark img (start - 1) y = false) /\
  (start + len = width img \/ dark img (start + len) y = false).

(** One row of ten black pixels. *)
Definition blackRow : ImageData := solid 10 1 0 0 0 255.



(** White everywhere but for the rows [y0 <= y < y1], which are black. *)
Definition banded (w h y0 y1 : Z) : ImageData :=
  mkImageData w h
    (flat_map
       (fun y =>
          List.concat
            (repeat
               (if (y0 <=? y) && (y <? y1)
                then px 0 0 0 255 else px 255 255 255 255)
               (Z.to_nat w)))
       (JS.for_range 0 h 1)).



(** The pixels alternate between opaque black and opaque white in both
    directions, the top-left one black. *)
Definition checkered (img : ImageData) : Prop :=
  forall x y,
    0 <= x < width img -> 0 <= y < height img ->
    let c := if Z.even (x + y) then 0 else 255 in
    pixel_is img (y * width img + x) c c c 255.

Definition checkeredb (img : ImageData) : bool :=
  forallb
    (fun y =>
       forallb
         (fun x =>
            let c := if Z.even (x + y) then 0 else 255 in
            let p := y * width img + x in
            (data_at (data img) (4 * p) =? c)
            && (data_at (data img) (4 * p + 1) =? c)
            && (data_at (data img) (4 * p + 2) =? c)
            && (data_at (data img) (4 * p + 3) =? 255))
         (JS.for_range 0 (width img) 1))
    (JS.for_range 0 (height img) 1).

(** The counters of a cell in which every sampled pixel is an edge of
    contrast 255. *)
Definition acc_full (acc : ScoreAcc) : Prop :=
  edgeCount acc = totalPixels acc /\
  (contrastSum acc == 255 * inject_Z (totalPixels acc))%Q.



(** Every pixel has alpha below 128. *)
Definition all_transparent (img : ImageData) : Prop :=
  forall p, 0 <= p < width img * height img ->
            data_at (data img) (4 * p + 3) < 128.

(** The byte offsets of the pixels the palette samples. *)
Definition sampleOffsets (d : list Z) : list Z :=
  JS.for_range 0 (data_length d) (4 * sampleRate).

(** The sampled offsets whose pixel is counted (alpha at least 128). *)
Definition opaqueSamples (d : list Z) : list Z :=
  filter (fun i => negb (data_at d (i + 3) <? 128)) (sampleOffsets d).

(** Two images of the same size agree on every tenth pixel (row major),
    the pixels the palette samples. *)
Definition same_samples (img img' : ImageData) : Prop :=
  data_length (data img) = data_length (data img') /\
  forall i k, 0 <= i -> i mod (4 * sampleRate) = 0 -> 0 <= k < 4 ->
              data_at (data img) (i + k) = data_at (data img') (i + k).


Definition same_samplesb (img img' : ImageData) : bool :=
  (data_length (data img) =? data_length (data img'))
  && forallb
       (fun i =>
          forallb
            (fun k => data_at (data img) (i + k) =? data_at (data img') (i + k))
            [0; 1; 2; 3])
       (sampleOffsets (data img)).

(** [tieImage] with other colours, some of them transparent, at the nine
    pixels the palette does not sample. *)
Definition tieImage' : ImageData :=
  mkImageData 11 1
    (px 255 0 0 255 ++ List.concat (repeat (px 1 2 3 4) 9)
     ++ px 0 0 255 255).

(** The lowercase hexadecimal digit of a value below 16. *)
Definition hexDigit (n : Z) : ascii :=
  match n with
  | 0 => "0" | 1 => "1" | 2 => "2" | 3 => "3" | 4 => "4" | 5 => "5"
  | 6 => "6" | 7 => "7" | 8 => "8" | 9 => "9" | 10 => "a" | 11 => "b"
  | 12 => "c" | 13 => "d" | 14 => "e" | _ => "f"
  end%char.

(** The two hexadecimal digits of a byte. *)
Definition hexByte (v : Z) : string :=
  String (hexDigit (v / 16)) (String (hexDigit (v mod 16)) EmptyString).

(** The digit of [Hexadecimal.uint] for a value below 16. *)
Definition hexCons (n : Z) (u : Hexadecimal.uint) : Hexadecimal.uint :=
  match n with
  | 0 => Hexadecimal.D0 u | 1 => Hexadecimal.D1 u | 2 => Hexadecimal.D2 u
  | 3 => Hexadecimal.D3 u | 4 => Hexadecimal.D4 u | 5 => Hexadecimal.D5 u
  | 6 => Hexadecimal.D6 u | 7 => Hexadecimal.D7 u | 8 => Hexadecimal.D8 u
  | 9 => Hexadecimal.D9 u | 10 => Hexadecimal.Da u | 11 => Hexadecimal.Db u
  | 12 => Hexadecimal.Dc u | 13 => Hexadecimal.Dd u | 14 => Hexadecimal.De u
  | _ => Hexadecimal.Df u
  end.


(** [b] is the box of a group of [regions] that holds [r]. *)
Definition covers (regions : list Region.t) (b r : Region.t) : Prop :=
  exists seed rest,
    b = calculateBoundingBox seed rest /\ In r (seed :: rest) /\
    incl (seed :: rest) regions.

(** What [used] and the groups satisfy at every point of the outer loop
    of [mergeTextRegions]: an index is marked used only when its region is
    in a group already pushed. *)
Definition placed (regions : list Region.t)
    (st : list Region.t * list nat) : Prop :=
  forall j, In j (snd st) ->
            exists rj b, nth_error regions j = Some rj /\
                         In b (fst st) /\ covers regions b rj.

(** [r] lies inside [b]. *)
Definition inside (r b : Region.t) : Prop :=
  Region.x b <= Region.x r /\ Region.y b <= Region.y r /\
  Region.x r + Region.width r <= Region.x b + Region.width b /\
  Region.y r + Region.height r <= Region.y b + Region.height b.

(** Two raw regions more than two cells apart. *)
Definition apartRegions : list Region.t :=
  [Region.mk 0 0 blockSize blockSize 0.5;
   Region.mk 60 0 blockSize blockSize 0.4].

(** Three raw regions in a row, neighbours adjacent, the ends not. *)
Definition chainRegions : list Region.t :=
  [Region.mk 0 0 blockSize blockSize 0.5;
   Region.mk 40 0 blockSize blockSize 0.4;
   Region.mk 80 0 blockSize blockSize 0.6].






(** The section pushed for the rows [y .. y + h - 1]. *)
Definition section_of (img : ImageData) (y h : Z) : Sec.t :=
  Sec.mk "content" 0 y (width img) h.

(** Rows [y .. y + h - 1] are a maximal run of rows that have content. *)
Definition content_run (img : ImageData) (y h : Z) : Prop :=
  0 <= y /\ 0 < h /\ y + h <= height img /\
  (forall z, y <= z < y + h -> hasContent img z = true) /\
  (y = 0 \/ hasContent img (y - 1) = false) /\
  (y + h = height img \/ hasContent img (y + h) = false).

(** What the boundary loop of [detectSections] has established when it
    reaches row [k]: an open section is the run of content rows that ends
    at row [k - 1], and the sections pushed are the runs that ended before
    and are taller than 5% of the image. *)
Definition scan_inv (img : ImageData) (k : Z) (st : SectionScan) : Prop :=
  (inSection st = true ->
   0 <= sectionStart st < k /\
   (forall z, sectionStart st <= z < k -> hasContent img z = true) /\
   (sectionStart st = 0 \/ hasContent img (sectionStart st - 1) = false)) /\
  (inSection st = false -> k = 0 \/ hasContent img (k - 1) = false) /\
  (forall s, In s (sections st) <->
             exists y h, s = section_of img y h /\ content_run img y h /\
                         y + h < k /\ height img < 20 * h).





(** [file.size] next to the file: what [isValidTemplateFile] of the
    upload handler reads. *)
Record Upload : Type := mkUpload {
  uploaded : File;
  size : Z
}.

Definition maxSize : Z := 10 * 1024 * 1024.

(** [isValidTemplateFile(file)] of the application:
    [validTypes.includes(file.type) && file.size <= maxSize]. *)
Definition isValidTemplateFile (u : Upload) : bool :=
  existsb (String.eqb (type (uploaded u))) validTypes && (size u <=? maxSize).

(** The states of the analyzer an application can bring about: the
    object of the constructor, and what [analyzeTemplate] and [reset]
    leave. *)
Inductive reachable : Results.t -> Prop :=
  | reach_new : reachable initialResults
  | reach_analyze (file : File) (st : Results.t) :
      reachable st -> reachable (snd (analyzeTemplate file st))
  | reach_reset (st : Results.t) : reachable st -> reachable (reset st).

(** A PNG upload of four black pixels, 1 kB. *)
Definition pngUpload : Upload := mkUpload pngFile 1024.


(** The bucket of the pixel at offset [i] of the buffer: the floor of
    each channel to a multiple of 20. *)
Definition bucket (d : list Z) (i : Z) : Z * Z * Z :=
  (quantize (data_at d i), quantize (data_at d (i + 1)),
   quantize (data_at d (i + 2))).

(** The swatch [s] shows the bucket colour [c]. *)
Definition renders (s : ColorSwatch) (c : Z * Z * Z) : Prop :=
  let '(r, g, b) := c in
  rgb s = ("rgb(" ++ JS.to_string r ++ ", " ++ JS.to_string g ++ ", "
             ++ JS.to_string b ++ ")")%string /\
  hex s = ("#" ++ hexByte r ++ hexByte g ++ hexByte b)%string /\
  (0 <= r <= 240 /\ r mod 20 = 0) /\
  (0 <= g <= 240 /\ g mod 20 = 0) /\
  (0 <= b <= 240 /\ b mod 20 = 0).






(** Two images of the same size whose pixels have the same red, green
    and blue channels; the alpha channels may differ. *)
Definition same_rgb (img img' : ImageData) : Prop :=
  width img = width img' /\ height img = height img' /\
  data_length (data img) = data_length (data img') /\
  forall p k, 0 <= k < 3 ->
              data_at (data img) (p * 4 + k) = data_at (data img') (p * 4 + k).

Definition same_rgbb (img img' : ImageData) : bool :=
  (width img =? width img') && (height img =? height img')
  && (data_length (data img) =? data_length (data img'))
  && forallb
       (fun i =>
          forallb
            (fun k => data_at (data img) (i + k) =? data_at (data img') (i + k))
            [0; 1; 2])
       (JS.for_range 0 (data_length (data img)) 4).

(** [banded 4 40 10 15] with every pixel fully transparent. *)
Definition clearBand : ImageData :=
  mkImageData 4 40
    (flat_map
       (fun y =>
          List.concat
            (repeat
               (if (10 <=? y) && (y <? 15)
                then px 0 0 0 0 else px 255 255 255 0)
               4))
       (JS.for_range 0 40 1)).


(* ================================================================= *)
(** * The model on small inputs *)

Module Examples.

Example for_range_stride : JS.for_range 0 44 40 = [0; 40].
Proof. reflexivity. Qed.

Example for_range_strict_bound : JS.for_range 0 40 20 = [0; 20].
Proof. reflexivity. Qed.

Example sort_is_stable :
  JS.sort_by (fun a b : string * Z => snd b - snd a)
    [("a"%string, 1); ("b"%string, 2); ("c"%string, 1)] =
  [("b"%string, 2); ("a"%string, 1); ("c"%string, 1)].
Proof. reflexivity. Qed.

Example unique_keeps_first : JS.unique [30; 10; 30; 20; 10] = [30; 10; 20].
Proof. reflexivity. Qed.

Example round10_halves_up : round10 14 = 10 /\ round10 15 = 20.
Proof. split; reflexivity. Qed.

Example key_of_red : colorKey 255 0 0 = "240,0,0"%string.
Proof. reflexivity. Qed.

Example hex_of_red : rgbToHex 255 0 0 = "#ff0000"%string.
Proof. reflexivity. Qed.

Example hex_is_zero_padded : rgbToHex 0 0 0 = "#000000"%string.
Proof. reflexivity. Qed.

Example transparent_palette_is_empty :
  extractColorPalette (solid 3 3 10 20 30 0) = [].
Proof. reflexivity. Qed.

(** Three cells in a row, 20 pixels apart: the first absorbs the second,
    which is within the tolerance of 30, but not the third, which is
    adjacent to the second only. *)
Example merge_is_single_hop :
  mergeTextRegions
    [Region.mk 0 0 20 20 0.5; Region.mk 40 0 20 20 0.75;
     Region.mk 80 0 20 20 0.5] =
  [Region.mk 0 0 60 20 0.75; Region.mk 80 0 20 20 0.5].
Proof. reflexivity. Qed.

Example grid_of_one_block :
  detectGridStructure [Region.mk 0 0 20 20 1] = mkGrid 1 1 (mkGutters 0 0).
Proof. reflexivity. Qed.

Example margins_of_band :
  detectMargins (banded 4 40 10 15) = mkMargins 10 25 0 0.
Proof. vm_compute. reflexivity. Qed.

Example margins_of_blank :
  detectMargins (solid 4 4 255 255 255 255) = mkMargins 0 0 0 0.
Proof. vm_compute. reflexivity. Qed.

Example fonts_are_a_set :
  analyzeTextContent
    [mkItem (Some "g_d0_f1"%string); mkItem None; mkItem (Some EmptyString);
     mkItem (Some "g_d0_f2"%string); mkItem (Some "g_d0_f1"%string)] =
  ["g_d0_f1"%string; "g_d0_f2"%string].
Proof. reflexivity. Qed.

End Examples.

(* ================================================================= *)
(** * Facts about the JavaScript primitives *)

#[local] Arguments Z.mul : simpl never.
#[local] Arguments Z.add : simpl never.
#[local] Arguments Z.sub : simpl never.
#[local] Arguments Z.div : simpl never.
#[local] Arguments Z.modulo : simpl never.
#[local] Arguments Z.of_nat : simpl never.
#[local] Arguments Z.to_nat : simpl never.

Module JSFacts.
Import JS.

Lemma for_loop_enough (step : Z) (Hstep : 1 <= step) :
  forall fuel fuel' i stop,
    (Z.to_nat (stop - i) <= fuel)%nat ->
    (Z.to_nat (stop - i) <= fuel')%nat ->
    for_loop fuel i stop step = for_loop fuel' i stop step.
Proof.
  induction fuel as [|fuel IH]; intros fuel' i stop Hf Hf'.
  - assert (stop <= i) by lia.
    destruct fuel'; simpl; [reflexivity|].
    destruct (Z.ltb_spec i stop); [lia | reflexivity].
  - destruct fuel' as [|fuel'].
    + assert (stop <= i) by lia. simpl.
      destruct (Z.ltb_spec i stop); [lia | reflexivity].
    + simpl. destruct (Z.ltb_spec i stop); [|reflexivity].
      f_equal. apply IH; lia.
Qed.

(** The loop, one iteration at a time. *)
Lemma for_range_unfold (start stop step : Z) :
  1 <= step ->
  for_range start stop step =
  if start <? stop then start :: for_range (start + step) stop step else [].
Proof.
  intros Hstep. unfold for_range.
  destruct (Z.ltb_spec start stop) as [Hlt|Hge].
  - destruct (Z.to_nat (stop - start)) as [|n] eqn:E; [lia|].
    simpl. destruct (Z.ltb_spec start stop); [|lia].
    f_equal. apply for_loop_enough; lia.
  - destruct (Z.to_nat (stop - start)) as [|n] eqn:E; [reflexivity|lia].
Qed.

Lemma for_range_empty (start stop step : Z) :
  stop <= start -> for_range start stop step = [].
Proof.
  intros H. unfold for_range.
  replace (Z.to_nat (stop - start)) with O by lia. reflexivity.
Qed.

(** Induction along the iterations of a loop. *)
Lemma for_range_ind (stop step : Z) (P : Z -> list Z -> Prop) :
  1 <= step ->
  (forall i, stop <= i -> P i []) ->
  (forall i, i < stop -> P (i + step) (for_range (i + step) stop step) ->
             P i (i :: for_range (i + step) stop step)) ->
  forall start, P start (for_range start stop step).
Proof.
  intros Hstep Hnil Hcons start.
  remember (Z.to_nat (stop - start)) as n eqn:En.
  revert start En.
  induction n as [n IH] using lt_wf_ind; intros start En.
  rewrite for_range_unfold by assumption.
  destruct (Z.ltb_spec start stop).
  - apply Hcons; [assumption|].
    apply (IH (Z.to_nat (stop - (start + step)))); [lia | reflexivity].
  - apply Hnil; assumption.
Qed.

(** The indices a loop visits. *)
Lemma in_for_range (start stop step v : Z) :
  1 <= step ->
  In v (for_range start stop step) <->
  start <= v < stop /\ (v - start) mod step = 0.
Proof.
  intros Hstep. revert start.
  apply (for_range_ind stop step
           (fun start l => In v l <-> start <= v < stop /\ (v - start) mod step = 0));
    [assumption | |].
  - intros i Hi. simpl. split; [tauto | lia].
  - intros i Hi IH. simpl. rewrite IH. split.
    + intros [->|[H1 H2]].
      * rewrite Z.sub_diag, Z.mod_0_l by lia. lia.
      * split; [lia|].
        replace (v - i) with (v - (i + step) + 1 * step) by lia.
        rewrite Z.mod_add by lia. assumption.
    + intros [H1 H2].
      destruct (Z.eq_dec i v) as [->|Hne]; [left; reflexivity|right].
      assert (Hdiv : (step | v - i)) by (apply Z.mod_divide; [lia|assumption]).
      destruct Hdiv as [k Hk].
      assert (1 <= k) by nia.
      split; [nia|].
      replace (v - (i + step)) with ((k - 1) * step) by lia.
      apply Z.mod_mul. lia.
Qed.

Lemma in_for_range_1 (start stop v : Z) :
  In v (for_range start stop 1) <-> start <= v < stop.
Proof.
  rewrite in_for_range by lia. rewrite Z.mod_1_r. tauto.
Qed.

(** A unit-step loop can be cut at any point. *)
Lemma for_range_split (start mid stop : Z) :
  start <= mid <= stop ->
  for_range start stop 1 = for_range start mid 1 ++ for_range mid stop 1.
Proof.
  intros H. revert start H.
  intros start. remember (Z.to_nat (mid - start)) as n eqn:En.
  revert start En. induction n as [|n IH]; intros start En H.
  - assert (start = mid) by lia. subst.
    rewrite (for_range_empty mid mid) by lia. reflexivity.
  - rewrite (for_range_unfold start stop), (for_range_unfold start mid) by lia.
    destruct (Z.ltb_spec start stop); [|lia].
    destruct (Z.ltb_spec start mid); [|lia].
    simpl. f_equal. apply IH; lia.
Qed.

Lemma for_range_length_1 (start stop : Z) :
  start <= stop ->
  Z.of_nat (List.length (for_range start stop 1)) = stop - start.
Proof.
  revert start.
  apply (for_range_ind stop 1
           (fun start l => start <= stop -> Z.of_nat (List.length l) = stop - start));
    [lia | |].
  - intros i Hi Hle. simpl. lia.
  - intros i Hi IH _. cbn [List.length]. rewrite Nat2Z.inj_succ, IH; lia.
Qed.

(** The number of iterations of a loop. *)
Lemma for_range_length (start stop step : Z) :
  1 <= step ->
  Z.of_nat (List.length (for_range start stop step)) =
  Z.max 0 ((stop - start + step - 1) / step).
Proof.
  intros Hstep. revert start.
  apply (for_range_ind stop step
           (fun start l => Z.of_nat (List.length l) =
                           Z.max 0 ((stop - start + step - 1) / step)));
    [assumption | |].
  - intros i Hi. simpl.
    assert ((stop - i + step - 1) / step < 1)
      by (apply Z.div_lt_upper_bound; lia).
    lia.
  - intros i Hi IH. cbn [List.length]. rewrite Nat2Z.inj_succ, IH.
    replace (stop - (i + step) + step - 1) with (stop - i - 1) by lia.
    replace (stop - i + step - 1) with (stop - i - 1 + 1 * step) by lia.
    rewrite Z.div_add by lia.
    assert (0 <= (stop - i - 1) / step) by (apply Z.div_pos; lia).
    lia.
Qed.

End JSFacts.

Module SortFacts.
Import JS.

Section Sorting.
Context {A : Type} (cmp : A -> A -> Z).

(** The order the comparator asks for: [x] may stand before [y]. *)
Definition before (x y : A) : Prop := cmp x y <= 0.

Hypothesis cmp_total : forall x y, before x y \/ before y x.
Hypothesis cmp_trans : forall x y z, before x y -> before y z -> before x z.

Lemma insert_by_length (x : A) (l : list A) :
  List.length (insert_by cmp x l) = S (List.length l).
Proof.
  induction l as [|y t IH]; simpl; [reflexivity|].
  destruct (cmp x y <=? 0); simpl; [reflexivity | now rewrite IH].
Qed.

Lemma sort_by_length (l : list A) :
  List.length (sort_by cmp l) = List.length l.
Proof.
  induction l as [|x t IH]; simpl; [reflexivity|].
  now rewrite insert_by_length, IH.
Qed.

Lemma insert_by_in (x y : A) (l : list A) :
  In y (insert_by cmp x l) <-> y = x \/ In y l.
Proof.
  induction l as [|z t IH]; simpl.
  - intuition congruence.
  - destruct (cmp x z <=? 0); simpl; [intuition congruence|].
    rewrite IH. intuition congruence.
Qed.

Lemma sort_by_in (y : A) (l : list A) :
  In y (sort_by cmp l) <-> In y l.
Proof.
  induction l as [|x t IH]; simpl; [tauto|].
  rewrite insert_by_in, IH. intuition congruence.
Qed.

Lemma insert_by_hdrel (a x : A) (l : list A) :
  before a x -> HdRel before a l -> HdRel before a (insert_by cmp x l).
Proof.
  intros Hax Hal. destruct l as [|y t]; simpl; [now constructor|].
  destruct (cmp x y <=? 0); constructor; [assumption|].
  now inversion Hal.
Qed.

Lemma insert_by_sorted (x : A) (l : list A) :
  Sorted before l -> Sorted before (insert_by cmp x l).
Proof.
  induction 1 as [|y t Ht IH Hhd]; simpl.
  - repeat constructor.
  - destruct (Z.leb_spec (cmp x y) 0) as [Hle|Hgt].
    + constructor; [now constructor | now constructor].
    + constructor; [assumption|].
      apply insert_by_hdrel; [|assumption].
      destruct (cmp_total y x) as [H|H]; [assumption|].
      unfold before in H. lia.
Qed.

Lemma sort_by_sorted (l : list A) : Sorted before (sort_by cmp l).
Proof.
  induction l as [|x t IH]; simpl; [constructor | now apply insert_by_sorted].
Qed.

Lemma sort_by_strongly_sorted (l : list A) :
  StronglySorted before (sort_by cmp l).
Proof.
  apply Sorted_StronglySorted; [|apply sort_by_sorted].
  intros x y z. apply cmp_trans.
Qed.
End Sorting.

Lemma strongly_sorted_firstn {A : Type} (R : A -> A -> Prop) (n : nat)
    (l : list A) :
  StronglySorted R l -> StronglySorted R (firstn n l).
Proof.
  intros H. revert n. induction H as [|a l Hl IH Ha]; intros [|n]; simpl;
    try constructor.
  - apply IH.
  - rewrite Forall_forall in *. intros x Hx. apply Ha.
    revert Hx. clear. revert n. induction l as [|b l IH]; intros [|n]; simpl;
      try tauto.
    intros [->|H]; [now left | right; eauto].
Qed.

Lemma strongly_sorted_map {A B : Type} (R : A -> A -> Prop)
    (S : B -> B -> Prop) (f : A -> B) (l : list A) :
  (forall x y, R x y -> S (f x) (f y)) ->
  StronglySorted R l -> StronglySorted S (map f l).
Proof.
  intros Hf. induction 1 as [|a l Hl IH Ha]; simpl; constructor.
  - assumption.
  - rewrite Forall_forall in *. intros y Hy.
    apply in_map_iff in Hy. destruct Hy as [x [<- Hx]]. auto.
Qed.

(** A sorted list of integers is left as it is. *)
Lemma sort_by_id (l : list Z) :
  Sorted Z.le l -> sort_by (fun a b => a - b) l = l.
Proof.
  induction 1 as [|a l Hl IH Ha]; simpl; [reflexivity|].
  rewrite IH. destruct Ha as [|b t Hab]; simpl; [reflexivity|].
  destruct (Z.leb_spec (a - b) 0); [reflexivity | lia].
Qed.

End SortFacts.

(* ================================================================= *)
(** * Images *)

Module ImageFacts.

Lemma wf_imageb_sound (img : ImageData) :
  wf_imageb img = true -> wf_image img.
Proof.
  unfold wf_imageb, wf_image. rewrite !andb_true_iff.
  intros [[[Hw Hh] Hlen] Hbytes].
  repeat split; try lia.
  rewrite Forall_forall. rewrite forallb_forall in Hbytes.
  intros v Hv. specialize (Hbytes v Hv). lia.
Qed.

Lemma all_opaqueb_sound (img : ImageData) :
  all_opaqueb img = true -> all_opaque img.
Proof.
  unfold all_opaqueb, all_opaque. rewrite forallb_forall.
  intros H p Hp. specialize (H p). rewrite JSFacts.in_for_range_1 in H.
  specialize (H Hp). lia.
Qed.

Lemma uniform_opaque (img : ImageData) (r g b a : Z) :
  128 <= a -> uniform img r g b a -> all_opaque img.
Proof.
  intros Ha H p Hp. destruct (H p Hp) as (_ & _ & _ & ->). assumption.
Qed.

Lemma concat_repeat_px_length (r g b a : Z) (n : nat) :
  List.length (List.concat (repeat (px r g b a) n)) = (4 * n)%nat.
Proof.
  induction n as [|n IH]; simpl; [reflexivity|]. rewrite IH. lia.
Qed.

Lemma concat_repeat_px_nth (r g b a : Z) (n k : nat) :
  (k < n)%nat ->
  let d := List.concat (repeat (px r g b a) n) in
  nth (4 * k) d 0 = r /\ nth (4 * k + 1) d 0 = g /\
  nth (4 * k + 2) d 0 = b /\ nth (4 * k + 3) d 0 = a.
Proof.
  revert k. induction n as [|n IH]; intros k Hk; [lia|].
  destruct k as [|k].
  - simpl. auto.
  - replace (4 * S k)%nat with (S (S (S (S (4 * k))))) by lia.
    cbn [repeat List.concat px app nth Nat.add].
    apply IH. lia.
Qed.

(** [solid] builds well-formed uniform images. *)
Lemma solid_wf (w h r g b a : Z) :
  0 < w -> 0 < h -> 0 <= r <= 255 -> 0 <= g <= 255 -> 0 <= b <= 255 ->
  0 <= a <= 255 -> wf_image (solid w h r g b a).
Proof.
  intros Hw Hh Hr Hg Hb Ha. unfold wf_image, solid, data_length.
  cbn [width height data].
  repeat split; try assumption.
  - rewrite concat_repeat_px_length. assert (0 <= w * h) by nia. lia.
  - rewrite Forall_forall. intros v Hv.
    apply in_concat in Hv. destruct Hv as [l [Hl Hv]].
    apply repeat_spec in Hl. subst l. simpl in Hv.
    intuition (subst; assumption).
Qed.

Lemma solid_uniform (w h r g b a : Z) : uniform (solid w h r g b a) r g b a.
Proof.
  intros p Hp. unfold pixel_is, solid, data_at in *; simpl in *.
  pose proof (concat_repeat_px_nth r g b a (Z.to_nat (w * h)) (Z.to_nat p)) as H.
  replace (Z.to_nat (4 * p)) with (4 * Z.to_nat p)%nat by lia.
  replace (Z.to_nat (4 * p + 1)) with (4 * Z.to_nat p + 1)%nat by lia.
  replace (Z.to_nat (4 * p + 2)) with (4 * Z.to_nat p + 2)%nat by lia.
  replace (Z.to_nat (4 * p + 3)) with (4 * Z.to_nat p + 3)%nat by lia.
  apply H. lia.
Qed.

End ImageFacts.

(* ================================================================= *)
(** * Colour palette *)

Module PaletteFacts.
Import JS.

(** ** Keys: rendering and decoding *)

Lemma append_nil_r (s : string) : (s ++ EmptyString)%string = s.
Proof. induction s as [|c s IH]; simpl; [reflexivity | now rewrite IH]. Qed.

Lemma append_assoc (s t u : string) :
  ((s ++ t) ++ u)%string = (s ++ (t ++ u))%string.
Proof. induction s as [|c s IH]; simpl; [reflexivity | now rewrite IH]. Qed.

Lemma split_on_sep (s cur rest : string) :
  comma_free s = true ->
  split_on "," cur (s ++ String "," rest) =
  (cur ++ s)%string :: split_on "," EmptyString rest.
Proof.
  revert cur. induction s as [|c s IH]; intros cur Hs; simpl in *.
  - now rewrite append_nil_r.
  - apply andb_true_iff in Hs. destruct Hs as [Hc Hs].
    destruct (Ascii.eqb c ","); [discriminate|].
    rewrite IH by assumption. rewrite append_assoc. reflexivity.
Qed.

Lemma split_on_last (s cur : string) :
  comma_free s = true -> split_on "," cur s = [(cur ++ s)%string].
Proof.
  revert cur. induction s as [|c s IH]; intros cur Hs; simpl in *.
  - now rewrite append_nil_r.
  - apply andb_true_iff in Hs. destruct Hs as [Hc Hs].
    destruct (Ascii.eqb c ","); [discriminate|].
    rewrite IH by assumption. rewrite append_assoc. reflexivity.
Qed.

Lemma comma_free_digits (d : Decimal.uint) :
  comma_free (DecimalString.NilEmpty.string_of_uint d) = true.
Proof. induction d; simpl; auto. Qed.

Lemma comma_free_to_string (n : Z) : comma_free (to_string n) = true.
Proof.
  unfold to_string.
  assert (H : forall d, comma_free (DecimalString.NilZero.string_of_uint d) = true).
  { intros d. destruct d; try reflexivity;
      apply (comma_free_digits (_ d)) || idtac; simpl; apply comma_free_digits. }
  destruct n; simpl; auto.
Qed.

(** Parsing what was rendered gives the number back. *)
Lemma Number_to_string (n : Z) : Number (to_string n) = Some n.
Proof.
  unfold Number, to_string.
  rewrite DecimalString.NilZero.isi.
  - simpl. now rewrite DecimalZ.of_to.
  - destruct n; simpl; try discriminate.
    intros H. injection H. apply DecimalPos.Unsigned.to_uint_nonnil.
  - destruct n; simpl; try discriminate.
    intros H. injection H. apply DecimalPos.Unsigned.to_uint_nonnil.
Qed.

(** The quantize-then-reconstruct path: the key of a colour decodes to
    the three bucket floors. *)
Lemma decodeKey_colorKey (r g b : Z) :
  decodeKey (colorKey r g b) = Some (quantize r, quantize g, quantize b).
Proof.
  unfold decodeKey, colorKey, split_comma.
  change ("," ++ ?s)%string with (String "," s).
  rewrite split_on_sep by apply comma_free_to_string.
  change ("," ++ ?s)%string with (String "," s).
  rewrite split_on_sep by apply comma_free_to_string.
  rewrite split_on_last by apply comma_free_to_string.
  simpl. now rewrite !Number_to_string.
Qed.

(** ** Counting *)

Lemma map_set_not_nil (m : Map) (k : string) (v : Z) : map_set m k v <> [].
Proof.
  destruct m as [|[k' v'] t]; simpl; [discriminate|].
  destruct (String.eqb k' k); discriminate.
Qed.

Lemma palette_step_not_nil (d : list Z) (m : Map) (i : Z) :
  m <> [] -> palette_step d m i <> [].
Proof.
  intros Hm. unfold palette_step.
  destruct (data_at d (i + 3) <? 128); [assumption | apply map_set_not_nil].
Qed.

Lemma fold_palette_not_nil (d : list Z) (l : list Z) (m : Map) :
  m <> [] -> fold_left (palette_step d) l m <> [].
Proof.
  revert m. induction l as [|i l IH]; intros m Hm; simpl; [assumption|].
  apply IH. now apply palette_step_not_nil.
Qed.

Lemma colorCounts_not_nil (img : ImageData) :
  wf_image img -> all_opaque img -> colorCounts (data img) <> [].
Proof.
  intros (Hw & Hh & Hlen & _) Hop. unfold colorCounts.
  rewrite JSFacts.for_range_unfold by (unfold sampleRate; lia).
  destruct (Z.ltb_spec 0 (data_length (data img))) as [_|Hle]; [|nia].
  simpl. apply fold_palette_not_nil.
  unfold palette_step.
  specialize (Hop 0). replace (4 * 0 + 3) with (0 + 3) in Hop by lia.
  destruct (Z.ltb_spec (data_at (data img) (0 + 3)) 128) as [Hlt|_].
  - assert (128 <= data_at (data img) (0 + 3)) by (apply Hop; nia). lia.
  - apply map_set_not_nil.
Qed.

Lemma frequency_swatch_of_entry (e : string * Z) :
  frequency (swatch_of_entry e) = snd e.
Proof.
  unfold swatch_of_entry. destruct (decodeKey (fst e)) as [[[r g] b]|];
    reflexivity.
Qed.

Lemma palette_length (img : ImageData) :
  List.length (extractColorPalette img) =
  Nat.min 8 (List.length (colorCounts (data img))).
Proof.
  unfold extractColorPalette.
  now rewrite length_map, length_firstn, SortFacts.sort_by_length.
Qed.

Lemma palette_descending (img : ImageData) :
  StronglySorted (fun a b => frequency b <= frequency a)
    (extractColorPalette img).
Proof.
  unfold extractColorPalette.
  apply SortFacts.strongly_sorted_map
    with (R := SortFacts.before (fun a b : string * Z => snd b - snd a)).
  - intros x y H. rewrite !frequency_swatch_of_entry.
    unfold SortFacts.before in H. lia.
  - apply SortFacts.strongly_sorted_firstn.
    apply SortFacts.sort_by_strongly_sorted; unfold SortFacts.before; intros; lia.
Qed.

(** ** A buffer of one colour *)

Lemma palette_step_uniform (img : ImageData) (r g b a : Z) (m : Map) (i : Z) :
  uniform img r g b a -> 128 <= a ->
  0 <= i < 4 * (width img * height img) -> i mod 4 = 0 ->
  palette_step (data img) m i =
  map_set m (colorKey r g b) (or_zero (map_get m (colorKey r g b)) + 1).
Proof.
  intros Hu Ha Hi Hmod. unfold palette_step.
  assert (Hp : i = 4 * (i / 4)) by (apply Z.div_exact; lia).
  destruct (Hu (i / 4)) as (Hr & Hg & Hb & Hal); [lia|].
  unfold pixel_is in *. rewrite <- Hp in Hr, Hg, Hb, Hal.
  rewrite Hr, Hg, Hb, Hal.
  destruct (Z.ltb_spec a 128); [lia | reflexivity].
Qed.

Lemma fold_palette_uniform (img : ImageData) (r g b a : Z) :
  uniform img r g b a -> 128 <= a ->
  forall (l : list Z) (c : Z),
    (forall i, In i l -> 0 <= i < 4 * (width img * height img) /\ i mod 4 = 0) ->
    fold_left (palette_step (data img)) l [(colorKey r g b, c)] =
    [(colorKey r g b, c + Z.of_nat (List.length l))].
Proof.
  intros Hu Ha. induction l as [|i l IH]; intros c Hl.
  - simpl. f_equal. f_equal. lia.
  - cbn [fold_left List.length].
    rewrite (palette_step_uniform img r g b a) by
      (try assumption; apply Hl; now left).
    cbn [map_get map_set]. rewrite String.eqb_refl. cbn [or_zero].
    rewrite IH by (intros j Hj; apply Hl; now right).
    f_equal. f_equal. lia.
Qed.

(** The number of pixels the palette samples. *)
Lemma sample_count (n : Z) :
  0 <= n ->
  Z.of_nat (List.length (for_range 0 (4 * n) (4 * sampleRate))) = (n + 9) / 10.
Proof.
  intros Hn. unfold sampleRate.
  change (4 * 10) with 40.
  rewrite JSFacts.for_range_length by lia. rewrite Z.sub_0_r.
  replace (4 * n + 40 - 1) with (4 * n + 39) by lia.
  replace (4 * n + 39) with (4 * (n + 9) + 3) by lia.
  assert ((4 * (n + 9) + 3) / 40 = (n + 9) / 10).
  { replace 40 with (4 * 10) by lia. rewrite <- Z.div_div by lia.
    f_equal. rewrite Z.mul_comm, Z.div_add_l by lia.
    rewrite (Z.div_small 3 4) by lia. lia. }
  assert (0 <= (n + 9) / 10) by (apply Z.div_pos; lia).
  lia.
Qed.

End PaletteFacts.

(** ** The palette of an opaque buffer *)

(** C2, as amended: for every well-formed buffer in which every pixel
    has alpha at least 128, [extractColorPalette] returns a non-empty
    palette of at most 8 swatches whose frequencies never increase along
    the list (equal frequencies may follow one another). *)
Theorem palette_nonempty_capped_sorted (img : ImageData) :
  wf_image img -> all_opaque img ->
  extractColorPalette img <> [] /\
  (List.length (extractColorPalette img) <= 8)%nat /\
  StronglySorted (fun a b => frequency b <= frequency a)
    (extractColorPalette img).
Proof.
  intros Hwf Hop. split; [|split].
  - pose proof (PaletteFacts.colorCounts_not_nil img Hwf Hop) as Hne.
    pose proof (PaletteFacts.palette_length img) as Hlen.
    intros Hnil. rewrite Hnil in Hlen. simpl in Hlen.
    destruct (colorCounts (data img)); [congruence | simpl in Hlen; lia].
  - rewrite PaletteFacts.palette_length. lia.
  - apply PaletteFacts.palette_descending.
Qed.

Lemma palette_nonempty_capped_sorted_witness :
  extractColorPalette tieImage <> [] /\
  (List.length (extractColorPalette tieImage) <= 8)%nat /\
  StronglySorted (fun a b => frequency b <= frequency a)
    (extractColorPalette tieImage).
Proof.
  apply (palette_nonempty_capped_sorted tieImage).
  - apply ImageFacts.wf_imageb_sound. vm_compute. reflexivity.
  - apply ImageFacts.all_opaqueb_sound. vm_compute. reflexivity.
Defined.

(** C2 as stated fails: [tieImage] is well formed and opaque, and its
    palette holds two swatches of frequency 1, so the frequencies are
    not strictly descending. *)
Lemma palette_tie_not_strict :
  wf_image tieImage /\ all_opaque tieImage /\
  ~ StronglySorted (fun a b => frequency b < frequency a)
      (extractColorPalette tieImage).
Proof.
  split; [apply ImageFacts.wf_imageb_sound; vm_compute; reflexivity|].
  split; [apply ImageFacts.all_opaqueb_sound; vm_compute; reflexivity|].
  intros H.
  assert (E : map frequency (extractColorPalette tieImage) = [1; 1])
    by (vm_compute; reflexivity).
  destruct (extractColorPalette tieImage) as [|s1 [|s2 t]];
    try discriminate E.
  injection E as E1 E2 _.
  apply StronglySorted_inv in H. destruct H as [_ H].
  apply Forall_inv in H. lia.
Qed.

(** ** The palette of a pure red buffer *)

(** C3, as amended: for a well-formed buffer of pure red (255,0,0)
    opaque pixels the palette is the single swatch of the bucket floor
    (240,0,0), rendered [rgb(240, 0, 0)] and [#f00000], counted once per
    sampled pixel; and for every colour the key decodes to the three
    bucket floors [Math.floor(c / 20) * 20]. *)
Theorem red_palette_is_bucket_floor (img : ImageData) :
  wf_image img -> uniform img 255 0 0 255 ->
  extractColorPalette img =
    [mkSwatch "rgb(240, 0, 0)" "#f00000"
       ((width img * height img + 9) / 10)] /\
  (forall r g b,
      decodeKey (colorKey r g b) = Some (quantize r, quantize g, quantize b)).
Proof.
  intros Hwf Hu. split; [|apply PaletteFacts.decodeKey_colorKey].
  destruct Hwf as (Hw & Hh & Hlen & _).
  assert (Hn : 0 < width img * height img) by nia.
  assert (Hc : colorCounts (data img) =
               [(colorKey 255 0 0, (width img * height img + 9) / 10)]).
  { unfold colorCounts. rewrite Hlen.
    rewrite <- (PaletteFacts.sample_count (width img * height img)) by lia.
    assert (Hin : forall i,
               In i (JS.for_range 0 (4 * (width img * height img)) (4 * sampleRate)) ->
               0 <= i < 4 * (width img * height img) /\ i mod 4 = 0).
    { intros i Hi. apply JSFacts.in_for_range in Hi; [|unfold sampleRate; lia].
      destruct Hi as [Hi Hm]. split; [lia|]. unfold sampleRate in Hm.
      rewrite Z.sub_0_r in Hm.
      apply Z.mod_divide in Hm; [|lia]. destruct Hm as [k ->].
      replace (k * (4 * 10)) with (k * 10 * 4) by lia. apply Z.mod_mul. lia. }
    destruct (JS.for_range 0 (4 * (width img * height img)) (4 * sampleRate))
      as [|i l] eqn:E.
    - rewrite JSFacts.for_range_unfold in E by (unfold sampleRate; lia).
      destruct (Z.ltb_spec 0 (4 * (width img * height img)));
        [discriminate | lia].
    - cbn [fold_left].
      rewrite (PaletteFacts.palette_step_uniform img 255 0 0 255)
        by (try assumption; try lia; apply Hin; now left).
      cbn [JS.map_get JS.map_set JS.or_zero].
      rewrite (PaletteFacts.fold_palette_uniform img 255 0 0 255)
        by (try assumption; try lia; intros j Hj; apply Hin; now right).
      cbn [List.length]. f_equal. f_equal. lia. }
  unfold extractColorPalette. rewrite Hc.
  cbn [JS.sort_by JS.insert_by firstn map].
  unfold swatch_of_entry. cbn [fst snd].
  rewrite PaletteFacts.decodeKey_colorKey.
  generalize ((width img * height img + 9) / 10). intros n.
  vm_compute. reflexivity.
Qed.

Lemma red_palette_is_bucket_floor_witness :
  extractColorPalette redPixel = [mkSwatch "rgb(240, 0, 0)" "#f00000" 1] /\
  (forall r g b,
      decodeKey (colorKey r g b) = Some (quantize r, quantize g, quantize b)).
Proof.
  apply (red_palette_is_bucket_floor redPixel).
  - apply ImageFacts.solid_wf; lia.
  - apply ImageFacts.solid_uniform.
Defined.

(** C3 as stated fails: the buffer of one pure red opaque pixel is well
    formed, and the hex string of its top swatch is [#f00000], not
    [#ff0000]. *)
Lemma red_hex_is_not_ff0000 :
  wf_image redPixel /\ uniform redPixel 255 0 0 255 /\
  hd_error (map hex (extractColorPalette redPixel)) = Some "#f00000"%string /\
  hd_error (map hex (extractColorPalette redPixel)) <> Some "#ff0000"%string.
Proof.
  split; [apply ImageFacts.solid_wf; lia|].
  split; [apply ImageFacts.solid_uniform|].
  split; [vm_compute; reflexivity|].
  vm_compute. discriminate.
Qed.

(* ================================================================= *)
(** * Text regions *)

Module ListFacts.

Lemma fold_left_invariant {A B : Type} (f : A -> B -> A) (P : A -> Prop)
    (l : list B) :
  (forall a i, In i l -> P a -> P (f a i)) ->
  forall a, P a -> P (fold_left f l a).
Proof.
  induction l as [|i l IH]; intros Hf a Ha; simpl; [assumption|].
  apply IH.
  - intros a' j Hj. apply Hf. now right.
  - apply Hf; [now left | assumption].
Qed.

Lemma fold_left_count {A B : Type} (f : A -> B -> A) (m : A -> Z) (c : Z)
    (l : list B) :
  (forall a i, In i l -> m (f a i) = m a + c) ->
  forall a, m (fold_left f l a) = m a + c * Z.of_nat (List.length l).
Proof.
  induction l as [|i l IH]; intros Hf a.
  - simpl. lia.
  - cbn [fold_left List.length]. rewrite IH by (intros; apply Hf; now right).
    rewrite Hf by now left. lia.
Qed.

End ListFacts.

Module NumFacts.

Lemma gt_true (a b : Q) : JS.gt a b = true <-> (b < a)%Q.
Proof.
  unfold JS.gt. rewrite Qgt_alt. destruct (a ?= b)%Q; split; congruence.
Qed.

Lemma gt_false (a b : Q) : JS.gt a b = false <-> (a <= b)%Q.
Proof.
  unfold JS.gt. rewrite Qle_alt. destruct (a ?= b)%Q; split; congruence.
Qed.

Lemma lt_true (a b : Q) : JS.lt a b = true <-> (a < b)%Q.
Proof. unfold JS.lt. apply gt_true. Qed.


(** [Math.max] returns one of its arguments. *)
Lemma Qmax_cases (a b : Q) : Qmax a b = a \/ Qmax a b = b.
Proof.
  unfold Qmax, GenericMinMax.gmax. destruct (a ?= b)%Q; auto.
Qed.

Lemma fold_Qmax_in (l : list Q) (a : Q) : In (fold_left Qmax l a) (a :: l).
Proof.
  revert a. induction l as [|b l IH]; intros a; simpl; [now left|].
  destruct (IH (Qmax a b)) as [H|H].
  - destruct (Qmax_cases a b) as [E|E]; rewrite E in *; auto.
  - auto.
Qed.

Lemma fold_Qmax_ge_init (l : list Q) (a : Q) : (a <= fold_left Qmax l a)%Q.
Proof.
  revert a. induction l as [|b l IH]; intros a; simpl; [apply Qle_refl|].
  eapply Qle_trans; [apply (Q.le_max_l a b) | apply IH].
Qed.

Lemma fold_Qmax_ge (l : list Q) (a x : Q) :
  In x (a :: l) -> (x <= fold_left Qmax l a)%Q.
Proof.
  revert a. induction l as [|b l IH]; intros a [->|H]; simpl.
  - apply Qle_refl.
  - destruct H.
  - eapply Qle_trans; [apply (Q.le_max_l x b) | apply fold_Qmax_ge_init].
  - destruct H as [->|H].
    + eapply Qle_trans; [apply (Q.le_max_r a x) | apply fold_Qmax_ge_init].
    + apply IH. now right.
Qed.

End NumFacts.

Module TextFacts.

(** ** The cells that are scored *)

Lemma in_candidateCells (w h x y : Z) :
  In (x, y) (candidateCells w h) <->
  (0 <= x < w - blockSize /\ x mod blockSize = 0) /\
  (0 <= y < h - blockSize /\ y mod blockSize = 0).
Proof.
  unfold candidateCells. rewrite in_flat_map. split.
  - intros [y' [Hy Hx]]. apply in_map_iff in Hx.
    destruct Hx as [x' [E Hx]]. injection E as -> ->.
    apply JSFacts.in_for_range in Hx, Hy; try (unfold blockSize; lia).
    rewrite Z.sub_0_r in Hx, Hy. tauto.
  - intros [Hx Hy]. exists y. split.
    + apply JSFacts.in_for_range; [unfold blockSize; lia|].
      now rewrite Z.sub_0_r.
    + apply in_map_iff. exists x. split; [reflexivity|].
      apply JSFacts.in_for_range; [unfold blockSize; lia|].
      now rewrite Z.sub_0_r.
Qed.

Lemma candidateCells_small (w h : Z) :
  w <= blockSize \/ h <= blockSize -> candidateCells w h = [].
Proof.
  intros H. unfold candidateCells.
  destruct (Z.le_gt_cases h blockSize) as [Hh|Hh].
  - rewrite (JSFacts.for_range_empty 0 (h - blockSize)) by lia. reflexivity.
  - destruct H as [Hw|Hh']; [|lia].
    rewrite (JSFacts.for_range_empty 0 (w - blockSize)) by lia.
    induction (JS.for_range 0 (h - blockSize) blockSize); simpl; auto.
Qed.

(** ** The counters of [calculateTextScore] *)




(** Within a cell that fits the image the bounds check never skips. *)
Lemma sample_in_range (d : list Z) (x y size w h dx dy : Z) :
  data_length d = 4 * (w * h) ->
  0 <= x -> x + size <= w -> 0 <= y -> y + size <= h ->
  0 <= dx < size - 1 -> 0 <= dy < size - 1 ->
  let idx := ((y + dy) * w + (x + dx)) * 4 in
  let nextIdx := ((y + dy) * w + (x + dx + 1)) * 4 in
  let belowIdx := ((y + dy + 1) * w + (x + dx)) * 4 in
  (idx >=? data_length d) || (nextIdx >=? data_length d)
  || (belowIdx >=? data_length d) = false.
Proof.
  intros Hlen Hx Hxw Hy Hyh Hdx Hdy idx nextIdx belowIdx.
  assert (H1 : (y + dy) * w + (x + dx + 1) < w * h) by nia.
  assert (H2 : (y + dy + 1) * w + (x + dx) < w * h) by nia.
  rewrite !orb_false_iff. unfold idx, nextIdx, belowIdx. rewrite Hlen.
  repeat split; rewrite Z.geb_leb; apply Z.leb_gt; lia.
Qed.

Lemma totalPixels_in_bounds (d : list Z) (x y size w h : Z) :
  data_length d = 4 * (w * h) -> 1 <= size ->
  0 <= x -> x + size <= w -> 0 <= y -> y + size <= h ->
  totalPixels (score_counters d x y size w) = (size - 1) * (size - 1).
Proof.
  intros Hlen Hs Hx Hxw Hy Hyh. unfold score_counters.
  rewrite (ListFacts.fold_left_count _ totalPixels (size - 1)).
  - rewrite JSFacts.for_range_length_1 by lia. cbn [totalPixels]. lia.
  - intros acc dy Hdy. apply JSFacts.in_for_range_1 in Hdy.
    unfold score_row.
    rewrite (ListFacts.fold_left_count _ totalPixels 1).
    + rewrite JSFacts.for_range_length_1 by lia. lia.
    + intros acc' dx Hdx. apply JSFacts.in_for_range_1 in Hdx.
      unfold score_step.
      rewrite (sample_in_range d x y size w h dx dy) by assumption.
      reflexivity.
Qed.

(** The score of a cell that fits the image is a number, not [NaN]. *)
Lemma score_defined (img : ImageData) (x y : Z) :
  data_length (data img) = 4 * (width img * height img) ->
  in_bounds img x y ->
  exists s, calculateTextScore (data img) x y blockSize (width img) = Some s.
Proof.
  intros Hlen (Hx & Hxw & Hy & Hyh). unfold calculateTextScore.
  rewrite (totalPixels_in_bounds _ x y blockSize _ (height img))
    by (try assumption; unfold blockSize; lia).
  unfold blockSize. simpl. eauto.
Qed.

(** ** A cell of one colour *)

Lemma getGrayscale_uniform (img : ImageData) (r g b a p : Z) :
  uniform img r g b a -> 0 <= p < width img * height img ->
  getGrayscale (data img) (p * 4) = luminance r g b.
Proof.
  intros Hu Hp. unfold getGrayscale, luminance.
  rewrite (Z.mul_comm p 4).
  destruct (Hu p Hp) as (-> & -> & -> & _). reflexivity.
Qed.

Lemma flat_edge (l : Q) : JS.gt (Qabs (l - l)) 30 = false.
Proof.
  apply NumFacts.gt_false.
  assert (E : (l - l == 0)%Q) by ring.
  rewrite E. simpl. lra.
Qed.

Lemma score_step_uniform (img : ImageData) (r g b a x y dy dx : Z)
    (acc : ScoreAcc) :
  wf_image img -> uniform img r g b a ->
  0 <= x -> 0 <= y -> 0 <= dx -> 0 <= dy ->
  acc_flat acc ->
  acc_flat (score_step (data img) x y (width img) dy acc dx).
Proof.
  intros (Hw & Hh & Hlen & _) Hu Hx Hy Hdx Hdy [He Hc]. unfold score_step.
  destruct (_ || _ || _) eqn:G; [split; assumption|].
  rewrite !orb_false_iff, !Z.geb_leb, !Z.leb_gt, Hlen in G.
  destruct G as [[G1 G2] G3].
  rewrite !(getGrayscale_uniform img r g b a) by (try assumption; nia).
  rewrite flat_edge. split; cbn [edgeCount contrastSum orb]; [assumption|].
  rewrite Hc.
  assert (E : (luminance r g b - luminance r g b == 0)%Q) by ring.
  rewrite E. reflexivity.
Qed.

Lemma score_counters_uniform (img : ImageData) (r g b a x y : Z) :
  wf_image img -> uniform img r g b a -> 0 <= x -> 0 <= y ->
  acc_flat (score_counters (data img) x y blockSize (width img)).
Proof.
  intros Hwf Hu Hx Hy. unfold score_counters.
  apply ListFacts.fold_left_invariant.
  - intros acc dy Hdy Hacc. apply JSFacts.in_for_range_1 in Hdy.
    unfold score_row. apply ListFacts.fold_left_invariant; [|assumption].
    intros acc' dx Hdx. apply JSFacts.in_for_range_1 in Hdx.
    apply (score_step_uniform img r g b a); (assumption || lia).
  - split; simpl; [reflexivity | reflexivity].
Qed.

(** The score of a flat cell, when it is a number, is 0. *)
Lemma score_uniform (img : ImageData) (r g b a x y : Z) (s : Q) :
  wf_image img -> uniform img r g b a -> 0 <= x -> 0 <= y ->
  calculateTextScore (data img) x y blockSize (width img) = Some s ->
  (s == 0)%Q.
Proof.
  intros Hwf Hu Hx Hy. unfold calculateTextScore.
  destruct (score_counters_uniform img r g b a x y Hwf Hu Hx Hy) as [He Hc].
  destruct (_ =? 0); [discriminate|].
  intros E. injection E as <-. rewrite He, Hc.
  generalize (inject_Z (totalPixels
    (score_counters (data img) x y blockSize (width img)))).
  intros t.
  assert (E1 : (inject_Z 0 / t * 2 == 0)%Q)
    by (unfold Qdiv; change (inject_Z 0) with 0%Q; ring).
  assert (E2 : (0 / t / 100 == 0)%Q) by (unfold Qdiv; ring).
  rewrite E1, E2. reflexivity.
Qed.

(** ** Raw regions *)

Lemma in_keepRegion (x y : Z) (textScore : option Q) (r : Region.t) :
  In r (keepRegion x y textScore) ->
  exists s, textScore = Some s /\ (0.3 < s)%Q /\
            r = Region.mk x y blockSize blockSize s.
Proof.
  unfold keepRegion. destruct textScore as [s|]; [|intros []].
  destruct (JS.gt s 0.3) eqn:G; [|intros []].
  intros [<-|[]]. exists s. apply NumFacts.gt_true in G. auto.
Qed.

Lemma rawRegion_eq (img : ImageData) (x y : Z) :
  rawRegion img (x, y) =
  keepRegion x y (calculateTextScore (data img) x y blockSize (width img)).
Proof. unfold rawRegion. cbn [fst snd]. reflexivity. Qed.

Lemma in_rawTextRegions (img : ImageData) (r : Region.t) :
  In r (rawTextRegions img) ->
  exists x y s,
    In (x, y) (candidateCells (width img) (height img)) /\
    calculateTextScore (data img) x y blockSize (width img) = Some s /\
    (0.3 < s)%Q /\
    r = Region.mk x y blockSize blockSize s.
Proof.
  unfold rawTextRegions. rewrite in_flat_map.
  intros [[x y] [Hc Hr]]. rewrite rawRegion_eq in Hr.
  apply in_keepRegion in Hr. destruct Hr as (s & Hs & Hgt & ->).
  exists x, y, s. auto.
Qed.


(** ** Merging *)

Lemma absorb_incl (regions : list Region.t) (seed : Region.t) (js : list nat) :
  forall st, incl (fst st) regions ->
             incl (fst (fold_left (absorb regions seed) js st)) regions.
Proof.
  intros st Hst.
  apply (ListFacts.fold_left_invariant _ (fun st => incl (fst st) regions));
    [|exact Hst].
  intros [rest used] j _ Hincl. unfold absorb.
  destruct (existsb (Nat.eqb j) used); [assumption|].
  destruct (nth_error regions j) as [rj|] eqn:E; [|assumption].
  destruct (areRegionsAdjacent seed rj); [|assumption].
  cbn [fst] in *. apply incl_app; [assumption|].
  intros z [<-|[]]. eapply nth_error_In; eassumption.
Qed.

Lemma merge_step_boxes (regions : list Region.t) (idxs : list nat) :
  forall st, Forall (group_box regions) (fst st) ->
             Forall (group_box regions)
               (fst (fold_left (merge_step regions) idxs st)).
Proof.
  intros st Hst.
  apply (ListFacts.fold_left_invariant _
           (fun st => Forall (group_box regions) (fst st))); [|exact Hst].
  intros [merged used] i _ Hall. unfold merge_step.
  destruct (existsb (Nat.eqb i) used); [assumption|].
  destruct (nth_error regions i) as [ri|] eqn:E; [|assumption].
  pose proof (absorb_incl regions ri
                (seq (S i) (List.length regions - S i)) ([], i :: used)) as Hin.
  destruct (fold_left _ _ _) as [rest used'].
  cbn [fst] in *. apply Forall_app. split; [assumption|].
  constructor; [|constructor].
  exists ri, rest. split; [reflexivity|].
  intros z [<-|Hz].
  - eapply nth_error_In; eassumption.
  - apply Hin; [intros ? []|assumption].
Qed.

(** Every merged block is the bounding box of a group of raw regions. *)
Lemma merged_is_group_box (regions : list Region.t) (b : Region.t) :
  In b (mergeTextRegions regions) -> group_box regions b.
Proof.
  intros H. unfold mergeTextRegions in H.
  pose proof (merge_step_boxes regions (seq 0 (List.length regions)) ([], [])
                (Forall_nil _)) as Hall.
  rewrite Forall_forall in Hall. apply Hall. assumption.
Qed.

(** The confidence of a bounding box is the greatest confidence of its
    group, attained by a member. *)
Lemma box_confidence_max (seed : Region.t) (rest : list Region.t) :
  let b := calculateBoundingBox seed rest in
  (forall m, In m (seed :: rest) ->
             (Region.confidence m <= Region.confidence b)%Q) /\
  (exists m,
      In m (seed :: rest) /\ Region.confidence b = Region.confidence m).
Proof.
  cbn [calculateBoundingBox Region.confidence]. split.
  - intros m Hm. apply NumFacts.fold_Qmax_ge.
    change (In (Region.confidence m) (map Region.confidence (seed :: rest))).
    now apply in_map.
  - pose proof (NumFacts.fold_Qmax_in (map Region.confidence rest)
                  (Region.confidence seed)) as H.
    change (In (fold_left Qmax (map Region.confidence rest)
                  (Region.confidence seed))
               (map Region.confidence (seed :: rest))) in H.
    apply in_map_iff in H. destruct H as [m [E Hm]]. eauto.
Qed.

End TextFacts.

(** ** Small images and flush cells *)

(** C10: when the width or the height is at most 20 no candidate cell is
    placed and [detectTextRegions] returns the empty list, whatever the
    pixels; and in any image every cell that is scored ends strictly
    before the right and the bottom edge, so a cell that would fit flush
    with either edge is never scored. *)
Theorem small_image_no_text_regions (img : ImageData) :
  (width img <= 20 \/ height img <= 20 ->
   candidateCells (width img) (height img) = [] /\
   detectTextRegions img = []) /\
  (forall x y,
      In (x, y) (candidateCells (width img) (height img)) ->
      x + blockSize < width img /\ y + blockSize < height img).
Proof.
  split.
  - intros H.
    assert (E : candidateCells (width img) (height img) = [])
      by (apply TextFacts.candidateCells_small; exact H).
    split; [exact E|].
    unfold detectTextRegions, rawTextRegions. rewrite E. reflexivity.
  - intros x y H. apply TextFacts.in_candidateCells in H. lia.
Qed.

Lemma small_image_no_text_regions_witness :
  candidateCells 20 50 = [] /\
  detectTextRegions (checkerboard 20 50) = [].
Proof.
  apply (small_image_no_text_regions (checkerboard 20 50)).
  left. simpl. lia.
Defined.

(** ** Flat images *)

(** C5: in a well-formed buffer of a single colour, every candidate
    cell counts no edge pixel and no contrast, its text score is the
    number 0, which does not exceed the threshold 0.3, and
    [detectTextRegions] returns no merged block. *)
Theorem flat_buffer_no_text_regions (img : ImageData) (r g b a : Z) :
  wf_image img -> uniform img r g b a ->
  (forall x y,
      In (x, y) (candidateCells (width img) (height img)) ->
      let acc := score_counters (data img) x y blockSize (width img) in
      edgeCount acc = 0 /\ (contrastSum acc == 0)%Q /\
      exists s,
        calculateTextScore (data img) x y blockSize (width img) = Some s /\
        (s == 0)%Q /\ JS.gt s 0.3 = false) /\
  rawTextRegions img = [] /\
  detectTextRegions img = [].
Proof.
  intros Hwf Hu.
  assert (Hcells : forall x y,
             In (x, y) (candidateCells (width img) (height img)) ->
             let acc := score_counters (data img) x y blockSize (width img) in
             edgeCount acc = 0 /\ (contrastSum acc == 0)%Q /\
             exists s,
               calculateTextScore (data img) x y blockSize (width img) = Some s /\
               (s == 0)%Q /\ JS.gt s 0.3 = false).
  { intros x y Hc acc. apply TextFacts.in_candidateCells in Hc.
    unfold blockSize in Hc.
    destruct (TextFacts.score_counters_uniform img r g b a x y Hwf Hu)
      as [He Hcs]; try lia.
    split; [exact He|]. split; [exact Hcs|].
    destruct (TextFacts.score_defined img x y) as [s Hs].
    - apply Hwf.
    - unfold in_bounds, blockSize. lia.
    - exists s. split; [exact Hs|].
      assert (E : (s == 0)%Q)
        by (apply (TextFacts.score_uniform img r g b a x y); (assumption || lia)).
      split; [exact E|]. apply NumFacts.gt_false. rewrite E. lra. }
  assert (Hraw : rawTextRegions img = []).
  { destruct (rawTextRegions img) as [|t l] eqn:E; [reflexivity|exfalso].
    assert (Hin : In t (rawTextRegions img)) by (rewrite E; now left).
    apply TextFacts.in_rawTextRegions in Hin.
    destruct Hin as (x & y & s & Hc & Hs & Hgt & _).
    destruct (Hcells x y Hc) as (_ & _ & s' & Hs' & E' & _).
    rewrite Hs in Hs'. injection Hs' as <-. rewrite E' in Hgt. lra. }
  split; [exact Hcells|]. split; [exact Hraw|].
  unfold detectTextRegions. rewrite Hraw. reflexivity.
Qed.

Lemma flat_buffer_no_text_regions_witness :
  detectTextRegions (solid 50 50 30 60 90 255) = [].
Proof.
  apply (flat_buffer_no_text_regions (solid 50 50 30 60 90 255) 30 60 90 255).
  - apply ImageFacts.solid_wf; lia.
  - apply ImageFacts.solid_uniform.
Defined.

(** ** Confidence of text blocks *)


(** ** A checkered image: the confidence bound is not vacuous *)

Module CheckerFacts.

Lemma checkeredb_sound (img : ImageData) :
  checkeredb img = true -> checkered img.
Proof.
  unfold checkeredb. intros H x y Hx Hy.
  rewrite forallb_forall in H.
  specialize (H y (proj2 (JSFacts.in_for_range_1 0 (height img) y) Hy)).
  rewrite forallb_forall in H.
  specialize (H x (proj2 (JSFacts.in_for_range_1 0 (width img) x) Hx)).
  cbv zeta in *. rewrite !andb_true_iff, !Z.eqb_eq in H.
  unfold pixel_is. tauto.
Qed.

Lemma getGrayscale_checkered (img : ImageData) (x y : Z) :
  checkered img -> 0 <= x < width img -> 0 <= y < height img ->
  getGrayscale (data img) ((y * width img + x) * 4) =
  if Z.even (x + y) then luminance 0 0 0 else luminance 255 255 255.
Proof.
  intros Hc Hx Hy. unfold getGrayscale.
  rewrite (Z.mul_comm _ 4).
  destruct (Hc x y Hx Hy) as (-> & -> & -> & _).
  destruct (Z.even (x + y)); reflexivity.
Qed.

Lemma score_step_checkered (img : ImageData) (x y dy dx : Z)
    (acc : ScoreAcc) :
  wf_image img -> checkered img -> in_bounds img x y ->
  0 <= dx < blockSize - 1 -> 0 <= dy < blockSize - 1 ->
  acc_full acc ->
  acc_full (score_step (data img) x y (width img) dy acc dx).
Proof.
  intros (Hw & Hh & Hlen & _) Hc (Hx & Hxw & Hy & Hyh) Hdx Hdy [He Hcs].
  unfold score_step.
  rewrite (TextFacts.sample_in_range (data img) x y blockSize (width img)
             (height img) dx dy) by assumption.
  unfold blockSize in *.
  rewrite !(getGrayscale_checkered img) by (assumption || lia).
  replace (x + dx + 1 + (y + dy)) with (Z.succ (x + dx + (y + dy))) by lia.
  replace (x + dx + (y + dy + 1)) with (Z.succ (x + dx + (y + dy))) by lia.
  rewrite Z.even_succ, <- Z.negb_even.
  destruct (Z.even (x + dx + (y + dy))); cbn [negb];
    (split; cbn [edgeCount totalPixels contrastSum];
     [ match goal with
       | |- (if ?c then _ else _) = _ =>
           replace c with true by (vm_compute; reflexivity)
       end; lia
     | rewrite Hcs, inject_Z_plus;
       match goal with
       | |- (_ + Qmax ?h ?v == _)%Q =>
           assert (E : (Qmax h v == 255)%Q) by (vm_compute; reflexivity);
           rewrite E
       end;
       change (inject_Z 1) with 1%Q; ring ]).
Qed.

Lemma score_counters_checkered (img : ImageData) (x y : Z) :
  wf_image img -> checkered img -> in_bounds img x y ->
  acc_full (score_counters (data img) x y blockSize (width img)).
Proof.
  intros Hwf Hc Hb. unfold score_counters.
  apply ListFacts.fold_left_invariant.
  - intros acc dy Hdy Hacc. apply JSFacts.in_for_range_1 in Hdy.
    unfold score_row. apply ListFacts.fold_left_invariant; [|assumption].
    intros acc' dx Hdx. apply JSFacts.in_for_range_1 in Hdx.
    now apply score_step_checkered.
  - split; simpl; [reflexivity | reflexivity].
Qed.

(** In a checkered image every cell that fits scores 1. *)
Lemma score_checkered (img : ImageData) (x y : Z) :
  wf_image img -> checkered img -> in_bounds img x y ->
  exists s,
    calculateTextScore (data img) x y blockSize (width img) = Some s /\
    (s == 1)%Q.
Proof.
  intros Hwf Hc Hb.
  destruct (score_counters_checkered img x y Hwf Hc Hb) as [He Hcs].
  pose proof (TextFacts.totalPixels_in_bounds (data img) x y blockSize
                (width img) (height img)) as Ht.
  destruct Hwf as (Hw & Hh & Hlen & _). destruct Hb as (Hx & Hxw & Hy & Hyh).
  specialize (Ht Hlen). unfold blockSize in Ht at 1.
  specialize (Ht ltac:(lia) Hx Hxw Hy Hyh).
  change ((blockSize - 1) * (blockSize - 1)) with 361 in Ht.
  unfold calculateTextScore.
  rewrite Ht in He, Hcs. rewrite Ht, He.
  change (361 =? 0) with false. cbv iota.
  eexists. split; [reflexivity|].
  rewrite Hcs.
  assert (E1 : (inject_Z 361 / inject_Z 361 * 2 == 2)%Q) by reflexivity.
  assert (E2 : (255 * inject_Z 361 / inject_Z 361 / 100 == 2.55)%Q)
    by reflexivity.
  rewrite E1, E2. reflexivity.
Qed.

End CheckerFacts.


(* ================================================================= *)
(** * Entry points *)

Module EntryFacts.

(** What the pixel analyses leave in the state. *)
Lemma pixelAnalyses_eq (img : ImageData) (st : Results.t) :
  pixelAnalyses img st =
  freshResults img (Results.fonts st) (Layout.imageAreas (Results.layout st)).
Proof. reflexivity. Qed.

(** An image analysis overwrites every field but [fonts] (and
    [imageAreas], which nothing ever writes). *)
Lemma analyzeImage_frame (file : File) (img : ImageData) (st : Results.t) :
  decoded file = inl img ->
  analyzeImage file st =
  (Resolved,
   freshResults img (Results.fonts st) (Layout.imageAreas (Results.layout st))).
Proof.
  intros E. unfold analyzeImage. rewrite E. now rewrite pixelAnalyses_eq.
Qed.

(** A PDF analysis overwrites [fonts] too. *)
Lemma analyzePDF_frame (file : File) (img : ImageData) (st : Results.t) :
  decoded file = inl img ->
  analyzePDF file st =
  (Resolved,
   freshResults img (analyzeTextContent (textItems file))
     (Layout.imageAreas (Results.layout st))).
Proof.
  intros E. unfold analyzePDF. rewrite E. now rewrite pixelAnalyses_eq.
Qed.

End EntryFacts.

(** C1, as amended: for every file whose declared MIME type neither
    starts with [image/] nor is [application/pdf], [analyzeTemplate]
    rejects with the error [Unsupported file type] at once: the state is
    left as it was and nothing of the file's content is read. *)
Theorem unsupported_type_rejected (file : File) (st : Results.t) :
  String.prefix "image/" (type file) = false ->
  type file <> "application/pdf"%string ->
  analyzeTemplate file st = (Rejected "Unsupported file type", st).
Proof.
  intros Himg Hpdf. unfold analyzeTemplate. rewrite Himg.
  destruct (String.eqb_spec (type file) "application/pdf"); [contradiction|].
  reflexivity.
Qed.

Lemma unsupported_type_rejected_witness :
  analyzeTemplate textFile initialResults =
  (Rejected "Unsupported file type", initialResults).
Proof.
  apply (unsupported_type_rejected textFile initialResults).
  - reflexivity.
  - simpl. discriminate.
Defined.

(** C1 as stated fails: [image/gif] is not one of the four supported
    types, yet [analyzeTemplate] hands the file to [analyzeImage], which
    resolves with a full result computed from the pixels. *)
Lemma gif_is_analyzed :
  ~ In (type gifFile) validTypes /\
  fst (analyzeTemplate gifFile initialResults) = Resolved /\
  Results.colorPalette (snd (analyzeTemplate gifFile initialResults)) =
    [mkSwatch "rgb(240, 240, 240)" "#f0f0f0" 1].
Proof.
  split; [|split].
  - simpl. intuition discriminate.
  - reflexivity.
  - vm_compute. reflexivity.
Qed.

(** C8, the code at the failing input: a PDF naming the font Helvetica
    is analyzed, then a PNG.  The second result still lists Helvetica,
    where an analysis of the same PNG by a fresh (or reset) analyzer
    lists no font.  Every other field of the second result is what the
    PNG alone determines. *)
Theorem stale_fonts_after_pdf :
  let st1 := snd (analyzeTemplate pdfFile initialResults) in
  let st2 := snd (analyzeTemplate pngFile st1) in
  fst (analyzeTemplate pngFile st1) = Resolved /\
  Results.fonts st2 = ["Helvetica"%string] /\
  Results.fonts (snd (analyzeTemplate pngFile (reset st1))) = [] /\
  st2 = freshResults (solid 2 2 0 0 0 255) ["Helvetica"%string] [].
Proof.
  cbv zeta. unfold analyzeTemplate. cbn [type pdfFile pngFile].
  change (String.prefix "image/" "image/png") with true.
  change (String.prefix "image/" "application/pdf") with false.
  change (String.eqb "application/pdf" "application/pdf") with true.
  cbv iota.
  rewrite (EntryFacts.analyzePDF_frame _ (solid 2 2 255 255 255 255))
    by reflexivity.
  rewrite !(EntryFacts.analyzeImage_frame _ (solid 2 2 0 0 0 255))
    by reflexivity.
  repeat split.
Qed.

(* ================================================================= *)
(** * Grid *)

Module GridFacts.
Import JS.

Lemma insert_by_perm {A : Type} (cmp : A -> A -> Z) (x : A) (l : list A) :
  Permutation (insert_by cmp x l) (x :: l).
Proof.
  induction l as [|y t IH]; simpl; [apply Permutation_refl|].
  destruct (cmp x y <=? 0); [apply Permutation_refl|].
  eapply perm_trans; [apply perm_skip, IH | apply perm_swap].
Qed.

Lemma sort_by_perm {A : Type} (cmp : A -> A -> Z) (l : list A) :
  Permutation (sort_by cmp l) l.
Proof.
  induction l as [|x t IH]; simpl; [constructor|].
  eapply perm_trans; [apply insert_by_perm | now apply perm_skip].
Qed.

(** Sorting with [(a, b) => a - b] sorts ascending. *)
Lemma sort_ascending (l : list Z) :
  StronglySorted Z.le (sort_by (fun a b => a - b) l).
Proof.
  rewrite <- (map_id (sort_by _ l)).
  apply SortFacts.strongly_sorted_map
    with (R := SortFacts.before (fun a b : Z => a - b)).
  - unfold SortFacts.before. intros a b Hab. lia.
  - apply SortFacts.sort_by_strongly_sorted; unfold SortFacts.before;
      intros; lia.
Qed.

Lemma round10_mono (a b : Z) : a <= b -> round10 a <= round10 b.
Proof.
  intros H. unfold round10.
  apply Z.mul_le_mono_nonneg_r; [lia|].
  apply Z.div_le_mono; lia.
Qed.

(** ** [[...new Set(l)]] *)

Lemma in_set_of_list (seen l : list Z) (v : Z) :
  In v (set_of_list seen l) <-> In v l /\ ~ In v seen.
Proof.
  revert seen. induction l as [|x t IH]; intros seen; simpl; [tauto|].
  destruct (existsb (Z.eqb x) seen) eqn:E.
  - apply existsb_exists in E. destruct E as [z [Hz Hxz]].
    apply Z.eqb_eq in Hxz. subst z. rewrite IH.
    split; [tauto|]. intros [[->|H] Hn]; tauto.
  - assert (Hx : ~ In x seen).
    { intros Hin. apply Bool.not_true_iff_false in E. apply E.
      apply existsb_exists. exists x. split; [assumption|apply Z.eqb_refl]. }
    simpl. rewrite IH. simpl. split.
    + intros [->|[H Hn]]; [tauto|]. split; [tauto|]. tauto.
    + intros [[->|H] Hn]; [tauto|].
      destruct (Z.eq_dec x v) as [->|Hne]; [tauto|]. right. tauto.
Qed.

Lemma in_unique (l : list Z) (v : Z) : In v (unique l) <-> In v l.
Proof. unfold unique. rewrite in_set_of_list. simpl. tauto. Qed.

Lemma set_of_list_NoDup (seen l : list Z) : NoDup (set_of_list seen l).
Proof.
  revert seen. induction l as [|x t IH]; intros seen; simpl; [constructor|].
  destruct (existsb (Z.eqb x) seen); [apply IH|].
  constructor; [|apply IH].
  rewrite in_set_of_list. simpl. tauto.
Qed.

(** The number of elements of the [Set] is the number of distinct
    elements of the array. *)
Lemma unique_length (l : list Z) :
  List.length (unique l) = List.length (nodup Z.eq_dec l).
Proof.
  apply Permutation_length, NoDup_Permutation.
  - apply set_of_list_NoDup.
  - apply NoDup_nodup.
  - intros v. rewrite in_unique, nodup_In. tauto.
Qed.

(** The [Set] of an ascending array is strictly ascending. *)
Lemma set_of_list_sorted (seen l : list Z) :
  StronglySorted Z.le l -> StronglySorted Z.lt (set_of_list seen l).
Proof.
  intros H. revert seen. induction H as [|x t Ht IH Hx]; intros seen; simpl;
    [constructor|].
  destruct (existsb (Z.eqb x) seen); [apply IH|].
  constructor; [apply IH|].
  rewrite Forall_forall in *. intros v Hv.
  apply in_set_of_list in Hv. destruct Hv as [Hv Hn]. simpl in Hn.
  specialize (Hx v Hv). assert (x <> v) by tauto. lia.
Qed.

Lemma map_round10_sorted (l : list Z) :
  StronglySorted Z.le l -> StronglySorted Z.le (map round10 l).
Proof.
  apply SortFacts.strongly_sorted_map. apply round10_mono.
Qed.

(** ** Gaps *)

Lemma gaps_length (l : list Z) :
  List.length (gaps l) = (List.length l - 1)%nat.
Proof.
  induction l as [|a [|b t] IH]; try reflexivity.
  change (gaps (a :: b :: t)) with ((b - a) :: gaps (b :: t)).
  cbn [List.length] in *. rewrite IH. lia.
Qed.

End GridFacts.

(** What [detectGridStructure] returns for at least two merged blocks:
    [columns] is the number of distinct left edges rounded to the
    nearest 10; the gutter stored under [horizontal] is the average of
    the gaps between consecutive top edges in ascending order; the
    gutter stored under [vertical] is the difference of the two smallest
    distinct rounded left edges, and 0 when there is only one. *)
Lemma grid_structure (textBlocks : list Region.t) :
  (2 <= List.length textBlocks)%nat ->
  let g := detectGridStructure textBlocks in
  let lefts := roundedLefts textBlocks in
  let tops := sortedTops textBlocks in
  columns g = Z.of_nat (List.length (nodup Z.eq_dec lefts)) /\
  (StronglySorted Z.le tops /\ Permutation tops (map Region.y textBlocks)) /\
  horizontal (gutters g) = average (gaps tops) /\
  ((columns g = 1 /\ vertical (gutters g) = 0) \/
   (exists m1 m2,
       In m1 lefts /\ In m2 lefts /\ m1 < m2 /\
       (forall v, In v lefts -> v = m1 \/ m2 <= v) /\
       vertical (gutters g) = m2 - m1)).
Proof.
  intros Hlen g lefts tops.
  set (U := JS.unique
              (map round10 (JS.sort_by (fun a b => a - b)
                              (map Region.x textBlocks)))).
  assert (HinU : forall v, In v U <-> In v lefts).
  { intros v. unfold U, lefts, roundedLefts.
    rewrite GridFacts.in_unique, !in_map_iff. split.
    - intros [x [<- Hx]]. apply SortFacts.sort_by_in in Hx.
      apply in_map_iff in Hx. destruct Hx as [b [<- Hb]]. eauto.
    - intros [b [<- Hb]]. exists (Region.x b). split; [reflexivity|].
      apply SortFacts.sort_by_in. now apply in_map. }
  assert (HlenU : List.length U = List.length (nodup Z.eq_dec lefts)).
  { apply Permutation_length, NoDup_Permutation.
    - apply GridFacts.set_of_list_NoDup.
    - apply NoDup_nodup.
    - intros v. rewrite HinU, nodup_In. tauto. }
  assert (HsU : StronglySorted Z.lt U).
  { apply GridFacts.set_of_list_sorted, GridFacts.map_round10_sorted,
      GridFacts.sort_ascending. }
  assert (Hg : g = mkGrid (Z.of_nat (List.length U))
                     ((Z.of_nat (List.length textBlocks)
                       + Z.of_nat (List.length U) - 1)
                      / Z.of_nat (List.length U))
                     (mkGutters (average (gaps tops))
                        (if 1 <? Z.of_nat (List.length U)
                         then nth 1 U 0 - nth 0 U 0 else 0))).
  { unfold g, detectGridStructure.
    destruct (Z.ltb_spec (Z.of_nat (List.length textBlocks)) 2); [lia|].
    fold U. fold (sortedTops textBlocks). fold tops.
    assert (Hgaps : 0 < Z.of_nat (List.length (gaps tops))).
    { rewrite GridFacts.gaps_length. unfold tops, sortedTops.
      rewrite SortFacts.sort_by_length, length_map. lia. }
    destruct (Z.ltb_spec 0 (Z.of_nat (List.length (gaps tops)))); [|lia].
    reflexivity. }
  rewrite Hg. cbn [columns gutters horizontal vertical].
  split; [now rewrite HlenU|].
  split.
  { split; [apply GridFacts.sort_ascending | apply GridFacts.sort_by_perm]. }
  split; [reflexivity|].
  destruct U as [|u0 [|u1 rest]] eqn:EU.
  - exfalso. destruct textBlocks as [|b t]; [simpl in Hlen; lia|].
    apply (proj2 (HinU (round10 (Region.x b)))). now left.
  - left. split; reflexivity.
  - right. exists u0, u1.
    apply StronglySorted_inv in HsU. destruct HsU as [HsU H0].
    apply StronglySorted_inv in HsU. destruct HsU as [_ H1].
    rewrite Forall_forall in H0, H1.
    repeat split.
    + apply HinU. now left.
    + apply HinU. right. now left.
    + apply H0. now left.
    + intros v Hv. apply HinU in Hv.
      destruct Hv as [->|[->|Hv]]; [now left | right; lia |].
      right. specialize (H1 v Hv). lia.
    + cbn [List.length]. rewrite !Nat2Z.inj_succ.
      destruct (Z.ltb_spec 1 (Z.succ (Z.succ (Z.of_nat (List.length rest)))));
        [reflexivity | lia].
Qed.

Lemma grid_structure_two_blocks :
  let g := detectGridStructure twoBlocks in
  columns g = 2 /\
  horizontal (gutters g) = average [100] /\
  vertical (gutters g) = 40.
Proof.
  destruct (grid_structure twoBlocks) as (Hc & _ & Hh & Hv).
  - simpl. lia.
  - cbv zeta. split; [exact Hc|]. split; [exact Hh|]. reflexivity.
Qed.

(** C4, the code at the failing input: for the two blocks at (0,0) and
    (40,100) the grid has 2 columns, the only vertical gap between
    consecutive top edges is 100 and the two distinct rounded left edges
    are 0 and 40; the gutter named [vertical] is 40, the left-edge gap,
    and the gutter named [horizontal] is 100, the average vertical
    gap: each holds the value the other is named for. *)
Theorem gutters_are_crossed :
  let g := detectGridStructure twoBlocks in
  roundedLefts twoBlocks = [0; 40] /\
  gaps (sortedTops twoBlocks) = [100] /\
  (average (gaps (sortedTops twoBlocks)) == 100)%Q /\
  columns g = 2 /\
  vertical (gutters g) = 40 /\
  (horizontal (gutters g) == 100)%Q /\
  ~ (inject_Z (vertical (gutters g))
     == average (gaps (sortedTops twoBlocks)))%Q /\
  ~ (horizontal (gutters g) == inject_Z (40 - 0))%Q.
Proof.
  cbv zeta. repeat split; try reflexivity; vm_compute; discriminate.
Qed.

(* ================================================================= *)
(** * Sections *)

Module SectionFacts.

Lemma forallb_range (f : Z -> bool) (a b : Z) :
  forallb f (JS.for_range a b 1) = true ->
  forall y, a <= y < b -> f y = true.
Proof.
  intros H y Hy. rewrite forallb_forall in H. apply H.
  now apply JSFacts.in_for_range_1.
Qed.


Lemma gt_twentieth (n h : Z) :
  JS.gt (inject_Z n) (inject_Z h * 0.05)%Q = true <-> h < 20 * n.
Proof.
  rewrite NumFacts.gt_true. unfold Qlt. simpl. lia.
Qed.





(** ** The boundary scan, stretch by stretch *)





End SectionFacts.



(* ================================================================= *)
(** * Design elements *)

Module DesignFacts.


(** ** One step *)






(** ** A run of dark pixels *)






End DesignFacts.

(** C6, the code at the failing input: the single row of [blackRow] is
    scanned (row 0), its ten dark pixels are one run from column 0 to
    the last pixel, longer than 10% of the width, and no horizontal
    line is emitted. *)
Theorem trailing_run_not_emitted :
  In 0 (JS.for_range 0 (height blackRow) 5) /\
  dark_run blackRow 0 0 10 /\
  width blackRow < 10 * 10 /\
  horizontalLines (detectDesignElements blackRow) = [].
Proof.
  split; [vm_compute; auto|].
  split; [|split; [vm_compute; reflexivity | vm_compute; reflexivity]].
  unfold dark_run. repeat split; try (simpl; lia); try (now left).
  apply (SectionFacts.forallb_range (fun x => dark blackRow x 0)).
  vm_compute. reflexivity.
Qed.

(* ================================================================= *)
(** * More on the colour palette *)

Module PaletteMore.
Import JS.

Lemma fold_left_ext_in {A B : Type} (f g : A -> B -> A) (l : list B) :
  (forall a i, In i l -> f a i = g a i) ->
  forall a, fold_left f l a = fold_left g l a.
Proof.
  induction l as [|i l IH]; intros H a; simpl; [reflexivity|].
  rewrite H by now left. apply IH. intros a' j Hj. apply H. now right.
Qed.

Lemma fold_left_fixed {A B : Type} (f : A -> B -> A) (l : list B) (a : A) :
  (forall i, In i l -> f a i = a) -> fold_left f l a = a.
Proof.
  induction l as [|i l IH]; intros H; simpl; [reflexivity|].
  rewrite H by now left. apply IH. intros j Hj. apply H. now right.
Qed.

(** A sampled offset is the first byte of a pixel. *)
Lemma sample_offset_pixel (img : ImageData) (i : Z) :
  data_length (data img) = 4 * (width img * height img) ->
  In i (sampleOffsets (data img)) ->
  0 <= i / 4 < width img * height img /\ i = 4 * (i / 4).
Proof.
  intros Hlen Hi. unfold sampleOffsets in Hi. rewrite Hlen in Hi.
  apply JSFacts.in_for_range in Hi; [|unfold sampleRate; lia].
  destruct Hi as [Hi Hm]. unfold sampleRate in Hm. rewrite Z.sub_0_r in Hm.
  apply Z.mod_divide in Hm; [|lia]. destruct Hm as [k ->].
  replace (k * (4 * 10)) with (k * 10 * 4) in * by lia.
  rewrite Z.div_mul by lia. lia.
Qed.

(** ** One colour *)

Lemma colorCounts_uniform (img : ImageData) (r g b a : Z) :
  wf_image img -> uniform img r g b a -> 128 <= a ->
  colorCounts (data img) =
  [(colorKey r g b, (width img * height img + 9) / 10)].
Proof.
  intros (Hw & Hh & Hlen & _) Hu Ha.
  assert (Hn : 0 < width img * height img) by nia.
  unfold colorCounts. rewrite Hlen.
  rewrite <- (PaletteFacts.sample_count (width img * height img)) by lia.
  assert (Hin : forall i,
             In i (for_range 0 (4 * (width img * height img)) (4 * sampleRate)) ->
             0 <= i < 4 * (width img * height img) /\ i mod 4 = 0).
  { intros i Hi.
    destruct (sample_offset_pixel img i Hlen) as [H1 H2].
    - unfold sampleOffsets. now rewrite Hlen.
    - split; [lia|]. rewrite H2, Z.mul_comm. apply Z.mod_mul. lia. }
  destruct (for_range 0 (4 * (width img * height img)) (4 * sampleRate))
    as [|i l] eqn:E.
  - rewrite JSFacts.for_range_unfold in E by (unfold sampleRate; lia).
    destruct (Z.ltb_spec 0 (4 * (width img * height img)));
      [discriminate | lia].
  - cbn [fold_left].
    rewrite (PaletteFacts.palette_step_uniform img r g b a)
      by (try assumption; apply Hin; now left).
    cbn [map_get map_set or_zero].
    rewrite (PaletteFacts.fold_palette_uniform img r g b a)
      by (try assumption; intros j Hj; apply Hin; now right).
    cbn [List.length]. f_equal. f_equal. lia.
Qed.

(** ** No opaque sample *)

Lemma colorCounts_transparent (img : ImageData) :
  data_length (data img) = 4 * (width img * height img) ->
  all_transparent img -> colorCounts (data img) = [].
Proof.
  intros Hlen Ht. unfold colorCounts. fold (sampleOffsets (data img)).
  apply fold_left_fixed. intros i Hi.
  destruct (sample_offset_pixel img i Hlen Hi) as [Hp Hi4].
  unfold palette_step. rewrite Hi4.
  destruct (Z.ltb_spec (data_at (data img) (4 * (i / 4) + 3)) 128) as [_|H];
    [reflexivity|].
  specialize (Ht (i / 4) Hp). lia.
Qed.

(** ** Only the sampled pixels count *)

Lemma colorCounts_same_samples (img img' : ImageData) :
  same_samples img img' -> colorCounts (data img) = colorCounts (data img').
Proof.
  intros [Hlen Hs]. unfold colorCounts. rewrite <- Hlen.
  apply fold_left_ext_in. intros m i Hi.
  apply JSFacts.in_for_range in Hi; [|unfold sampleRate; lia].
  destruct Hi as [Hi Hm]. rewrite Z.sub_0_r in Hm.
  unfold palette_step.
  assert (E0 : data_at (data img) i = data_at (data img') i).
  { rewrite <- (Z.add_0_r i). apply Hs; (assumption || lia). }
  rewrite E0, (Hs i 1), (Hs i 2), (Hs i 3) by (assumption || lia).
  reflexivity.
Qed.

(** ** Counting *)

Lemma sum_from (l : list Z) (a : Z) : fold_left Z.add l a = a + sum l.
Proof.
  unfold sum. revert a. induction l as [|x l IH]; intros a; simpl; [lia|].
  rewrite IH, (IH (0 + x)). lia.
Qed.

Lemma sum_cons (x : Z) (l : list Z) : sum (x :: l) = x + sum l.
Proof. unfold sum at 1. simpl. rewrite sum_from. lia. Qed.

Lemma sum_perm (l l' : list Z) : Permutation l l' -> sum l = sum l'.
Proof.
  induction 1; rewrite ?sum_cons; lia.
Qed.

Lemma sum_firstn_le (n : nat) (l : list Z) :
  Forall (fun v => 0 <= v) l -> sum (firstn n l) <= sum l.
Proof.
  intros H. revert n. induction H as [|x l Hx Hl IH]; intros [|n]; simpl;
    rewrite ?sum_cons; try (unfold sum; simpl; lia).
  - assert (0 <= sum l).
    { clear IH. induction Hl as [|y l Hy Hl IH]; [unfold sum; simpl; lia|].
      rewrite sum_cons. lia. }
    unfold sum at 1. simpl. lia.
  - specialize (IH n). lia.
Qed.

Lemma map_get_absent (m : Map) (k : string) :
  ~ In k (map fst m) -> map_get m k = None.
Proof.
  induction m as [|[k' v] t IH]; simpl; [reflexivity|]. intros H.
  destruct (String.eqb_spec k' k); [tauto|]. apply IH. tauto.
Qed.

Lemma map_set_keys (m : Map) (k : string) (v : Z) :
  map fst (map_set m k v) =
  if existsb (String.eqb k) (map fst m) then map fst m
  else map fst m ++ [k].
Proof.
  induction m as [|[k' v'] t IH]; simpl; [reflexivity|].
  rewrite (String.eqb_sym k k').
  destruct (String.eqb k' k); simpl; [reflexivity|].
  rewrite IH. destruct (existsb _ _); reflexivity.
Qed.

Lemma map_set_keys_NoDup (m : Map) (k : string) (v : Z) :
  NoDup (map fst m) -> NoDup (map fst (map_set m k v)).
Proof.
  intros H. rewrite map_set_keys.
  destruct (existsb (String.eqb k) (map fst m)) eqn:E; [assumption|].
  apply NoDup_app; [assumption | repeat constructor; intros [] |].
  intros x Hx [<-|[]].
  apply Bool.not_true_iff_false in E. apply E.
  apply existsb_exists. exists k. split; [assumption|apply String.eqb_refl].
Qed.

Lemma map_set_sum (m : Map) (k : string) :
  sum (map snd (map_set m k (or_zero (map_get m k) + 1))) =
  sum (map snd m) + 1.
Proof.
  induction m as [|[k' v'] t IH]; simpl.
  - unfold sum. simpl. lia.
  - destruct (String.eqb k' k); simpl; rewrite !sum_cons; lia.
Qed.

Lemma map_set_positive (m : Map) (k : string) :
  Forall (fun e => 1 <= snd e) m ->
  Forall (fun e => 1 <= snd e) (map_set m k (or_zero (map_get m k) + 1)).
Proof.
  induction 1 as [|[k' v'] t Hv Ht IH]; simpl.
  - repeat constructor. simpl. lia.
  - destruct (String.eqb k' k); simpl.
    + constructor; [simpl in *; lia | assumption].
    + constructor; assumption.
Qed.

(** What the counting loop keeps: distinct keys, positive counts, one
    count per opaque sample. *)
Lemma colorCounts_invariant (d : list Z) :
  NoDup (map fst (colorCounts d)) /\
  Forall (fun e => 1 <= snd e) (colorCounts d) /\
  sum (map snd (colorCounts d)) = Z.of_nat (List.length (opaqueSamples d)).
Proof.
  unfold colorCounts, opaqueSamples, sampleOffsets.
  set (l := for_range 0 (data_length d) (4 * sampleRate)).
  assert (H : forall m,
             NoDup (map fst m) -> Forall (fun e => 1 <= snd e) m ->
             let m' := fold_left (palette_step d) l m in
             NoDup (map fst m') /\ Forall (fun e => 1 <= snd e) m' /\
             sum (map snd m') =
             sum (map snd m)
             + Z.of_nat (List.length
                 (filter (fun i => negb (data_at d (i + 3) <? 128)) l))).
  { induction l as [|i l IH]; intros m Hnd Hpos; cbn [fold_left filter].
    - cbv zeta. simpl. repeat split; try assumption. lia.
    - unfold palette_step at 2 4 6.
      destruct (data_at d (i + 3) <? 128); cbn [negb].
      + apply IH; assumption.
      + destruct (IH (map_set m (colorKey (data_at d i) (data_at d (i + 1))
                                    (data_at d (i + 2)))
                        (or_zero (map_get m (colorKey (data_at d i)
                                               (data_at d (i + 1))
                                               (data_at d (i + 2)))) + 1)))
          as (H1 & H2 & H3).
        * now apply map_set_keys_NoDup.
        * now apply map_set_positive.
        * cbv zeta in *. repeat split; try assumption.
          rewrite H3, map_set_sum. cbn [List.length].
          rewrite Nat2Z.inj_succ. lia. }
  destruct (H [] (NoDup_nil _) (Forall_nil _)) as (H1 & H2 & H3).
  cbv zeta in *. repeat split; assumption.
Qed.

Lemma in_firstn {A : Type} (n : nat) (l : list A) (x : A) :
  In x (firstn n l) -> In x l.
Proof.
  intros H. rewrite <- (firstn_skipn n l). apply in_or_app. now left.
Qed.

Lemma palette_frequencies_eq (img : ImageData) :
  map frequency (extractColorPalette img) =
  map snd (firstn 8 (sort_by (fun a b : string * Z => snd b - snd a)
                       (colorCounts (data img)))).
Proof.
  unfold extractColorPalette. rewrite map_map.
  apply map_ext. apply PaletteFacts.frequency_swatch_of_entry.
Qed.

End PaletteMore.

Module SampleFacts.
Import JS.

Lemma same_samplesb_sound (img img' : ImageData) :
  same_samplesb img img' = true -> same_samples img img'.
Proof.
  unfold same_samplesb, same_samples. intros H.
  apply andb_true_iff in H. destruct H as [Hl Hs].
  apply Z.eqb_eq in Hl. split; [exact Hl|].
  intros i k Hi Hm Hk.
  destruct (Z_lt_ge_dec i (data_length (data img))) as [Hin|Hout].
  - rewrite forallb_forall in Hs.
    assert (Hi' : In i (sampleOffsets (data img))).
    { unfold sampleOffsets. apply JSFacts.in_for_range.
      - unfold sampleRate. lia.
      - split; [lia|]. now rewrite Z.sub_0_r. }
    specialize (Hs i Hi'). rewrite forallb_forall in Hs.
    apply Z.eqb_eq. apply Hs.
    assert (Hk' : k = 0 \/ k = 1 \/ k = 2 \/ k = 3) by lia.
    cbn [In]. intuition.
  - unfold data_at. unfold data_length in *.
    rewrite !nth_overflow by lia. reflexivity.
Qed.

End SampleFacts.

(** X1: a well-formed image of one colour whose alpha is at least 128
    has a palette of exactly one swatch, whatever the colour: the swatch
    of the three bucket floors, counted once per sampled pixel (every
    tenth pixel of the buffer, rounded up). *)
Theorem flat_palette_single_swatch (img : ImageData) (r g b a : Z) :
  wf_image img -> uniform img r g b a -> 128 <= a ->
  extractColorPalette img =
    [mkSwatch ("rgb(" ++ JS.to_string (quantize r) ++ ", "
                 ++ JS.to_string (quantize g) ++ ", "
                 ++ JS.to_string (quantize b) ++ ")")%string
       (rgbToHex (quantize r) (quantize g) (quantize b))
       ((width img * height img + 9) / 10)].
Proof.
  intros Hwf Hu Ha. unfold extractColorPalette.
  rewrite (PaletteMore.colorCounts_uniform img r g b a Hwf Hu Ha).
  cbn [JS.sort_by fold_right JS.insert_by firstn map].
  unfold swatch_of_entry. cbn [fst snd].
  rewrite PaletteFacts.decodeKey_colorKey. reflexivity.
Qed.

Lemma flat_palette_single_swatch_witness :
  extractColorPalette (solid 3 4 30 65 119 200) =
    [mkSwatch "rgb(20, 60, 100)" "#143c64" 2].
Proof.
  apply (flat_palette_single_swatch (solid 3 4 30 65 119 200) 30 65 119 200).
  - apply ImageFacts.solid_wf; lia.
  - apply ImageFacts.solid_uniform.
  - lia.
Defined.

(** X2: when every pixel has alpha below 128 every sample is skipped and
    the palette is empty. *)
Theorem transparent_palette_empty (img : ImageData) :
  data_length (data img) = 4 * (width img * height img) ->
  all_transparent img -> extractColorPalette img = [].
Proof.
  intros Hlen Ht. unfold extractColorPalette.
  rewrite (PaletteMore.colorCounts_transparent img Hlen Ht). reflexivity.
Qed.

Lemma transparent_palette_empty_witness :
  extractColorPalette (solid 2 2 10 20 30 127) = [].
Proof.
  apply (transparent_palette_empty (solid 2 2 10 20 30 127)).
  - reflexivity.
  - intros p Hp. pose proof (ImageFacts.solid_uniform 2 2 10 20 30 127 p Hp) as H.
    unfold pixel_is in H. destruct H as (_ & _ & _ & H). rewrite H. lia.
Defined.

(** X3: the palette reads the sampled pixels only (every tenth pixel of
    the buffer): two buffers of the same length that agree on the four
    channels of those pixels have the same palette, whatever the other
    pixels are. *)
Theorem palette_reads_samples_only (img img' : ImageData) :
  same_samples img img' ->
  extractColorPalette img = extractColorPalette img'.
Proof.
  intros H. unfold extractColorPalette.
  now rewrite (PaletteMore.colorCounts_same_samples img img' H).
Qed.

Lemma palette_reads_samples_only_witness :
  extractColorPalette tieImage = extractColorPalette tieImage'.
Proof.
  apply (palette_reads_samples_only tieImage tieImage').
  apply SampleFacts.same_samplesb_sound. reflexivity.
Defined.

(** X4: every swatch of a palette counts at least one sample, the
    frequencies add up to at most the number of samples with alpha at
    least 128, and to exactly that number when the palette has fewer than
    8 swatches (nothing was cut off). *)
Theorem palette_frequencies (img : ImageData) :
  Forall (fun s => 1 <= frequency s) (extractColorPalette img) /\
  sum (map frequency (extractColorPalette img))
    <= Z.of_nat (List.length (opaqueSamples (data img))) /\
  ((List.length (extractColorPalette img) < 8)%nat ->
   sum (map frequency (extractColorPalette img))
     = Z.of_nat (List.length (opaqueSamples (data img)))).
Proof.
  destruct (PaletteMore.colorCounts_invariant (data img)) as (_ & Hpos & Hsum).
  pose proof (GridFacts.sort_by_perm (fun a b : string * Z => snd b - snd a)
                (colorCounts (data img))) as Hperm.
  assert (Hpos' : Forall (fun e : string * Z => 1 <= snd e)
                    (JS.sort_by (fun a b : string * Z => snd b - snd a)
                       (colorCounts (data img)))).
  { rewrite Forall_forall in *. intros e He. apply Hpos.
    eapply Permutation_in; [exact Hperm | exact He]. }
  assert (Hsum' : sum (map snd (JS.sort_by
                                  (fun a b : string * Z => snd b - snd a)
                                  (colorCounts (data img)))) =
                  Z.of_nat (List.length (opaqueSamples (data img)))).
  { rewrite <- Hsum. apply PaletteMore.sum_perm.
    now apply Permutation_map. }
  split; [|split].
  - unfold extractColorPalette. rewrite Forall_map.
    rewrite Forall_forall in *. intros e He.
    rewrite PaletteFacts.frequency_swatch_of_entry. apply Hpos'.
    eapply PaletteMore.in_firstn; exact He.
  - rewrite PaletteMore.palette_frequencies_eq, <- Hsum'.
    rewrite <- firstn_map. apply PaletteMore.sum_firstn_le.
    rewrite Forall_map. rewrite Forall_forall in *.
    intros e He. specialize (Hpos' e He). lia.
  - intros Hlt. rewrite PaletteMore.palette_frequencies_eq, <- Hsum'.
    rewrite PaletteFacts.palette_length in Hlt.
    rewrite firstn_all2; [reflexivity|].
    rewrite SortFacts.sort_by_length. lia.
Qed.

Lemma palette_frequencies_witness :
  sum (map frequency (extractColorPalette tieImage))
    = Z.of_nat (List.length (opaqueSamples (data tieImage))).
Proof.
  apply (proj2 (proj2 (palette_frequencies tieImage))).
  vm_compute. lia.
Defined.

Module HexFacts.

(** Case analysis on a value below 16. *)
Ltac nibble n :=
  let H := fresh in
  assert (H : In n (JS.for_range 0 16 1))
    by (apply JSFacts.in_for_range_1; lia);
  let l := eval vm_compute in (JS.for_range 0 16 1) in
  change (JS.for_range 0 16 1) with l in H;
  cbn [In] in H;
  repeat (destruct H as [H|H]; [subst n|]); [..|destruct H].

Lemma string_of_hexCons (n : Z) (u : Hexadecimal.uint) :
  0 <= n < 16 ->
  HexadecimalString.NilEmpty.string_of_uint (hexCons n u) =
  String (hexDigit n) (HexadecimalString.NilEmpty.string_of_uint u).
Proof. intros Hn. nibble n; reflexivity. Qed.

Lemma of_hex_acc_hexCons (n : Z) (u : Hexadecimal.uint) (acc : positive) :
  0 <= n < 16 ->
  exists acc',
    Pos.of_hex_uint_acc (hexCons n u) acc = Pos.of_hex_uint_acc u acc' /\
    Z.pos acc' = n + 16 * Z.pos acc.
Proof.
  intros Hn. nibble n; eexists; (split; [reflexivity | lia]).
Qed.

Lemma nibble_hi (v : Z) : 0 <= v <= 255 -> 0 <= v / 16 < 16.
Proof.
  intros Hv. split.
  - apply Z.div_pos; lia.
  - apply Z.div_lt_upper_bound; lia.
Qed.

Lemma nibble_lo (v : Z) : 0 <= v mod 16 < 16.
Proof. apply Z.mod_pos_bound. lia. Qed.

(** The 32-bit shifts of [rgbToHex] do not wrap on bytes. *)
Lemma shl_byte (v n : Z) :
  0 <= v <= 255 -> 0 <= n <= 16 -> JS.shl v n = v * 2 ^ n.
Proof.
  intros Hv Hn. unfold JS.shl, JS.toInt32.
  change (2 ^ 31) with 2147483648. change (2 ^ 32) with 4294967296.
  rewrite (Z.mod_small (v + 2147483648)) by lia.
  replace (v + 2147483648 - 2147483648) with v by lia.
  assert (E : Z.land n 31 = n).
  { change 31 with (Z.ones 5). rewrite Z.land_ones by lia.
    apply Z.mod_small. change (2 ^ 5) with 32. lia. }
  rewrite E, Z.shiftl_mul_pow2 by lia.
  assert (0 < 2 ^ n) by (apply Z.pow_pos_nonneg; lia).
  assert (2 ^ n <= 2 ^ 16) by (apply Z.pow_le_mono_r; lia).
  change (2 ^ 16) with 65536 in *.
  rewrite Z.mod_small by nia. lia.
Qed.

(** The digits of the number [rgbToHex] renders. *)
Lemma rgb_hex_digits (r g b : Z) :
  0 <= r <= 255 -> 0 <= g <= 255 -> 0 <= b <= 255 ->
  N.to_hex_uint (Z.to_N (JS.shl 1 24 + JS.shl r 16 + JS.shl g 8 + b)) =
  Hexadecimal.D1
    (hexCons (r / 16) (hexCons (r mod 16)
       (hexCons (g / 16) (hexCons (g mod 16)
          (hexCons (b / 16) (hexCons (b mod 16) Hexadecimal.Nil)))))).
Proof.
  intros Hr Hg Hb.
  set (d := Hexadecimal.D1 _).
  assert (Hd : N.of_hex_uint d =
               Z.to_N (JS.shl 1 24 + JS.shl r 16 + JS.shl g 8 + b)).
  { unfold d, N.of_hex_uint. cbn [Pos.of_hex_uint].
    destruct (of_hex_acc_hexCons (r / 16)
                (hexCons (r mod 16) (hexCons (g / 16) (hexCons (g mod 16)
                   (hexCons (b / 16) (hexCons (b mod 16) Hexadecimal.Nil)))))
                1) as [a1 [E1 H1]];
      [auto using nibble_hi, nibble_lo|]. rewrite E1.
    destruct (of_hex_acc_hexCons (r mod 16)
                (hexCons (g / 16) (hexCons (g mod 16)
                   (hexCons (b / 16) (hexCons (b mod 16) Hexadecimal.Nil))))
                a1) as [a2 [E2 H2]];
      [auto using nibble_hi, nibble_lo|]. rewrite E2.
    destruct (of_hex_acc_hexCons (g / 16)
                (hexCons (g mod 16)
                   (hexCons (b / 16) (hexCons (b mod 16) Hexadecimal.Nil)))
                a2) as [a3 [E3 H3]];
      [auto using nibble_hi, nibble_lo|]. rewrite E3.
    destruct (of_hex_acc_hexCons (g mod 16)
                (hexCons (b / 16) (hexCons (b mod 16) Hexadecimal.Nil))
                a3) as [a4 [E4 H4]];
      [auto using nibble_hi, nibble_lo|]. rewrite E4.
    destruct (of_hex_acc_hexCons (b / 16)
                (hexCons (b mod 16) Hexadecimal.Nil) a4) as [a5 [E5 H5]];
      [auto using nibble_hi, nibble_lo|]. rewrite E5.
    destruct (of_hex_acc_hexCons (b mod 16) Hexadecimal.Nil a5)
      as [a6 [E6 H6]];
      [auto using nibble_hi, nibble_lo|]. rewrite E6.
    cbn [Pos.of_hex_uint_acc].
    rewrite (shl_byte r 16), (shl_byte g 8) by lia.
    change (JS.shl 1 24) with 16777216.
    change (2 ^ 16) with 65536. change (2 ^ 8) with 256.
    assert (E : 16777216 + r * 65536 + g * 256 + b = Z.pos a6).
    { pose proof (Z.div_mod r 16). pose proof (Z.div_mod g 16).
      pose proof (Z.div_mod b 16). lia. }
    rewrite E. reflexivity. }
  rewrite <- Hd, HexadecimalN.Unsigned.to_of. reflexivity.
Qed.

Lemma rgbToHex_digits (r g b : Z) :
  0 <= r <= 255 -> 0 <= g <= 255 -> 0 <= b <= 255 ->
  rgbToHex r g b = ("#" ++ hexByte r ++ hexByte g ++ hexByte b)%string.
Proof.
  intros Hr Hg Hb. unfold rgbToHex, JS.toString16.
  assert (Hpos : 0 <= JS.shl 1 24 + JS.shl r 16 + JS.shl g 8 + b).
  { rewrite (shl_byte r 16), (shl_byte g 8) by lia.
    change (JS.shl 1 24) with 16777216.
    change (2 ^ 16) with 65536. change (2 ^ 8) with 256. lia. }
  destruct (Z.ltb_spec (JS.shl 1 24 + JS.shl r 16 + JS.shl g 8 + b) 0);
    [lia|].
  rewrite rgb_hex_digits by assumption.
  cbn [HexadecimalString.NilZero.string_of_uint
         HexadecimalString.NilEmpty.string_of_uint JS.slice1].
  rewrite !string_of_hexCons by auto using nibble_hi, nibble_lo.
  reflexivity.
Qed.

End HexFacts.

(** X5: on byte values, [rgbToHex] is [#] followed by the two lowercase
    hexadecimal digits of each channel, zero padded: seven characters
    whatever the colour. *)
Theorem rgbToHex_bytes (r g b : Z) :
  0 <= r <= 255 -> 0 <= g <= 255 -> 0 <= b <= 255 ->
  rgbToHex r g b = ("#" ++ hexByte r ++ hexByte g ++ hexByte b)%string /\
  String.length (rgbToHex r g b) = 7%nat.
Proof.
  intros Hr Hg Hb.
  pose proof (HexFacts.rgbToHex_digits r g b Hr Hg Hb) as E.
  split; [exact E|]. rewrite E. reflexivity.
Qed.

Lemma rgbToHex_bytes_witness :
  rgbToHex 10 0 255 = "#0a00ff"%string /\
  String.length (rgbToHex 10 0 255) = 7%nat.
Proof. apply (rgbToHex_bytes 10 0 255); lia. Defined.

(* ================================================================= *)
(** * More on the merging of text regions *)

Module MergeFacts.

Lemma fold_min_in (l : list Z) (a : Z) : In (fold_left Z.min l a) (a :: l).
Proof.
  revert a. induction l as [|x l IH]; intros a; cbn [fold_left].
  - now left.
  - destruct (IH (Z.min a x)) as [H|H].
    + rewrite <- H. destruct (Z.min_spec a x) as [[_ E]|[_ E]]; rewrite E.
      * now left.
      * right. now left.
    + right. now right.
Qed.

Lemma fold_min_le (l : list Z) (a x : Z) :
  In x (a :: l) -> fold_left Z.min l a <= x.
Proof.
  revert a x. induction l as [|y l IH]; intros a x H; cbn [fold_left].
  - destruct H as [H|[]]. lia.
  - destruct H as [H|[H|H]].
    + subst. etransitivity; [apply IH; now left | apply Z.le_min_l].
    + subst. etransitivity; [apply IH; now left | apply Z.le_min_r].
    + apply IH. now right.
Qed.

Lemma fold_max_in (l : list Z) (a : Z) : In (fold_left Z.max l a) (a :: l).
Proof.
  revert a. induction l as [|x l IH]; intros a; cbn [fold_left].
  - now left.
  - destruct (IH (Z.max a x)) as [H|H].
    + rewrite <- H. destruct (Z.max_spec a x) as [[_ E]|[_ E]]; rewrite E.
      * right. now left.
      * now left.
    + right. now right.
Qed.

Lemma fold_max_ge (l : list Z) (a x : Z) :
  In x (a :: l) -> x <= fold_left Z.max l a.
Proof.
  revert a x. induction l as [|y l IH]; intros a x H; cbn [fold_left].
  - destruct H as [H|[]]. lia.
  - destruct H as [H|[H|H]].
    + subst. etransitivity; [apply Z.le_max_l | apply IH; now left].
    + subst. etransitivity; [apply Z.le_max_r | apply IH; now left].
    + apply IH. now right.
Qed.

Lemma in_map_cons {A B : Type} (f : A -> B) (a : A) (l : list A) (y : B) :
  In y (f a :: map f l) -> exists m, In m (a :: l) /\ y = f m.
Proof.
  intros [H|H].
  - exists a. split; [now left | now symmetry].
  - apply in_map_iff in H. destruct H as [m [E Hm]].
    exists m. split; [now right | now symmetry].
Qed.

Lemma map_cons_in {A B : Type} (f : A -> B) (a : A) (l : list A) (m : A) :
  In m (a :: l) -> In (f m) (f a :: map f l).
Proof.
  intros [H|H]; [left; now subst | right; now apply in_map].
Qed.

(** The box of a group encloses every member of the group. *)
Lemma box_encloses (seed : Region.t) (rest : list Region.t) (m : Region.t) :
  In m (seed :: rest) ->
  inside m (calculateBoundingBox seed rest).
Proof.
  intros Hm. unfold inside, calculateBoundingBox.
  cbn [Region.x Region.y Region.width Region.height].
  pose proof (fold_min_le _ _ _ (map_cons_in Region.x seed rest m Hm)).
  pose proof (fold_min_le _ _ _ (map_cons_in Region.y seed rest m Hm)).
  pose proof (fold_max_ge _ _ _
    (map_cons_in (fun r => Region.x r + Region.width r) seed rest m Hm)).
  pose proof (fold_max_ge _ _ _
    (map_cons_in (fun r => Region.y r + Region.height r) seed rest m Hm)).
  cbv beta in *. lia.
Qed.

(** Each side of the box is a side of some member. *)
Lemma box_tight (seed : Region.t) (rest : list Region.t) :
  let b := calculateBoundingBox seed rest in
  (exists m, In m (seed :: rest) /\ Region.x b = Region.x m) /\
  (exists m, In m (seed :: rest) /\ Region.y b = Region.y m) /\
  (exists m, In m (seed :: rest) /\
             Region.x b + Region.width b = Region.x m + Region.width m) /\
  (exists m, In m (seed :: rest) /\
             Region.y b + Region.height b = Region.y m + Region.height m).
Proof.
  unfold calculateBoundingBox.
  cbn [Region.x Region.y Region.width Region.height].
  repeat split.
  - apply (in_map_cons Region.x). apply fold_min_in.
  - apply (in_map_cons Region.y). apply fold_min_in.
  - destruct (in_map_cons (fun r => Region.x r + Region.width r) seed rest _
                (fold_max_in _ _)) as [m [Hm E]].
    exists m. split; [exact Hm|]. cbv beta in E. lia.
  - destruct (in_map_cons (fun r => Region.y r + Region.height r) seed rest _
                (fold_max_in _ _)) as [m [Hm E]].
    exists m. split; [exact Hm|]. cbv beta in E. lia.
Qed.

Lemma existsb_eqb_in (j : nat) (l : list nat) :
  existsb (Nat.eqb j) l = true <-> In j l.
Proof.
  rewrite existsb_exists. split.
  - intros [k [Hk E]]. apply Nat.eqb_eq in E. now subst.
  - intros H. exists j. split; [exact H | apply Nat.eqb_refl].
Qed.

(** The inner loop: the indices it marks are those of the regions it
    collects. *)
Lemma absorb_marks (regions : list Region.t) (seed : Region.t)
    (used0 : list nat) (js : list nat) :
  forall st,
    (incl used0 (snd st) /\
     forall j, In j (snd st) ->
               In j used0 \/
               exists rj, nth_error regions j = Some rj /\ In rj (fst st)) ->
    let st' := fold_left (absorb regions seed) js st in
    incl used0 (snd st') /\
    forall j, In j (snd st') ->
              In j used0 \/
              exists rj, nth_error regions j = Some rj /\ In rj (fst st').
Proof.
  intros st H. cbv zeta.
  apply (ListFacts.fold_left_invariant (absorb regions seed)
           (fun st => incl used0 (snd st) /\
                      forall j, In j (snd st) ->
                                In j used0 \/
                                exists rj, nth_error regions j = Some rj /\
                                           In rj (fst st))); [|exact H].
  clear st H. intros [rest used] j _ [Hi Hc]. unfold absorb.
  destruct (existsb (Nat.eqb j) used); [now split|].
  destruct (nth_error regions j) as [rj|] eqn:Ej; [|now split].
  destruct (areRegionsAdjacent seed rj); [|now split].
  cbn [fst snd] in *. split.
  - intros k Hk. right. now apply Hi.
  - intros k [Hk|Hk].
    + subst k. right. exists rj. split; [exact Ej|].
      apply in_or_app. right. now left.
    + destruct (Hc k Hk) as [H|[rk [Ek Hr]]]; [now left|].
      right. exists rk. split; [exact Ek|]. apply in_or_app. now left.
Qed.

Lemma covers_weaken (regions : list Region.t) (merged extra : list Region.t)
    (used : list nat) :
  placed regions (merged, used) ->
  forall j, In j used ->
            exists rj b, nth_error regions j = Some rj /\
                         In b (merged ++ extra) /\ covers regions b rj.
Proof.
  intros Hp j Hj. destruct (Hp j Hj) as [rj [b [E [Hb Hc]]]].
  exists rj, b. repeat split; try assumption.
  apply in_or_app. now left.
Qed.

(** One turn of the outer loop keeps [placed], marks its index and pushes
    at most one group. *)
Lemma merge_step_placed (regions : list Region.t)
    (st : list Region.t * list nat) (i : nat) :
  placed regions st ->
  let st' := merge_step regions st i in
  placed regions st' /\
  incl (snd st) (snd st') /\
  ((i < List.length regions)%nat -> In i (snd st')) /\
  (List.length (fst st') <= S (List.length (fst st)))%nat.
Proof.
  destruct st as [merged used]. intros Hp. cbv zeta. unfold merge_step.
  destruct (existsb (Nat.eqb i) used) eqn:Eu.
  - repeat split; try assumption.
    + apply incl_refl.
    + intros _. now apply existsb_eqb_in.
    + cbn [fst]. lia.
  - destruct (nth_error regions i) as [ri|] eqn:Ei.
    + destruct (fold_left (absorb regions ri)
                  (seq (S i) (List.length regions - S i)) ([], i :: used))
        as [rest used'] eqn:Ef.
      pose proof (absorb_marks regions ri (i :: used)
                    (seq (S i) (List.length regions - S i))
                    ([], i :: used)) as Hm.
      cbv zeta in Hm. rewrite Ef in Hm. cbn [fst snd] in Hm.
      destruct Hm as [Hincl Hmark].
      { split; [apply incl_refl|]. intros j Hj. now left. }
      pose proof (TextFacts.absorb_incl regions ri
                    (seq (S i) (List.length regions - S i))
                    ([], i :: used)) as Hsub.
      rewrite Ef in Hsub. cbn [fst] in Hsub.
      specialize (Hsub (incl_nil_l _)).
      assert (Hri : In ri regions) by (eapply nth_error_In; exact Ei).
      assert (Hgroup : incl (ri :: rest) regions).
      { intros m [Hm|Hm]; [now subst | now apply Hsub]. }
      cbn [fst snd]. repeat split.
      * intros j Hj. cbn [fst snd] in *.
        destruct (Hmark j Hj) as [[Hji|Hju]|[rj [Ej Hr]]].
        -- subst j. exists ri, (calculateBoundingBox ri rest).
           repeat split; [exact Ei | apply in_or_app; right; now left |].
           exists ri, rest. repeat split; [now left | exact Hgroup].
        -- now apply (covers_weaken regions merged _ used Hp).
        -- exists rj, (calculateBoundingBox ri rest).
           repeat split; [exact Ej | apply in_or_app; right; now left |].
           exists ri, rest. repeat split; [now right | exact Hgroup].
      * intros j Hj. apply Hincl. now right.
      * intros _. apply Hincl. now left.
      * rewrite length_app. cbn [List.length]. lia.
    + repeat split; try assumption.
      * apply incl_refl.
      * intros Hlt. apply nth_error_None in Ei. lia.
      * cbn [fst]. lia.
Qed.

Lemma merge_loop_placed (regions : list Region.t) (idxs : list nat) :
  forall st,
    placed regions st ->
    let st' := fold_left (merge_step regions) idxs st in
    placed regions st' /\
    incl (snd st) (snd st') /\
    (forall i, In i idxs -> (i < List.length regions)%nat -> In i (snd st')) /\
    (List.length (fst st') <= List.length (fst st) + List.length idxs)%nat.
Proof.
  induction idxs as [|i idxs IH]; intros st Hp; cbv zeta; cbn [fold_left].
  - repeat split; try assumption.
    + apply incl_refl.
    + intros i [].
    + cbn [List.length]. lia.
  - destruct (merge_step_placed regions st i Hp) as (Hp1 & Hi1 & Hm1 & Hl1).
    destruct (IH _ Hp1) as (Hp2 & Hi2 & Hm2 & Hl2).
    repeat split.
    + exact Hp2.
    + intros j Hj. apply Hi2. now apply Hi1.
    + intros j [Hj|Hj] Hlt.
      * subst j. apply Hi2. now apply Hm1.
      * now apply Hm2.
    + cbn [List.length]. lia.
Qed.

(** Every region is in a group whose box is in the result, and there are
    no more boxes than regions. *)
Lemma merge_covers (regions : list Region.t) :
  (forall r, In r regions ->
             exists b, In b (mergeTextRegions regions) /\
                       covers regions b r) /\
  (List.length (mergeTextRegions regions) <= List.length regions)%nat.
Proof.
  unfold mergeTextRegions.
  destruct (merge_loop_placed regions (seq 0 (List.length regions)) ([], []))
    as (Hp & _ & Hm & Hl).
  { intros j []. }
  split.
  - intros r Hr. apply In_nth_error in Hr. destruct Hr as [j Ej].
    assert (Hlt : (j < List.length regions)%nat).
    { apply nth_error_Some. congruence. }
    destruct (Hp j) as [rj [b [E [Hb Hc]]]].
    + apply Hm; [|exact Hlt]. apply in_seq. lia.
    + exists b. split; [exact Hb|].
      assert (rj = r) by congruence. now subst.
  - cbn [List.length fst] in Hl. rewrite length_seq in Hl. lia.
Qed.

(** A region alone in its group is its own box. *)
Lemma box_single (r : Region.t) : calculateBoundingBox r [] = r.
Proof.
  destruct r as [x y w h c]. unfold calculateBoundingBox.
  cbn [map fold_left Region.x Region.y Region.width Region.height
         Region.confidence].
  f_equal; lia.
Qed.

Lemma pairs_nth {A : Type} (R : A -> A -> Prop) (l : list A) :
  ForallOrdPairs R l ->
  forall i j a b, (i < j)%nat -> nth_error l i = Some a ->
                  nth_error l j = Some b -> R a b.
Proof.
  induction 1 as [|x l Hx Hl IH]; intros i j a b Hij Ei Ej.
  - destruct i; discriminate.
  - destruct j as [|j]; [lia|]. cbn [nth_error] in Ej.
    destruct i as [|i]; cbn [nth_error] in Ei.
    + injection Ei as <-. rewrite Forall_forall in Hx. apply Hx.
      eapply nth_error_In; exact Ej.
    + apply (IH i j); [lia | exact Ei | exact Ej].
Qed.

Lemma skipn_nth_error {A : Type} (l : list A) :
  forall k x, nth_error l k = Some x -> skipn k l = x :: skipn (S k) l.
Proof.
  induction l as [|y l IH]; intros k x E.
  - destruct k; discriminate.
  - destruct k as [|k]; cbn [nth_error] in E.
    + injection E as <-. reflexivity.
    + cbn [skipn]. rewrite (IH k x E). reflexivity.
Qed.

(** With no two regions adjacent the inner loop collects nothing and the
    outer loop pushes every region as it is. *)
Lemma merge_apart (regions : list Region.t) :
  ForallOrdPairs (fun a b => areRegionsAdjacent a b = false) regions ->
  forall (n k : nat) (merged : list Region.t) (used : list nat),
    (k + n = List.length regions)%nat ->
    (forall j, In j used -> (j < k)%nat) ->
    fst (fold_left (merge_step regions) (seq k n) (merged, used)) =
    merged ++ skipn k regions.
Proof.
  intros Hap. induction n as [|n IH]; intros k merged used Hk Hu.
  - cbn [seq fold_left fst]. rewrite skipn_all2 by lia.
    now rewrite app_nil_r.
  - cbn [seq fold_left]. unfold merge_step at 2.
    destruct (existsb (Nat.eqb k) used) eqn:Eu.
    { apply existsb_eqb_in in Eu. apply Hu in Eu. lia. }
    destruct (nth_error regions k) as [rk|] eqn:Ek.
    2:{ apply nth_error_None in Ek. lia. }
    rewrite (PaletteMore.fold_left_fixed (absorb regions rk)).
    + rewrite IH.
      * rewrite <- app_assoc. f_equal. cbn [app].
        rewrite box_single.
        rewrite (skipn_nth_error regions k rk Ek). reflexivity.
      * lia.
      * intros j [Hj|Hj]; [lia | apply Hu in Hj; lia].
    + intros j Hj. apply in_seq in Hj. unfold absorb.
      destruct (existsb (Nat.eqb j) (k :: used)); [reflexivity|].
      destruct (nth_error regions j) as [rj|] eqn:Ej; [|reflexivity].
      rewrite (pairs_nth _ regions Hap k j rk rj); [reflexivity | lia | |];
        assumption.
Qed.

End MergeFacts.

(** X6: the bounding box of a group encloses every member of the group,
    and each of its four sides is the side of some member: it is the
    smallest such box. *)
Theorem bounding_box_encloses (seed : Region.t) (rest : list Region.t) :
  let b := calculateBoundingBox seed rest in
  (forall m, In m (seed :: rest) -> inside m b) /\
  (exists m, In m (seed :: rest) /\ Region.x b = Region.x m) /\
  (exists m, In m (seed :: rest) /\ Region.y b = Region.y m) /\
  (exists m, In m (seed :: rest) /\
             Region.x b + Region.width b = Region.x m + Region.width m) /\
  (exists m, In m (seed :: rest) /\
             Region.y b + Region.height b = Region.y m + Region.height m).
Proof.
  cbv zeta. split.
  - intros m Hm. now apply MergeFacts.box_encloses.
  - apply MergeFacts.box_tight.
Qed.

(** X7: [mergeTextRegions] loses no region: every region it is given is
    a member of a group of given regions whose box is returned, so it lies
    inside a returned box whose confidence is at least its own; and no
    more boxes are returned than regions were given. *)
Theorem merge_covers_every_region (regions : list Region.t) :
  (forall r, In r regions ->
     exists b, In b (mergeTextRegions regions) /\
               covers regions b r /\ inside r b /\
               (Region.confidence r <= Region.confidence b)%Q) /\
  (List.length (mergeTextRegions regions) <= List.length regions)%nat.
Proof.
  destruct (MergeFacts.merge_covers regions) as [Hc Hl].
  split; [|exact Hl].
  intros r Hr. destruct (Hc r Hr) as [b [Hb Hcov]].
  exists b. split; [exact Hb|]. split; [exact Hcov|].
  destruct Hcov as [seed [rest [E [Hin _]]]]. subst b. split.
  - now apply MergeFacts.box_encloses.
  - now apply (TextFacts.box_confidence_max seed rest).
Qed.

Lemma merge_covers_every_region_witness :
  exists b, In b (mergeTextRegions chainRegions) /\
            inside (Region.mk 40 0 blockSize blockSize 0.4) b.
Proof.
  destruct (proj1 (merge_covers_every_region chainRegions)
              (Region.mk 40 0 blockSize blockSize 0.4))
    as [b [Hb [_ [Hi _]]]].
  - right. left. reflexivity.
  - exists b. split; assumption.
Defined.

(** X8: when no two of the regions are adjacent, [mergeTextRegions]
    returns them as they are, in the same order. *)
Theorem isolated_regions_unchanged (regions : list Region.t) :
  ForallOrdPairs (fun a b => areRegionsAdjacent a b = false) regions ->
  mergeTextRegions regions = regions.
Proof.
  intros Hap. unfold mergeTextRegions.
  rewrite (MergeFacts.merge_apart regions Hap (List.length regions) 0 [] []).
  - reflexivity.
  - lia.
  - intros j [].
Qed.

Lemma isolated_regions_unchanged_witness :
  mergeTextRegions apartRegions = apartRegions.
Proof.
  apply (isolated_regions_unchanged apartRegions).
  repeat constructor.
Defined.

(** X9: adjacency is symmetric, and two 20x20 cells are adjacent exactly
    when their origins are at most 50 pixels apart in each direction: on
    the 20-pixel grid of the scan, when at most one empty cell lies
    between them. *)
Theorem adjacent_cells (a b : Region.t) (x1 y1 x2 y2 : Z) (c1 c2 : Q) :
  areRegionsAdjacent a b = areRegionsAdjacent b a /\
  (areRegionsAdjacent (Region.mk x1 y1 blockSize blockSize c1)
                      (Region.mk x2 y2 blockSize blockSize c2) = true <->
   Z.abs (x1 - x2) <= 50 /\ Z.abs (y1 - y2) <= 50).
Proof.
  split.
  - unfold areRegionsAdjacent. cbv zeta.
    rewrite (orb_comm (Region.x a + Region.width a <? Region.x b - 30)).
    rewrite (orb_comm (Region.y a + Region.height a <? Region.y b - 30)).
    reflexivity.
  - unfold areRegionsAdjacent, blockSize. cbv zeta.
    cbn [Region.x Region.y Region.width Region.height].
    rewrite andb_true_iff, !negb_true_iff, !orb_false_iff, !Z.ltb_ge.
    lia.
Qed.

(** X10: a group is collected by adjacency to its seed only: a third
    region that is not adjacent to the seed stays a block of its own,
    whether or not it is adjacent to the absorbed one. *)
Theorem merge_by_seed_only (a b c : Region.t) :
  areRegionsAdjacent a b = true -> areRegionsAdjacent a c = false ->
  mergeTextRegions [a; b; c] = [calculateBoundingBox a [b]; c].
Proof.
  intros Hab Hac. unfold mergeTextRegions.
  cbn [List.length seq fold_left Nat.sub].
  unfold merge_step at 3. cbn [existsb nth_error List.length Nat.sub seq].
  cbn [fold_left]. unfold absorb at 2.
  cbn [existsb Nat.eqb orb nth_error]. rewrite Hab.
  unfold absorb. cbn [existsb Nat.eqb orb nth_error]. rewrite Hac.
  unfold merge_step at 2. cbn [existsb Nat.eqb orb].
  unfold merge_step. cbn [existsb Nat.eqb orb nth_error List.length Nat.sub seq].
  cbn [fold_left fst app]. now rewrite MergeFacts.box_single.
Qed.

Lemma merge_by_seed_only_witness :
  mergeTextRegions chainRegions =
  [calculateBoundingBox (Region.mk 0 0 blockSize blockSize 0.5)
     [Region.mk 40 0 blockSize blockSize 0.4];
   Region.mk 80 0 blockSize blockSize 0.6] /\
  areRegionsAdjacent (Region.mk 40 0 blockSize blockSize 0.4)
                     (Region.mk 80 0 blockSize blockSize 0.6) = true.
Proof.
  split; [|reflexivity].
  apply (merge_by_seed_only (Region.mk 0 0 blockSize blockSize 0.5)
           (Region.mk 40 0 blockSize blockSize 0.4)
           (Region.mk 80 0 blockSize blockSize 0.6)); reflexivity.
Defined.

Module BlockFacts.

(** A raw region is a 20x20 cell of the scan. *)
Lemma raw_cell (img : ImageData) (r : Region.t) :
  In r (rawTextRegions img) ->
  (0 <= Region.x r < width img - blockSize /\ Region.x r mod blockSize = 0) /\
  (0 <= Region.y r < height img - blockSize /\ Region.y r mod blockSize = 0) /\
  Region.width r = blockSize /\ Region.height r = blockSize.
Proof.
  intros Hr. apply TextFacts.in_rawTextRegions in Hr.
  destruct Hr as (x & y & s & Hc & _ & _ & ->).
  apply TextFacts.in_candidateCells in Hc.
  cbn [Region.x Region.y Region.width Region.height]. tauto.
Qed.

Lemma multiple_diff (a b : Z) :
  a mod blockSize = 0 -> b mod blockSize = 0 ->
  (b + blockSize - a) mod blockSize = 0.
Proof.
  unfold blockSize. intros Ha Hb.
  pose proof (Z.div_mod a 20). pose proof (Z.div_mod b 20).
  replace (b + 20 - a) with ((b / 20 + 1 - a / 20) * 20) by lia.
  apply Z.mod_mul. lia.
Qed.

(** Every cell of a checkered image is kept, with score 1. *)
Lemma checkered_raw (img : ImageData) (cells : list (Z * Z)) :
  wf_image img -> checkered img ->
  (forall c, In c cells -> in_bounds img (fst c) (snd c)) ->
  Forall2
    (fun c r =>
       Region.x r = fst c /\ Region.y r = snd c /\
       Region.width r = blockSize /\ Region.height r = blockSize /\
       (Region.confidence r == 1)%Q)
    cells (flat_map (rawRegion img) cells).
Proof.
  intros Hwf Hch. induction cells as [|c cells IH]; intros Hb.
  - constructor.
  - cbn [flat_map].
    destruct (CheckerFacts.score_checkered img (fst c) (snd c) Hwf Hch)
      as [s [Hs E]].
    { apply Hb. now left. }
    assert (Hgt : JS.gt s 0.3 = true)
      by (apply NumFacts.gt_true; rewrite E; reflexivity).
    destruct c as [x y]. cbn [fst snd] in *.
    rewrite TextFacts.rawRegion_eq, Hs. unfold keepRegion. rewrite Hgt.
    cbn [app]. constructor.
    + cbn [Region.x Region.y Region.width Region.height Region.confidence].
      repeat split; assumption.
    + apply IH. intros c Hc. apply Hb. now right.
Qed.

Lemma cells_in_bounds (img : ImageData) (c : Z * Z) :
  In c (candidateCells (width img) (height img)) ->
  in_bounds img (fst c) (snd c).
Proof.
  destruct c as [x y]. intros H. apply TextFacts.in_candidateCells in H.
  unfold in_bounds. cbn [fst snd]. lia.
Qed.

Lemma checkered_detected (img : ImageData) :
  wf_image img -> checkered img ->
  blockSize < width img -> blockSize < height img ->
  exists b, In b (detectTextRegions img).
Proof.
  intros Hwf Hch Hw Hh.
  pose proof (checkered_raw img (candidateCells (width img) (height img))
                Hwf Hch (cells_in_bounds img)) as HF.
  assert (Hc : In (0, 0) (candidateCells (width img) (height img))).
  { apply TextFacts.in_candidateCells. unfold blockSize in *.
    repeat split; try lia; reflexivity. }
  fold (rawTextRegions img) in HF. unfold detectTextRegions.
  destruct (rawTextRegions img) as [|r raw] eqn:Er.
  - inversion HF as [E|]. rewrite <- E in Hc. destruct Hc.
  - destruct (proj1 (MergeFacts.merge_covers (r :: raw)) r) as [b [Hb _]].
    + now left.
    + now exists b.
Qed.

Lemma checkerboard_21_wf : wf_image (checkerboard 21 21).
Proof. apply ImageFacts.wf_imageb_sound. vm_compute. reflexivity. Qed.

Lemma checkerboard_21_checkered : checkered (checkerboard 21 21).
Proof. apply CheckerFacts.checkeredb_sound. vm_compute. reflexivity. Qed.

End BlockFacts.

(** X11: every block of [detectTextRegions] lies inside the image and
    stops short of its right and bottom edges (the scan never visits a
    cell that touches them); its origin and its sizes are multiples of the
    20-pixel cell, and it is at least one cell wide and high. *)
Theorem text_blocks_inside_image (img : ImageData) (b : Region.t) :
  In b (detectTextRegions img) ->
  0 <= Region.x b /\ 0 <= Region.y b /\
  Region.x b + Region.width b < width img /\
  Region.y b + Region.height b < height img /\
  blockSize <= Region.width b /\ blockSize <= Region.height b /\
  Region.x b mod blockSize = 0 /\ Region.y b mod blockSize = 0 /\
  Region.width b mod blockSize = 0 /\ Region.height b mod blockSize = 0.
Proof.
  intros Hb. unfold detectTextRegions in Hb.
  apply TextFacts.merged_is_group_box in Hb.
  destruct Hb as [seed [rest [-> Hincl]]].
  destruct (MergeFacts.box_tight seed rest)
    as ((m1 & H1 & E1) & (m2 & H2 & E2) & (m3 & H3 & E3) & (m4 & H4 & E4)).
  pose proof (MergeFacts.box_encloses seed rest m3 H3) as (I3 & _ & _ & _).
  pose proof (MergeFacts.box_encloses seed rest m4 H4) as (_ & I4 & _ & _).
  destruct (BlockFacts.raw_cell img m1 (Hincl m1 H1)) as ((R1 & M1) & _).
  destruct (BlockFacts.raw_cell img m2 (Hincl m2 H2)) as (_ & (R2 & M2) & _).
  destruct (BlockFacts.raw_cell img m3 (Hincl m3 H3))
    as ((R3 & M3) & _ & W3 & _).
  destruct (BlockFacts.raw_cell img m4 (Hincl m4 H4))
    as (_ & (R4 & M4) & _ & W4).
  set (b := calculateBoundingBox seed rest) in *.
  assert (Ew : Region.width b = Region.x m3 + blockSize - Region.x m1)
    by lia.
  assert (Eh : Region.height b = Region.y m4 + blockSize - Region.y m2)
    by lia.
  repeat split; try lia.
  - rewrite E1. exact M1.
  - rewrite E2. exact M2.
  - rewrite Ew. now apply BlockFacts.multiple_diff.
  - rewrite Eh. now apply BlockFacts.multiple_diff.
Qed.

(** X12: in a well-formed image whose pixels alternate between black and
    white in both directions every cell of the scan is kept as a raw
    region with score 1, in scan order; so text blocks are detected as
    soon as the image is more than 20 pixels wide and high. *)
Theorem checkered_cells_are_text (img : ImageData) :
  wf_image img -> checkered img ->
  Forall2
    (fun c r =>
       Region.x r = fst c /\ Region.y r = snd c /\
       Region.width r = blockSize /\ Region.height r = blockSize /\
       (Region.confidence r == 1)%Q)
    (candidateCells (width img) (height img)) (rawTextRegions img) /\
  (blockSize < width img -> blockSize < height img ->
   detectTextRegions img <> []).
Proof.
  intros Hwf Hch.
  pose proof (BlockFacts.checkered_raw img
                (candidateCells (width img) (height img)) Hwf Hch
                (BlockFacts.cells_in_bounds img)) as HF.
  split; [exact HF|].
  intros Hw Hh Hnil.
  destruct (BlockFacts.checkered_detected img Hwf Hch Hw Hh) as [b Hb].
  rewrite Hnil in Hb. destruct Hb.
Qed.

Lemma checkered_cells_are_text_witness :
  detectTextRegions (checkerboard 21 21) <> [].
Proof.
  apply (checkered_cells_are_text (checkerboard 21 21)
           BlockFacts.checkerboard_21_wf BlockFacts.checkerboard_21_checkered);
    reflexivity.
Defined.

Lemma text_blocks_inside_image_witness :
  exists b,
    In b (detectTextRegions (checkerboard 21 21)) /\
    Region.x b + Region.width b < 21.
Proof.
  destruct (BlockFacts.checkered_detected (checkerboard 21 21)
              BlockFacts.checkerboard_21_wf
              BlockFacts.checkerboard_21_checkered)
    as [b Hb]; [reflexivity | reflexivity |].
  exists b. split; [exact Hb|].
  apply (text_blocks_inside_image (checkerboard 21 21) b Hb).
Defined.

(* ================================================================= *)
(** * More on the margins *)

Module MarginFacts.












End MarginFacts.





(* ================================================================= *)
(** * More on the sections *)

Module ScanFacts.

(** The goals [s = section_of .. /\ content_run .. /\ ..] whose first
    parts are hypotheses. *)
Ltac closed_run := split; [assumption | split; [assumption | split; [|assumption]]].

(** The run of content rows that ends at row [k - 1] starts at one row
    only. *)
Lemma run_start_unique (img : ImageData) (k y start : Z) :
  0 <= y < k -> (forall z, y <= z < k -> hasContent img z = true) ->
  (y = 0 \/ hasContent img (y - 1) = false) ->
  0 <= start < k -> (forall z, start <= z < k -> hasContent img z = true) ->
  (start = 0 \/ hasContent img (start - 1) = false) ->
  y = start.
Proof.
  intros Hy Hyc Hyb Hs Hsc Hsb.
  destruct (Z.lt_trichotomy y start) as [Hlt|[Heq|Hgt]]; [|exact Heq|].
  - destruct Hsb as [Hsb|Hsb]; [lia|].
    rewrite Hyc in Hsb by lia. discriminate.
  - destruct Hyb as [Hyb|Hyb]; [lia|].
    rewrite Hsc in Hyb by lia. discriminate.
Qed.

Lemma run_not_ending_on_content (img : ImageData) (k y h : Z) :
  k < height img -> hasContent img k = true -> content_run img y h ->
  y + h < k + 1 -> y + h < k.
Proof.
  intros Hk Ec (_ & _ & _ & _ & _ & [Hend|Hend]) Hlt; [lia|].
  destruct (Z.eq_dec (y + h) k) as [E|E]; [|lia].
  rewrite E in Hend. congruence.
Qed.

Lemma section_step_inv (img : ImageData) (k : Z) (st : SectionScan) :
  0 <= k < height img -> scan_inv img k st ->
  scan_inv img (k + 1) (section_step img st k).
Proof.
  intros Hk (Hin & Hout & Hsec). unfold section_step. cbv zeta.
  destruct (hasContent img k) eqn:Ec; destruct (inSection st) eqn:Ei;
    cbn [andb negb]; unfold scan_inv;
    cbn [inSection sectionStart sections]; rewrite ?Ei.
  - (* a content row inside a section *)
    destruct (Hin eq_refl) as (H1 & H2 & H3). split; [|split].
    + intros _. repeat split; try lia; [|exact H3].
      intros z Hz. destruct (Z.eq_dec z k) as [->|]; [exact Ec|].
      apply H2. lia.
    + discriminate.
    + intros s. rewrite Hsec.
      split; intros (y & h & E & Hr & Hlt & Ht); exists y, h;
        closed_run; [lia|].
      apply (run_not_ending_on_content img k y h); try assumption; lia.
  - (* a content row opens a section *)
    split; [|split].
    + intros _. repeat split; try lia.
      * intros z Hz. assert (z = k) by lia. now subst.
      * destruct (Hout eq_refl) as [E|E]; [left; exact E | right; exact E].
    + discriminate.
    + intros s. rewrite Hsec.
      split; intros (y & h & E & Hr & Hlt & Ht); exists y, h;
        closed_run; [lia|].
      apply (run_not_ending_on_content img k y h); try assumption; lia.
  - (* a row without content closes the section *)
    destruct (Hin eq_refl) as (H1 & H2 & H3).
    assert (Hrun : content_run img (sectionStart st) (k - sectionStart st)).
    { repeat split; try lia.
      - intros z Hz. apply H2. lia.
      - exact H3.
      - right. replace (sectionStart st + (k - sectionStart st)) with k
          by lia. exact Ec. }
    split; [|split].
    + discriminate.
    + intros _. right. replace (k + 1 - 1) with k by lia. exact Ec.
    + intros s.
      assert (Huniq : forall y h, content_run img y h -> y + h = k ->
                                  y = sectionStart st /\
                                  h = k - sectionStart st).
      { intros y h (Hy0 & Hh0 & _ & Hyc & Hyb & _) E.
        assert (y = sectionStart st).
        { apply (run_start_unique img k); try assumption; try lia.
          intros z Hz. apply Hyc. lia. }
        lia. }
      destruct (JS.gt (inject_Z (k - sectionStart st))
                  (inject_Z (height img) * 0.05)%Q) eqn:Eg.
      * apply SectionFacts.gt_twentieth in Eg.
        rewrite in_app_iff, Hsec. cbn [In]. split.
        -- intros [(y & h & E & Hr & Hlt & Ht)|[E|[]]].
           ++ exists y, h. closed_run. lia.
           ++ exists (sectionStart st), (k - sectionStart st).
              split; [now symmetry | split; [exact Hrun | lia]].
        -- intros (y & h & E & Hr & Hlt & Ht).
           destruct (Z.eq_dec (y + h) k) as [Ek|Ek].
           ++ right. left. destruct (Huniq y h Hr Ek) as [-> ->].
              now symmetry.
           ++ left. exists y, h. closed_run. lia.
      * assert (Hshort : ~ height img < 20 * (k - sectionStart st)).
        { intros Hc. apply SectionFacts.gt_twentieth in Hc. congruence. }
        rewrite Hsec. split.
        -- intros (y & h & E & Hr & Hlt & Ht).
           exists y, h. closed_run. lia.
        -- intros (y & h & E & Hr & Hlt & Ht).
           destruct (Z.eq_dec (y + h) k) as [Ek|Ek].
           ++ destruct (Huniq y h Hr Ek) as [-> ->]. contradiction.
           ++ exists y, h. closed_run. lia.
  - (* a row without content outside a section *)
    split; [|split].
    + discriminate.
    + intros _. right. replace (k + 1 - 1) with k by lia. exact Ec.
    + intros s. rewrite Hsec. split.
      * intros (y & h & E & Hr & Hlt & Ht).
        exists y, h. closed_run. lia.
      * intros (y & h & E & Hr & Hlt & Ht).
        exists y, h. closed_run.
        destruct (Z.eq_dec (y + h) k) as [Ek|Ek]; [|lia].
        destruct Hr as (Hy0 & Hh0 & _ & Hyc & _ & _).
        destruct (Hout eq_refl) as [E0|E0]; [lia|].
        rewrite Hyc in E0 by lia. discriminate.
Qed.

Lemma range_snoc (k : Z) :
  0 <= k -> JS.for_range 0 (k + 1) 1 = JS.for_range 0 k 1 ++ [k].
Proof.
  intros Hk. rewrite (JSFacts.for_range_split 0 k (k + 1)) by lia.
  f_equal. rewrite (JSFacts.for_range_unfold k (k + 1) 1) by lia.
  destruct (Z.ltb_spec k (k + 1)); [|lia].
  now rewrite JSFacts.for_range_empty by lia.
Qed.

Lemma scan_loop_inv (img : ImageData) (n : nat) :
  Z.of_nat n <= height img ->
  scan_inv img (Z.of_nat n)
    (fold_left (section_step img) (JS.for_range 0 (Z.of_nat n) 1)
       (mkScan [] 0 false)).
Proof.
  induction n as [|n IH]; intros Hn.
  - rewrite JSFacts.for_range_empty by lia. cbn [fold_left].
    unfold scan_inv. cbn [inSection sectionStart sections]. split; [|split].
    + discriminate.
    + intros _. now left.
    + intros s. split; [intros [] |].
      intros (y & h & _ & (Hy & Hh & _) & Hlt & _). lia.
  - rewrite Nat2Z.inj_succ. unfold Z.succ.
    rewrite range_snoc by lia. rewrite fold_left_app. cbn [fold_left].
    apply section_step_inv; [lia|]. apply IH. lia.
Qed.


Lemma sorted_snoc {A : Type} (R : A -> A -> Prop) (l : list A) (x : A) :
  StronglySorted R l -> (forall a, In a l -> R a x) ->
  StronglySorted R (l ++ [x]).
Proof.
  induction 1 as [|a l Hl IH Ha]; intros Hx; cbn [app].
  - repeat constructor.
  - constructor.
    + apply IH. intros b Hb. apply Hx. now right.
    + apply Forall_app. split; [exact Ha|].
      constructor; [|constructor]. apply Hx. now left.
Qed.

(** A section pushed earlier ends above the open section. *)
Lemma closed_before_open (img : ImageData) (k : Z) (st : SectionScan)
    (s : Sec.t) :
  k <= height img ->
  scan_inv img k st -> inSection st = true -> In s (sections st) ->
  Sec.y s + Sec.height s < sectionStart st.
Proof.
  intros Hk (Hin & _ & Hsec) Ei Hs. destruct (Hin Ei) as (H1 & H2 & _).
  apply Hsec in Hs. destruct Hs as (y & h & -> & Hr & Hlt & _).
  cbn [section_of Sec.y Sec.height].
  destruct Hr as (_ & _ & _ & _ & _ & [Hend|Hend]); [lia|].
  destruct (Z_lt_ge_dec (y + h) (sectionStart st)) as [Hl|Hg]; [exact Hl|].
  rewrite H2 in Hend by lia. discriminate.
Qed.

Lemma section_step_sorted (img : ImageData) (k : Z) (st : SectionScan) :
  k <= height img -> scan_inv img k st ->
  StronglySorted (fun a b => Sec.y a + Sec.height a < Sec.y b) (sections st) ->
  StronglySorted (fun a b => Sec.y a + Sec.height a < Sec.y b)
    (sections (section_step img st k)).
Proof.
  intros Hk Hinv Hs. unfold section_step. cbv zeta.
  destruct (hasContent img k && negb (inSection st)); [exact Hs|].
  destruct (negb (hasContent img k) && inSection st) eqn:E; [|exact Hs].
  cbn [sections].
  destruct (JS.gt _ _); [|exact Hs].
  apply andb_true_iff in E. destruct E as [_ Ei].
  apply sorted_snoc; [exact Hs|].
  intros a Ha. cbn [Sec.y].
  now apply (closed_before_open img k st a Hk Hinv Ei).
Qed.

Lemma scan_loop_sorted (img : ImageData) (n : nat) :
  Z.of_nat n <= height img ->
  StronglySorted (fun a b => Sec.y a + Sec.height a < Sec.y b)
    (sections
       (fold_left (section_step img) (JS.for_range 0 (Z.of_nat n) 1)
          (mkScan [] 0 false))).
Proof.
  induction n as [|n IH]; intros Hn.
  - rewrite JSFacts.for_range_empty by lia. constructor.
  - rewrite Nat2Z.inj_succ. unfold Z.succ.
    rewrite range_snoc by lia. rewrite fold_left_app. cbn [fold_left].
    apply (section_step_sorted img (Z.of_nat n)).
    + lia.
    + apply scan_loop_inv. lia.
    + apply IH. lia.
Qed.

Lemma sections_sorted (img : ImageData) :
  StronglySorted (fun a b => Sec.y a + Sec.height a < Sec.y b)
    (detectSections img).
Proof.
  unfold detectSections. cbv zeta.
  destruct (Z_le_gt_dec (height img) 0) as [Hneg|Hpos].
  - rewrite JSFacts.for_range_empty by lia. cbn [fold_left inSection sections].
    constructor.
  - pose proof (scan_loop_inv img (Z.to_nat (height img))) as Hinv.
    pose proof (scan_loop_sorted img (Z.to_nat (height img))) as Hs.
    rewrite Z2Nat.id in Hinv, Hs by lia.
    specialize (Hinv (Z.le_refl _)). specialize (Hs (Z.le_refl _)).
    destruct (inSection _) eqn:Ei; [|exact Hs].
    apply sorted_snoc; [exact Hs|].
    intros a Ha. cbn [Sec.y].
    now apply (closed_before_open img (height img) _ a (Z.le_refl _) Hinv Ei).
Qed.

End ScanFacts.


(** X16: the sections are returned from top to bottom and at least one
    row without content separates each from the next: no two overlap or
    touch. *)
Theorem sections_top_to_bottom (img : ImageData) :
  StronglySorted (fun a b => Sec.y a + Sec.height a < Sec.y b)
    (detectSections img).
Proof. apply ScanFacts.sections_sorted. Qed.

(* ================================================================= *)
(** * More on the design elements *)

Module LineFacts.





End LineFacts.


(* ================================================================= *)
(** * More on the grid *)

Module GridMore.

Lemma last_default (l : list Z) (b d d' : Z) :
  last (b :: l) d = last (b :: l) d'.
Proof.
  revert b. induction l as [|c l IH]; intros b; [reflexivity|].
  change (last (b :: c :: l) d) with (last (c :: l) d).
  change (last (b :: c :: l) d') with (last (c :: l) d').
  apply IH.
Qed.

(** The gaps between consecutive elements add up to the distance from
    the first to the last. *)
Lemma sum_gaps (l : list Z) (a : Z) :
  sum (gaps (a :: l)) = last (a :: l) a - a.
Proof.
  revert a. induction l as [|b l IH]; intros a.
  - unfold sum. cbn [gaps last fold_left]. lia.
  - change (gaps (a :: b :: l)) with ((b - a) :: gaps (b :: l)).
    rewrite PaletteMore.sum_cons, IH.
    change (last (a :: b :: l) a) with (last (b :: l) a).
    rewrite (last_default l b a b). lia.
Qed.

Lemma sorted_ends (l : list Z) (a : Z) :
  StronglySorted Z.le (a :: l) ->
  forall v, In v (a :: l) -> a <= v <= last (a :: l) a.
Proof.
  revert a. induction l as [|b l IH]; intros a Hs v Hv.
  - destruct Hv as [<-|[]]. cbn [last]. lia.
  - apply StronglySorted_inv in Hs. destruct Hs as [Hs Ha].
    rewrite Forall_forall in Ha.
    change (last (a :: b :: l) a) with (last (b :: l) a).
    rewrite (last_default l b a b).
    assert (Hab : a <= b) by (apply Ha; now left).
    destruct Hv as [<-|Hv].
    + pose proof (IH b Hs b (or_introl eq_refl)). lia.
    + pose proof (IH b Hs v Hv). lia.
Qed.

Lemma last_in (l : list Z) (a : Z) : In (last (a :: l) a) (a :: l).
Proof.
  revert a. induction l as [|b l IH]; intros a.
  - now left.
  - change (last (a :: b :: l) a) with (last (b :: l) a).
    rewrite (last_default l b a b). right. apply IH.
Qed.

Lemma round10_multiple (x : Z) : round10 x mod 10 = 0.
Proof. unfold round10. apply Z.mod_mul. lia. Qed.

Lemma multiples_apart (a b : Z) :
  a mod 10 = 0 -> b mod 10 = 0 -> a < b ->
  10 <= b - a /\ (b - a) mod 10 = 0.
Proof.
  intros Ha Hb Hlt.
  pose proof (Z.div_mod a 10). pose proof (Z.div_mod b 10).
  split; [lia|].
  replace (b - a) with ((b / 10 - a / 10) * 10) by lia.
  apply Z.mod_mul. lia.
Qed.

(** [Math.ceil(n / c)] as the integer division of the model. *)
Lemma ceil_bounds (n c : Z) :
  1 <= c <= n ->
  let r := (n + c - 1) / c in
  1 <= r <= n /\ n <= r * c < n + c.
Proof.
  intros Hc. cbv zeta.
  pose proof (Z.div_mod (n + c - 1) c).
  pose proof (Z.mod_pos_bound (n + c - 1) c).
  nia.
Qed.

Lemma rows_eq (textBlocks : list Region.t) :
  (2 <= List.length textBlocks)%nat ->
  let g := detectGridStructure textBlocks in
  rows g =
  (Z.of_nat (List.length textBlocks) + columns g - 1) / columns g.
Proof.
  intros Hlen. cbv zeta. unfold detectGridStructure.
  destruct (Z.ltb_spec (Z.of_nat (List.length textBlocks)) 2); [lia|].
  reflexivity.
Qed.

End GridMore.

(** X18: for two blocks or more, the grid has between 1 column and as
    many columns as blocks; [rows] is the least number of rows of that
    many columns that hold every block; the gutter stored under
    [horizontal], the average gap between consecutive top edges, is the
    distance from the highest to the lowest top edge divided by the
    number of blocks less one; and the gutter stored under [vertical] is
    0 when there is one column and otherwise a multiple of 10 that is at
    least 10. *)
Theorem grid_shape (textBlocks : list Region.t) :
  (2 <= List.length textBlocks)%nat ->
  let g := detectGridStructure textBlocks in
  let n := Z.of_nat (List.length textBlocks) in
  1 <= columns g <= n /\
  1 <= rows g <= n /\
  n <= rows g * columns g < n + columns g /\
  (exists lo hi,
      In lo (map Region.y textBlocks) /\ In hi (map Region.y textBlocks) /\
      (forall b, In b textBlocks -> lo <= Region.y b <= hi) /\
      horizontal (gutters g) = (inject_Z (hi - lo) / inject_Z (n - 1))%Q) /\
  ((columns g = 1 /\ vertical (gutters g) = 0) \/
   (10 <= vertical (gutters g) /\ vertical (gutters g) mod 10 = 0)).
Proof.
  intros Hlen g n.
  destruct (grid_structure textBlocks Hlen) as (Hc & (Hs & Hp) & Hh & Hv).
  fold g in Hc, Hh, Hv.
  assert (Hcols : 1 <= columns g <= n).
  { rewrite Hc. unfold n. split.
    - destruct textBlocks as [|b t]; [cbn in Hlen; lia|].
      assert (Hin : In (round10 (Region.x b))
                      (nodup Z.eq_dec (roundedLefts (b :: t)))).
      { apply nodup_In. now left. }
      destruct (nodup Z.eq_dec (roundedLefts (b :: t))); [destruct Hin|].
      cbn [List.length]. lia.
    - apply inj_le.
      rewrite <- (length_map (fun b => round10 (Region.x b)) textBlocks).
      apply NoDup_incl_length; [apply NoDup_nodup|].
      intros v Hv'. now apply nodup_In in Hv'. }
  pose proof (GridMore.rows_eq textBlocks Hlen) as Hr. cbv zeta in Hr.
  fold g n in Hr.
  destruct (GridMore.ceil_bounds n (columns g) Hcols) as [Hr1 Hr2].
  rewrite <- Hr in Hr1, Hr2.
  split; [exact Hcols|]. split; [exact Hr1|]. split; [exact Hr2|].
  split.
  - destruct (sortedTops textBlocks) as [|a tops] eqn:Et.
    { apply Permutation_length in Hp. rewrite length_map in Hp.
      cbn in Hp. lia. }
    exists a, (last (a :: tops) a).
    split; [|split; [|split]].
    + apply (Permutation_in _ Hp). now left.
    + apply (Permutation_in _ Hp). apply GridMore.last_in.
    + intros b Hb. apply (GridMore.sorted_ends tops a Hs).
      apply (Permutation_in _ (Permutation_sym Hp)). now apply in_map.
    + rewrite Hh. unfold average.
      rewrite GridMore.sum_gaps, GridFacts.gaps_length.
      apply Permutation_length in Hp. rewrite length_map in Hp.
      rewrite Hp. unfold n.
      rewrite Nat2Z.inj_sub by lia. reflexivity.
  - destruct Hv as [Hv|(m1 & m2 & H1 & H2 & Hlt & _ & Hv)]; [now left|].
    right. rewrite Hv. apply GridMore.multiples_apart; [| |exact Hlt].
    + unfold roundedLefts in H1. apply in_map_iff in H1.
      destruct H1 as [b [<- _]]. apply GridMore.round10_multiple.
    + unfold roundedLefts in H2. apply in_map_iff in H2.
      destruct H2 as [b [<- _]]. apply GridMore.round10_multiple.
Qed.

Lemma grid_shape_witness :
  let g := detectGridStructure twoBlocks in
  1 <= rows g <= 2 /\ 2 <= rows g * columns g < 2 + columns g.
Proof.
  destruct (grid_shape twoBlocks) as (_ & Hr & Hrc & _).
  - cbn. lia.
  - cbv zeta. split; [exact Hr | exact Hrc].
Defined.

(* ================================================================= *)
(** * More on the fonts and the entry points *)

Module FontFacts.

Lemma fonts_add_in (fonts : list string) (name n : string) :
  In n (fonts_add fonts name) <-> In n fonts \/ n = name.
Proof.
  unfold fonts_add.
  destruct (existsb (String.eqb name) fonts) eqn:E.
  - split; [now left|]. intros [H| ->]; [exact H|].
    apply existsb_exists in E. destruct E as [m [Hm Em]].
    apply String.eqb_eq in Em. now subst.
  - rewrite in_app_iff. cbn [In]. split.
    + intros [H|[H|[]]]; [now left | right; now symmetry].
    + intros [H|H]; [now left | right; left; now symmetry].
Qed.

Lemma fonts_add_NoDup (fonts : list string) (name : string) :
  NoDup fonts -> NoDup (fonts_add fonts name).
Proof.
  intros Hnd. unfold fonts_add.
  destruct (existsb (String.eqb name) fonts) eqn:E; [exact Hnd|].
  apply NoDup_app; [exact Hnd | repeat constructor; intros [] |].
  intros n Hn [En|[]]. subst name.
  assert (Ht : existsb (String.eqb n) fonts = true).
  { apply existsb_exists. exists n. split; [exact Hn|].
    apply String.eqb_refl. }
  congruence.
Qed.

Lemma fonts_loop (items : list TextItem) :
  forall acc,
    NoDup acc ->
    let fonts :=
      fold_left
        (fun fonts item =>
           match fontName item with
           | Some name =>
               if String.eqb name EmptyString then fonts
               else fonts_add fonts name
           | None => fonts
           end)
        items acc in
    NoDup fonts /\
    forall name,
      In name fonts <->
      In name acc \/
      (name <> EmptyString /\ In (mkItem (Some name)) items).
Proof.
  induction items as [|[fn] items IH]; intros acc Hnd; cbv zeta;
    cbn [fold_left fontName].
  - split; [exact Hnd|]. intros name. split; [now left|].
    intros [H|[_ []]]. exact H.
  - destruct fn as [n|].
    + destruct (String.eqb_spec n EmptyString) as [->|Hne].
      * destruct (IH acc Hnd) as [H1 H2]. split; [exact H1|].
        intros name. rewrite H2. cbn [In]. split.
        -- intros [H|[Hn H]]; [now left | right; split; [exact Hn|]].
           now right.
        -- intros [H|[Hn [H|H]]]; [now left | | right; now split].
           injection H as <-. now contradiction Hn.
      * destruct (IH (fonts_add acc n) (fonts_add_NoDup acc n Hnd))
          as [H1 H2].
        split; [exact H1|].
        intros name. rewrite H2, fonts_add_in. cbn [In]. split.
        -- intros [[H| ->]|[Hn H]].
           ++ now left.
           ++ right. split; [exact Hne | now left].
           ++ right. split; [exact Hn | now right].
        -- intros [H|[Hn [H|H]]].
           ++ left. now left.
           ++ injection H as <-. left. now right.
           ++ right. now split.
    + destruct (IH acc Hnd) as [H1 H2]. split; [exact H1|].
      intros name. rewrite H2. cbn [In]. split.
      * intros [H|[Hn H]]; [now left | right; split; [exact Hn|]].
        now right.
      * intros [H|[Hn [H|H]]]; [now left | discriminate | right; now split].
Qed.

End FontFacts.

(** X19: the fonts of a PDF are the names of its text items, each once:
    [analyzeTextContent] returns a list without repetition whose members
    are exactly the non-empty [fontName]s of the items (an item with no
    name or an empty name adds nothing). *)
Theorem fonts_are_distinct_names (items : list TextItem) :
  NoDup (analyzeTextContent items) /\
  forall name,
    In name (analyzeTextContent items) <->
    name <> EmptyString /\ In (mkItem (Some name)) items.
Proof.
  destruct (FontFacts.fonts_loop items [] (NoDup_nil _)) as [H1 H2].
  split; [exact H1|].
  intros name. unfold analyzeTextContent. rewrite H2. cbn [In]. tauto.
Qed.

Module EntryMore.

Lemma analyzeTemplate_cases (file : File) (st : Results.t) :
  analyzeTemplate file st = (Rejected "Unsupported file type", st) \/
  (exists message, analyzeTemplate file st = (Rejected message, st)) \/
  (exists img fonts,
      decoded file = inl img /\
      (fonts = Results.fonts st \/
       fonts = analyzeTextContent (textItems file)) /\
      analyzeTemplate file st =
      (Resolved,
       freshResults img fonts (Layout.imageAreas (Results.layout st))) /\
      forall st',
        Results.fonts st' = fonts ->
        Layout.imageAreas (Results.layout st')
          = Layout.imageAreas (Results.layout st) ->
        analyzeTemplate file st' = analyzeTemplate file st).
Proof.
  unfold analyzeTemplate.
  destruct (String.prefix "image/" (type file)).
  - destruct (decoded file) as [img|e] eqn:Ed.
    + right. right. exists img, (Results.fonts st).
      split; [reflexivity|]. split; [now left|].
      rewrite (EntryFacts.analyzeImage_frame file img st Ed).
      split; [reflexivity|].
      intros st' Hf Ha.
      rewrite (EntryFacts.analyzeImage_frame file img st' Ed).
      now rewrite Hf, Ha.
    + right. left. unfold analyzeImage. rewrite Ed. eauto.
  - destruct (String.eqb (type file) "application/pdf").
    + destruct (decoded file) as [img|e] eqn:Ed.
      * right. right. exists img, (analyzeTextContent (textItems file)).
        split; [reflexivity|]. split; [now right|].
        rewrite (EntryFacts.analyzePDF_frame file img st Ed).
        split; [reflexivity|].
        intros st' Hf Ha.
        rewrite (EntryFacts.analyzePDF_frame file img st' Ed).
        now rewrite Ha.
      * right. left. unfold analyzePDF. rewrite Ed. eauto.
    + now left.
Qed.

Lemma reachable_imageAreas (st : Results.t) :
  reachable st -> Layout.imageAreas (Results.layout st) = [].
Proof.
  induction 1 as [|file st Hr IH|st Hr IH]; try reflexivity.
  destruct (analyzeTemplate_cases file st)
    as [E|[[m E]|(img & fonts & _ & _ & E & _)]]; rewrite E; cbn [snd].
  - exact IH.
  - exact IH.
  - exact IH.
Qed.

End EntryMore.

(** X20: analysing the same file again changes nothing: whatever the
    state and the file, a second [analyzeTemplate] of the file settles as
    the first did and leaves the state the first left. *)
Theorem analyzeTemplate_idempotent (file : File) (st : Results.t) :
  analyzeTemplate file (snd (analyzeTemplate file st)) =
  analyzeTemplate file st.
Proof.
  destruct (EntryMore.analyzeTemplate_cases file st)
    as [E|[[m E]|(img & fonts & Hd & Hf & E & Hsame)]].
  - rewrite E. cbn [snd]. exact E.
  - rewrite E. cbn [snd]. exact E.
  - rewrite E at 1. cbn [snd]. apply Hsame.
    + reflexivity.
    + reflexivity.
Qed.

(** X21: in every state the application can reach, [layout.imageAreas]
    is empty (nothing ever fills it), and the state is either the object
    of the constructor or the complete analysis of one raster:
    dimensions, palette, sections, text blocks, grid, margins and design
    elements all of the same image, never a mixture of two (the fonts
    alone may be those of an earlier PDF). *)
Theorem reachable_states (st : Results.t) :
  reachable st ->
  Layout.imageAreas (Results.layout st) = [] /\
  (st = initialResults \/
   exists img, st = freshResults img (Results.fonts st) []).
Proof.
  intros Hr. split; [now apply EntryMore.reachable_imageAreas|].
  induction Hr as [|file st Hr IH|st Hr IH].
  - now left.
  - pose proof (EntryMore.reachable_imageAreas st Hr) as Ha.
    destruct (EntryMore.analyzeTemplate_cases file st)
      as [E|[[m E]|(img & fonts & _ & _ & E & _)]]; rewrite E; cbn [snd].
    + exact IH.
    + exact IH.
    + right. exists img. rewrite Ha. reflexivity.
  - now left.
Qed.

Lemma reachable_states_witness :
  Layout.imageAreas
    (Results.layout (snd (analyzeTemplate pngFile initialResults))) = [].
Proof.
  apply (reachable_states (snd (analyzeTemplate pngFile initialResults))).
  apply reach_analyze. apply reach_new.
Defined.

(** X22: a file that [isValidTemplateFile] of the application lets
    through is never refused by [analyzeTemplate] as unsupported: a PDF
    goes to [analyzePDF], a JPEG or PNG to [analyzeImage]; and a file
    larger than 10 MB is not let through whatever its type. *)
Theorem valid_upload_is_analyzed (u : Upload) (st : Results.t) :
  (isValidTemplateFile u = true ->
   analyzeTemplate (uploaded u) st =
   if String.eqb (type (uploaded u)) "application/pdf"
   then analyzePDF (uploaded u) st
   else analyzeImage (uploaded u) st) /\
  (maxSize < size u -> isValidTemplateFile u = false).
Proof.
  unfold isValidTemplateFile. split.
  - intros H. apply andb_true_iff in H. destruct H as [Ht _].
    apply existsb_exists in Ht. destruct Ht as [t [Hin Et]].
    apply String.eqb_eq in Et. unfold analyzeTemplate. rewrite Et.
    destruct Hin as [<-|[<-|[<-|[<-|[]]]]]; reflexivity.
  - intros Hs. apply andb_false_iff. right. apply Z.leb_gt. exact Hs.
Qed.

Lemma valid_upload_is_analyzed_witness :
  analyzeTemplate (uploaded pngUpload) initialResults =
  analyzeImage (uploaded pngUpload) initialResults.
Proof.
  apply (proj1 (valid_upload_is_analyzed pngUpload initialResults)).
  reflexivity.
Defined.

(* ================================================================= *)
(** * The colours of a palette *)

Module SwatchFacts.
Import JS.

Lemma map_set_key_in (m : Map) (k : string) (v : Z) (n : string) :
  In n (map fst (map_set m k v)) <-> In n (map fst m) \/ n = k.
Proof.
  rewrite PaletteMore.map_set_keys.
  destruct (existsb (String.eqb k) (map fst m)) eqn:E.
  - split; [now left|]. intros [H| ->]; [exact H|].
    apply existsb_exists in E. destruct E as [k' [Hk E]].
    apply String.eqb_eq in E. now subst.
  - rewrite in_app_iff. cbn [In]. split.
    + intros [H|[H|[]]]; [now left | right; now symmetry].
    + intros [H|H]; [now left | right; left; now symmetry].
Qed.

(** The keys of the counting loop are the bucket keys of the samples
    with alpha at least 128. *)
Lemma keys_loop (d : list Z) (l : list Z) :
  forall m k,
    In k (map fst (fold_left (palette_step d) l m)) <->
    In k (map fst m) \/
    exists i, In i (filter (fun i => negb (data_at d (i + 3) <? 128)) l) /\
              k = colorKey (data_at d i) (data_at d (i + 1))
                    (data_at d (i + 2)).
Proof.
  induction l as [|i l IH]; intros m k; cbn [fold_left filter].
  - split; [now left|]. intros [H|[i [[] _]]]. exact H.
  - rewrite IH. unfold palette_step at 1.
    destruct (data_at d (i + 3) <? 128); cbn [negb].
    + reflexivity.
    + rewrite map_set_key_in. cbn [In]. split.
      * intros [[H|H]|[j [Hj E]]].
        -- now left.
        -- right. exists i. split; [now left | exact H].
        -- right. exists j. split; [now right | exact E].
      * intros [H|[j [[Hj|Hj] E]]].
        -- left. now left.
        -- subst j. left. now right.
        -- right. exists j. now split.
Qed.

Lemma colorCounts_keys (d : list Z) (k : string) :
  In k (map fst (colorCounts d)) <->
  exists i, In i (opaqueSamples d) /\
            k = colorKey (data_at d i) (data_at d (i + 1)) (data_at d (i + 2)).
Proof.
  unfold colorCounts, opaqueSamples, sampleOffsets.
  rewrite keys_loop. cbn [map In]. tauto.
Qed.

Lemma data_at_byte (d : list Z) (i : Z) :
  Forall (fun v => 0 <= v <= 255) d -> 0 <= data_at d i <= 255.
Proof.
  intros H. unfold data_at.
  destruct (nth_in_or_default (Z.to_nat i) d 0) as [Hin|E].
  - rewrite Forall_forall in H. now apply H.
  - rewrite E. lia.
Qed.

Lemma quantize_byte (v : Z) :
  0 <= v <= 255 -> 0 <= quantize v <= 240 /\ quantize v mod 20 = 0.
Proof.
  intros Hv. unfold quantize. split.
  - assert (0 <= v / 20) by (apply Z.div_pos; lia).
    assert (v / 20 < 13) by (apply Z.div_lt_upper_bound; lia).
    lia.
  - apply Z.mod_mul. lia.
Qed.

(** The swatch of a bucket key. *)
Lemma swatch_of_key (r g b n : Z) :
  0 <= r <= 255 -> 0 <= g <= 255 -> 0 <= b <= 255 ->
  swatch_of_entry (colorKey r g b, n) =
  mkSwatch ("rgb(" ++ to_string (quantize r) ++ ", "
              ++ to_string (quantize g) ++ ", "
              ++ to_string (quantize b) ++ ")")%string
    ("#" ++ hexByte (quantize r) ++ hexByte (quantize g)
       ++ hexByte (quantize b))%string
    n.
Proof.
  intros Hr Hg Hb. unfold swatch_of_entry. cbn [fst snd].
  rewrite PaletteFacts.decodeKey_colorKey.
  rewrite HexFacts.rgbToHex_digits; [reflexivity | | |];
    (destruct (quantize_byte r Hr), (quantize_byte g Hg),
       (quantize_byte b Hb); lia).
Qed.

End SwatchFacts.

(** X23: in a well-formed buffer every swatch of the palette is the
    colour of the bucket of some sampled pixel with alpha at least 128:
    its channels are the floors of the pixel's channels to multiples of
    20, between 0 and 240, rendered as [rgb(R, G, B)] and as [#] with two
    hexadecimal digits per channel; and when the palette has fewer than 8
    swatches, every such sample has its swatch. *)
Theorem palette_swatches_are_buckets (img : ImageData) :
  wf_image img ->
  (forall s, In s (extractColorPalette img) ->
             exists i, In i (opaqueSamples (data img)) /\
                       renders s (bucket (data img) i)) /\
  ((List.length (extractColorPalette img) < 8)%nat ->
   forall i, In i (opaqueSamples (data img)) ->
             exists s, In s (extractColorPalette img) /\
                       renders s (bucket (data img) i)).
Proof.
  intros (_ & _ & _ & Hbytes).
  assert (Hrender :
            forall i n,
              renders
                (swatch_of_entry
                   (colorKey (data_at (data img) i)
                      (data_at (data img) (i + 1))
                      (data_at (data img) (i + 2)), n))
                (bucket (data img) i)).
  { intros i n. unfold renders, bucket.
    pose proof (SwatchFacts.data_at_byte (data img) i Hbytes) as H0.
    pose proof (SwatchFacts.data_at_byte (data img) (i + 1) Hbytes) as H1.
    pose proof (SwatchFacts.data_at_byte (data img) (i + 2) Hbytes) as H2.
    rewrite (SwatchFacts.swatch_of_key _ _ _ n H0 H1 H2).
    cbn [rgb hex].
    split; [reflexivity|]. split; [reflexivity|].
    split; [now apply SwatchFacts.quantize_byte|].
    split; now apply SwatchFacts.quantize_byte. }
  split.
  - intros s Hs. unfold extractColorPalette in Hs.
    apply in_map_iff in Hs. destruct Hs as [[k n] [<- He]].
    apply PaletteMore.in_firstn in He. apply SortFacts.sort_by_in in He.
    assert (Hk : In k (map fst (colorCounts (data img)))).
    { apply in_map_iff. exists (k, n). now split. }
    apply SwatchFacts.colorCounts_keys in Hk.
    destruct Hk as [i [Hi ->]]. exists i. split; [exact Hi|].
    apply Hrender.
  - intros Hlt i Hi.
    assert (Hk : In (colorKey (data_at (data img) i)
                       (data_at (data img) (i + 1))
                       (data_at (data img) (i + 2)))
                   (map fst (colorCounts (data img)))).
    { apply SwatchFacts.colorCounts_keys. now exists i. }
    apply in_map_iff in Hk. destruct Hk as [[k n] [Ek He]].
    cbn [fst] in Ek. subst k.
    exists (swatch_of_entry
              (colorKey (data_at (data img) i) (data_at (data img) (i + 1))
                 (data_at (data img) (i + 2)), n)).
    split; [|apply Hrender].
    unfold extractColorPalette. apply in_map.
    rewrite PaletteFacts.palette_length in Hlt.
    rewrite firstn_all2 by (rewrite SortFacts.sort_by_length; lia).
    now apply SortFacts.sort_by_in.
Qed.

Lemma palette_swatches_are_buckets_witness :
  exists i, In i (opaqueSamples (data tieImage)) /\
            renders (mkSwatch "rgb(240, 0, 0)" "#f00000" 1)
              (bucket (data tieImage) i).
Proof.
  apply (proj1 (palette_swatches_are_buckets tieImage
                  (ImageFacts.wf_imageb_sound tieImage eq_refl))).
  left. reflexivity.
Defined.

(* ================================================================= *)
(** * More on the text score *)

Module ScoreFacts.









End ScoreFacts.





(* ================================================================= *)
(** * The alpha channel *)

Module AlphaFacts.

Lemma fold_ext {A B : Type} (f g : A -> B -> A) (l : list B) :
  (forall a b, f a b = g a b) ->
  forall a, fold_left f l a = fold_left g l a.
Proof.
  intros H. induction l as [|b l IH]; intros a; cbn [fold_left].
  - reflexivity.
  - rewrite H. apply IH.
Qed.

Lemma existsb_pointwise {A : Type} (f g : A -> bool) (l : list A) :
  (forall a, f a = g a) -> existsb f l = existsb g l.
Proof.
  intros H. induction l as [|a l IH]; cbn [existsb]; [reflexivity|].
  now rewrite H, IH.
Qed.

Lemma find_pointwise {A : Type} (f g : A -> bool) (l : list A) :
  (forall a, f a = g a) -> find f l = find g l.
Proof.
  intros H. induction l as [|a l IH]; cbn [find]; [reflexivity|].
  now rewrite H, IH.
Qed.

Section SameRgb.
Variables img img' : ImageData.
Hypothesis Hsame : same_rgb img img'.

Lemma gray_same (p : Z) :
  getGrayscale (data img) (p * 4) = getGrayscale (data img') (p * 4).
Proof.
  destruct Hsame as (_ & _ & _ & H). unfold getGrayscale.
  rewrite <- (Z.add_0_r (p * 4)) at 1 4.
  now rewrite !H by lia.
Qed.

Lemma brightness_same (x y : Z) : brightness img x y = brightness img' x y.
Proof.
  unfold brightness. destruct Hsame as (Hw & _). rewrite Hw.
  apply gray_same.
Qed.

Lemma hasContent_same (y : Z) : hasContent img y = hasContent img' y.
Proof.
  unfold hasContent, horizontalProfile. destruct Hsame as (Hw & _).
  rewrite Hw. f_equal. f_equal. apply fold_ext.
  intros n x. now rewrite brightness_same.
Qed.

Lemma detectSections_same : detectSections img = detectSections img'.
Proof.
  unfold detectSections. destruct Hsame as (Hw & Hh & _).
  rewrite Hw, Hh.
  rewrite (fold_ext (section_step img) (section_step img')); [reflexivity|].
  intros st y. unfold section_step. now rewrite hasContent_same, Hw, Hh.
Qed.

Lemma detectMargins_same : detectMargins img = detectMargins img'.
Proof.
  unfold detectMargins. destruct Hsame as (Hw & Hh & _).
  assert (Hr : forall y, rowHasContent img y = rowHasContent img' y).
  { intros y. unfold rowHasContent. rewrite Hw.
    apply existsb_pointwise. intros x. now rewrite brightness_same. }
  assert (Hc : forall x, colHasContent img x = colHasContent img' x).
  { intros x. unfold colHasContent. rewrite Hh.
    apply existsb_pointwise. intros y. now rewrite brightness_same. }
  cbv zeta. rewrite Hw, Hh.
  rewrite !(find_pointwise (rowHasContent img) (rowHasContent img') _ Hr).
  rewrite !(find_pointwise (colHasContent img) (colHasContent img') _ Hc).
  reflexivity.
Qed.

Lemma detectDesignElements_same :
  detectDesignElements img = detectDesignElements img'.
Proof.
  unfold detectDesignElements. destruct Hsame as (Hw & Hh & _).
  rewrite Hh. f_equal. apply fold_ext. intros lines y.
  unfold line_row. rewrite Hw. f_equal. apply fold_ext. intros st x.
  unfold line_step, dark. now rewrite brightness_same, Hw.
Qed.

Lemma detectTextRegions_same :
  detectTextRegions img = detectTextRegions img'.
Proof.
  unfold detectTextRegions, rawTextRegions.
  destruct Hsame as (Hw & Hh & Hl & _).
  rewrite Hw, Hh. f_equal. apply flat_map_ext. intros [x y].
  rewrite !TextFacts.rawRegion_eq. f_equal.
  unfold calculateTextScore, score_counters. rewrite Hw.
  rewrite (fold_ext (score_row (data img) x y blockSize (width img'))
             (score_row (data img') x y blockSize (width img')));
    [reflexivity|].
  intros acc dy. unfold score_row. apply fold_ext. intros acc' dx.
  unfold score_step. now rewrite Hl, !gray_same.
Qed.

End SameRgb.

Lemma same_rgbb_sound (img img' : ImageData) :
  same_rgbb img img' = true -> same_rgb img img'.
Proof.
  unfold same_rgbb. intros H.
  apply andb_true_iff in H. destruct H as [H Hpix].
  apply andb_true_iff in H. destruct H as [H Hl].
  apply andb_true_iff in H. destruct H as [Hw Hh].
  apply Z.eqb_eq in Hw, Hh, Hl.
  split; [exact Hw|]. split; [exact Hh|]. split; [exact Hl|].
  assert (Hin : forall p k, 0 <= p -> 0 <= k < 3 ->
                  data_at (data img) (p * 4 + k)
                  = data_at (data img') (p * 4 + k)).
  { intros p k Hp Hk.
    destruct (Z_lt_ge_dec (p * 4) (data_length (data img))) as [Hlt|Hge].
    - rewrite forallb_forall in Hpix.
      assert (Hi : In (p * 4) (JS.for_range 0 (data_length (data img)) 4)).
      { apply JSFacts.in_for_range; [lia|]. split; [lia|].
        rewrite Z.sub_0_r. apply Z.mod_mul. lia. }
      specialize (Hpix (p * 4) Hi). rewrite forallb_forall in Hpix.
      apply Z.eqb_eq. apply Hpix.
      assert (Hk' : k = 0 \/ k = 1 \/ k = 2) by lia.
      cbn [In]. intuition.
    - unfold data_at. unfold data_length in *.
      rewrite !nth_overflow by lia. reflexivity. }
  intros p k Hk. destruct (Z_le_gt_dec 0 p) as [Hp|Hp].
  - now apply Hin.
  - specialize (Hin 0 0 (Z.le_refl 0) ltac:(lia)).
    unfold data_at in *.
    replace (Z.to_nat (p * 4 + k)) with (Z.to_nat (0 * 4 + 0)) by lia.
    exact Hin.
Qed.

End AlphaFacts.

(** X26: the layout analyses never read the alpha channel: two images
    of the same size whose pixels agree on red, green and blue have the
    same sections, margins, design elements and text blocks, whatever
    their alpha values are (while the palette skips every pixel whose
    alpha is below 128). *)
Theorem layout_ignores_alpha (img img' : ImageData) :
  same_rgb img img' ->
  detectSections img = detectSections img' /\
  detectMargins img = detectMargins img' /\
  detectDesignElements img = detectDesignElements img' /\
  detectTextRegions img = detectTextRegions img'.
Proof.
  intros H. split; [|split; [|split]].
  - now apply AlphaFacts.detectSections_same.
  - now apply AlphaFacts.detectMargins_same.
  - now apply AlphaFacts.detectDesignElements_same.
  - now apply AlphaFacts.detectTextRegions_same.
Qed.

Lemma layout_ignores_alpha_witness :
  detectMargins clearBand = detectMargins (banded 4 40 10 15) /\
  extractColorPalette clearBand = [].
Proof.
  split.
  - apply (layout_ignores_alpha clearBand (banded 4 40 10 15)).
    apply AlphaFacts.same_rgbb_sound. vm_compute. reflexivity.
  - vm_compute. reflexivity.
Defined.

(* ================================================================= *)
(** * The styles of the preview *)

Module StyleFacts.

(** The first swatch counts at least as many samples as any bucket, kept
    or cut off. *)
Lemma first_swatch_max (img : ImageData) (c0 : ColorSwatch)
    (rest : list ColorSwatch) :
  extractColorPalette img = c0 :: rest ->
  forall e, In e (colorCounts (data img)) -> snd e <= frequency c0.
Proof.
  unfold extractColorPalette. intros E e He.
  pose proof (SortFacts.sort_by_strongly_sorted
                (fun a b : string * Z => snd b - snd a)) as Hs.
  specialize (Hs ltac:(unfold SortFacts.before; intros; lia)
                 ltac:(unfold SortFacts.before; intros; lia)
                 (colorCounts (data img))).
  apply (SortFacts.sort_by_in (fun a b : string * Z => snd b - snd a)) in He.
  destruct (JS.sort_by (fun a b : string * Z => snd b - snd a)
              (colorCounts (data img))) as [|e0 l]; [destruct He|].
  cbn [firstn map] in E. injection E as <- _.
  rewrite PaletteFacts.frequency_swatch_of_entry.
  destruct He as [<-|He]; [lia|].
  apply StronglySorted_inv in Hs. destruct Hs as [_ Hs].
  rewrite Forall_forall in Hs. specialize (Hs e He).
  unfold SortFacts.before in Hs. lia.
Qed.

Lemma hex_not_empty (img : ImageData) (s : ColorSwatch) :
  In s (extractColorPalette img) -> hex s <> EmptyString.
Proof.
  unfold extractColorPalette. intros H. apply in_map_iff in H.
  destruct H as [e [<- _]]. unfold swatch_of_entry.
  destruct (decodeKey (fst e)) as [[[r g] b]|]; cbn [hex]; [|discriminate].
  unfold rgbToHex. discriminate.
Qed.

Lemma setProperty_value (v : string) :
  v <> EmptyString -> setProperty v = Some v.
Proof.
  intros H. unfold setProperty.
  destruct (String.eqb_spec v EmptyString); [contradiction | reflexivity].
Qed.

Lemma margins_not_negative (img : ImageData) :
  let m := detectMargins img in
  0 <= top m /\ 0 <= bottom m /\ 0 <= left m /\ 0 <= right m.
Proof.
  unfold detectMargins. cbv zeta. cbn [top bottom left right].
  repeat split.
  - destruct (find _ _) as [y|] eqn:E; [|lia].
    apply find_some in E. destruct E as [E _].
    apply JSFacts.in_for_range_1 in E. lia.
  - destruct (find _ (rev (JS.for_range 0 (height img) 1))) as [y|] eqn:E;
      [|lia].
    apply find_some in E. destruct E as [E _].
    apply in_rev, JSFacts.in_for_range_1 in E. lia.
  - destruct (find (colHasContent img) (JS.for_range 0 (width img) 1))
      as [x|] eqn:E; [|lia].
    apply find_some in E. destruct E as [E _].
    apply JSFacts.in_for_range_1 in E. lia.
  - destruct (find (colHasContent img) (rev (JS.for_range 0 (width img) 1)))
      as [x|] eqn:E; [|lia].
    apply find_some in E. destruct E as [E _].
    apply in_rev, JSFacts.in_for_range_1 in E. lia.
Qed.

End StyleFacts.

(** X27: the styles the preview takes from the analysis of an image:
    the padding is always set, to the four margins of [detectMargins] in
    the order top, right, bottom, left, none of them negative; with a
    palette, the primary colour is the hex of the first swatch, which
    counts at least as many samples as any other bucket, and the
    secondary colour is the hex of the second swatch, or [#666666] when
    there is one swatch only; with an empty palette, as for an image
    whose pixels are all transparent, the two colours are left as the
    previous template set them. *)
Theorem styles_of_analysis (matchFont : string -> string) (img : ImageData)
    (fonts : list string) (st : Styles) :
  let template := freshResults img fonts [] in
  let st' := applyTemplateStyles matchFont template st in
  let m := detectMargins img in
  (padding st' = Some (paddingOf m) /\
   0 <= top m /\ 0 <= bottom m /\ 0 <= left m /\ 0 <= right m) /\
  (extractColorPalette img = [] ->
   primaryColor st' = primaryColor st /\
   secondaryColor st' = secondaryColor st) /\
  (forall c0 rest,
      extractColorPalette img = c0 :: rest ->
      primaryColor st' = Some (hex c0) /\
      (forall e, In e (colorCounts (data img)) -> snd e <= frequency c0) /\
      secondaryColor st' =
        Some (match rest with c1 :: _ => hex c1 | [] => "#666666"%string end)).
Proof.
  cbv zeta. unfold applyTemplateStyles, freshResults.
  cbn [Results.colorPalette Results.fonts Results.layout Layout.margins].
  split; [|split].
  - split; [reflexivity | apply StyleFacts.margins_not_negative].
  - intros E. rewrite E. destruct fonts; split; reflexivity.
  - intros c0 rest E.
    assert (H0 : hex c0 <> EmptyString).
    { apply (StyleFacts.hex_not_empty img). rewrite E. now left. }
    assert (H1 : secondaryOf rest =
                 match rest with
                 | c1 :: _ => hex c1
                 | [] => "#666666"%string
                 end).
    { destruct rest as [|c1 rest']; [reflexivity|]. unfold secondaryOf.
      destruct (String.eqb_spec (hex c1) EmptyString) as [Ee|_];
        [|reflexivity].
      exfalso. apply (StyleFacts.hex_not_empty img c1); [|exact Ee].
      rewrite E. right. now left. }
    assert (H2 : secondaryOf rest <> EmptyString).
    { rewrite H1. destruct rest as [|c1 rest']; [discriminate|].
      apply (StyleFacts.hex_not_empty img). rewrite E. right. now left. }
    rewrite E.
    split; [|split].
    + destruct fonts; cbn [primaryColor];
        now apply StyleFacts.setProperty_value.
    + now apply (StyleFacts.first_swatch_max img c0 rest).
    + rewrite <- H1.
      destruct fonts; cbn [secondaryColor];
        now apply StyleFacts.setProperty_value.
Qed.

Lemma styles_of_analysis_witness :
  primaryColor
    (applyTemplateStyles (fun f => f)
       (freshResults (solid 2 2 10 20 30 0) [] [])
       (mkStyles (Some "#143c64"%string) None None None))
  = Some "#143c64"%string.
Proof.
  apply (styles_of_analysis (fun f => f) (solid 2 2 10 20 30 0) []
           (mkStyles (Some "#143c64"%string) None None None)).
  reflexivity.
Defined.
